(** * ur_modern_driver: the follow_joint_trajectory action server and the
      telemetry parsers, embedded from

      - src/ros/action_server.cpp                          (ActionServer)
      - include/ur_modern_driver/ros/trajectory_follower.h (TrajectoryPoint)
      - include/ur_modern_driver/ur/parser.h               (the three parsers)

    A C++ [double] is a binary64 float of the kernel ([PrimFloat.float]), a
    [std::vector] or [std::array] is a [list], a [std::set<std::string>] is a
    [gset string], integers are [Z].  An access outside an array, or a copy of
    an array cell that was never written, is undefined behaviour in C++; the
    functions below return [None] there. *)

From Stdlib Require Import ZArith String Ascii PrimFloat Uint63 Lia Bool.
From Stdlib Require SpecFloat FloatOps FloatAxioms.
From stdpp Require Import base list gmap strings sorting.

Set Warnings "-inexact-float".
Local Open Scope Z_scope.

(* ===================================================================== *)
(** ** Data model *)
(* ===================================================================== *)

(** [ros::Duration]: signed seconds and nanoseconds (two [int32_t]). *)
Record Duration := mkDuration { d_sec : Z; d_nsec : Z }.

(** One point of the goal (trajectory_msgs/JointTrajectoryPoint); the
    accelerations and efforts are never read by the action server. *)
Record JointTrajectoryPoint := mkJTP {
  positions : list float;
  velocities : list float;
  time_from_start : Duration
}.

(** The goal message: [goal->trajectory.joint_names] and
    [goal->trajectory.points]. *)
Record Goal := mkGoal {
  joint_names : list string;
  points : list JointTrajectoryPoint
}.

(** A goal handle: the goal it refers to and the identity the transport gave
    it. *)
Record GoalHandle := mkGH { gh_id : nat; getGoal : Goal }.

(** [TrajectoryPoint] of trajectory_follower.h: two [std::array<double, 6>]
    and a [std::chrono::microseconds]. *)
Record TrajectoryPoint := mkTP {
  tp_positions : list float;
  tp_velocities : list float;
  tp_time_from_start : Z
}.

(** The action result: [error_code] and [error_string]. *)
Record Result := mkResult { error_code : Z; error_string : string }.

(** The named result codes of control_msgs/FollowJointTrajectoryResult (the
    message definition the action server is compiled against). *)
Definition SUCCESSFUL : Z := 0.
Definition INVALID_GOAL : Z := -1.
Definition INVALID_JOINTS : Z := -2.

(** Modelled from the spec: the RobotState enumeration, whose declaration is
    not among the sources ("enum {Running, ProtectiveStopped,
    EmergencyStopped, Error, Undefined}").  [validateState] names the first
    four; anything else reaches its [default] label. *)
Inductive RobotState :=
| Running
| ProtectiveStopped
| EmergencyStopped
| Error
| Undefined.

Definition RobotState_eqb (a b : RobotState) : bool :=
  match a, b with
  | Running, Running | ProtectiveStopped, ProtectiveStopped
  | EmergencyStopped, EmergencyStopped | Error, Error
  | Undefined, Undefined => true
  | _, _ => false
  end.

(** The calls a goal handle offers ([actionlib::ServerGoalHandle]). *)
Inductive gh_call :=
| setAccepted
| setRejected (res : Result) (text : string)
| setAborted (res : Result) (text : string)
| setSucceeded (res : Result)
| setCanceled (res : Result).

(** What the server does to the outside, in the order it does it: a call on
    a goal handle ([None] is a default-constructed handle), a call on the
    follower, a sleep, a wake-up of the execution thread, the end of the
    process. *)
Inductive event :=
| OnGoalHandle (gh : option GoalHandle) (c : gh_call)
| StartSmoothTrajectory (trajectory : list TrajectoryPoint)
| StartTimedTrajectory (trajectory : list TrajectoryPoint)
| FollowerStop
| RosSleep (seconds : float)
| Usleep (us : Z)
| SleepForMs (ms : Z)
| NotifyOne
| ProcessExit (code : Z).

(** The fields of [ActionServer] (the constructor's initialiser list names
    them); the mutex and the condition variable are part of the thread model
    further down. *)
Record server := mkServer {
  joint_names_ : list string;
  joint_set_ : gset string;
  max_velocity_ : float;
  interrupt_traj_ : bool;
  has_goal_ : bool;
  running_ : bool;
  state_ : RobotState;
  use_smooth_trajectory_ : bool;
  kill_on_hang_ : bool;
  q_actual_ : list float;
  qd_actual_ : list float;
  curr_gh_ : option GoalHandle
}.

(** The constructor (action_server.cpp:4-19): [curr_gh_], [q_actual_] and
    [qd_actual_] are default-initialised; the two arrays are passed in since
    their first content is not fixed by the constructor. *)
Definition ActionServer_ctor (joint_names : list string) (max_velocity : float)
    (q0 qd0 : list float) : server :=
  {| joint_names_ := joint_names;
     joint_set_ := list_to_set joint_names;
     max_velocity_ := max_velocity;
     interrupt_traj_ := false;
     has_goal_ := false;
     running_ := false;
     state_ := Error;
     use_smooth_trajectory_ := true;
     kill_on_hang_ := true;
     q_actual_ := q0;
     qd_actual_ := qd0;
     curr_gh_ := None |}.

Definition set_interrupt_traj (b : bool) (s : server) : server :=
  {| joint_names_ := joint_names_ s; joint_set_ := joint_set_ s;
     max_velocity_ := max_velocity_ s; interrupt_traj_ := b;
     has_goal_ := has_goal_ s; running_ := running_ s; state_ := state_ s;
     use_smooth_trajectory_ := use_smooth_trajectory_ s;
     kill_on_hang_ := kill_on_hang_ s; q_actual_ := q_actual_ s;
     qd_actual_ := qd_actual_ s; curr_gh_ := curr_gh_ s |}.

Definition set_has_goal (b : bool) (s : server) : server :=
  {| joint_names_ := joint_names_ s; joint_set_ := joint_set_ s;
     max_velocity_ := max_velocity_ s; interrupt_traj_ := interrupt_traj_ s;
     has_goal_ := b; running_ := running_ s; state_ := state_ s;
     use_smooth_trajectory_ := use_smooth_trajectory_ s;
     kill_on_hang_ := kill_on_hang_ s; q_actual_ := q_actual_ s;
     qd_actual_ := qd_actual_ s; curr_gh_ := curr_gh_ s |}.

Definition set_running (b : bool) (s : server) : server :=
  {| joint_names_ := joint_names_ s; joint_set_ := joint_set_ s;
     max_velocity_ := max_velocity_ s; interrupt_traj_ := interrupt_traj_ s;
     has_goal_ := has_goal_ s; running_ := b; state_ := state_ s;
     use_smooth_trajectory_ := use_smooth_trajectory_ s;
     kill_on_hang_ := kill_on_hang_ s; q_actual_ := q_actual_ s;
     qd_actual_ := qd_actual_ s; curr_gh_ := curr_gh_ s |}.

Definition set_state (st : RobotState) (s : server) : server :=
  {| joint_names_ := joint_names_ s; joint_set_ := joint_set_ s;
     max_velocity_ := max_velocity_ s; interrupt_traj_ := interrupt_traj_ s;
     has_goal_ := has_goal_ s; running_ := running_ s; state_ := st;
     use_smooth_trajectory_ := use_smooth_trajectory_ s;
     kill_on_hang_ := kill_on_hang_ s; q_actual_ := q_actual_ s;
     qd_actual_ := qd_actual_ s; curr_gh_ := curr_gh_ s |}.

Definition set_curr_gh (gh : GoalHandle) (s : server) : server :=
  {| joint_names_ := joint_names_ s; joint_set_ := joint_set_ s;
     max_velocity_ := max_velocity_ s; interrupt_traj_ := interrupt_traj_ s;
     has_goal_ := has_goal_ s; running_ := running_ s; state_ := state_ s;
     use_smooth_trajectory_ := use_smooth_trajectory_ s;
     kill_on_hang_ := kill_on_hang_ s; q_actual_ := q_actual_ s;
     qd_actual_ := qd_actual_ s; curr_gh_ := Some gh |}.

Definition set_q_actual (q : list float) (s : server) : server :=
  {| joint_names_ := joint_names_ s; joint_set_ := joint_set_ s;
     max_velocity_ := max_velocity_ s; interrupt_traj_ := interrupt_traj_ s;
     has_goal_ := has_goal_ s; running_ := running_ s; state_ := state_ s;
     use_smooth_trajectory_ := use_smooth_trajectory_ s;
     kill_on_hang_ := kill_on_hang_ s; q_actual_ := q;
     qd_actual_ := qd_actual_ s; curr_gh_ := curr_gh_ s |}.

Definition set_qd_actual (qd : list float) (s : server) : server :=
  {| joint_names_ := joint_names_ s; joint_set_ := joint_set_ s;
     max_velocity_ := max_velocity_ s; interrupt_traj_ := interrupt_traj_ s;
     has_goal_ := has_goal_ s; running_ := running_ s; state_ := state_ s;
     use_smooth_trajectory_ := use_smooth_trajectory_ s;
     kill_on_hang_ := kill_on_hang_ s; q_actual_ := q_actual_ s;
     qd_actual_ := qd; curr_gh_ := curr_gh_ s |}.

Definition set_params (smooth kill : bool) (s : server) : server :=
  {| joint_names_ := joint_names_ s; joint_set_ := joint_set_ s;
     max_velocity_ := max_velocity_ s; interrupt_traj_ := interrupt_traj_ s;
     has_goal_ := has_goal_ s; running_ := running_ s; state_ := state_ s;
     use_smooth_trajectory_ := smooth;
     kill_on_hang_ := kill; q_actual_ := q_actual_ s;
     qd_actual_ := qd_actual_ s; curr_gh_ := curr_gh_ s |}.

(* ===================================================================== *)
(** ** Goal validation (action_server.cpp:130-229) *)
(* ===================================================================== *)

Definition set_error_string (msg : string) (res : Result) : Result :=
  {| error_code := error_code res; error_string := msg |}.

Definition set_error_code (c : Z) (res : Result) : Result :=
  {| error_code := c; error_string := error_string res |}.

(** [validateState] (135-158): the boolean returned and [res] afterwards. *)
Definition validateState (s : server) (res : Result) : bool * Result :=
  match state_ s with
  | EmergencyStopped => (false, set_error_string "Robot is emergency stopped" res)
  | ProtectiveStopped => (false, set_error_string "Robot is protective stopped" res)
  | Error => (false, set_error_string "Robot is not ready, check robot_mode" res)
  | Running => (true, res)
  | _ => (false, set_error_string "Undefined state" res)
  end.

(** Iteration over a [std::set<std::string>]: ascending in [operator<], the
    bytewise lexicographic order. *)
Definition string_le (a b : string) : Prop := String.leb a b = true.

#[global] Instance string_le_dec (a b : string) : Decision (string_le a b).
Proof. unfold string_le. apply _. Defined.

Definition set_begin_end (X : gset string) : list string :=
  merge_sort string_le (elements X).

(** The [std::for_each] of lines 172 and 174: every joint followed by ", ". *)
Definition append_joints (acc : string) (js : list string) : string :=
  foldl (fun acc joint => acc +:+ (joint +:+ ", ")) acc js.

(** The character written [\n] in the source. *)
Definition newline : string := String (ascii_of_nat 10) EmptyString.

(** [validateJoints] (160-176). *)
Definition validateJoints (s : server) (gh : GoalHandle) (res : Result)
    : bool * Result :=
  let joints := joint_names (getGoal gh) in
  let goal_joints : gset string := list_to_set joints in
  if bool_decide (goal_joints = joint_set_ s) then (true, res)
  else
    let res := set_error_code INVALID_JOINTS res in
    let res := set_error_string ("Invalid joint names for goal" +:+ newline) res in
    let res := set_error_string (error_string res +:+ "Expected: ") res in
    let res := set_error_string
                 (append_joints (error_string res) (set_begin_end goal_joints)) res in
    let res := set_error_string
                 (error_string res +:+ (newline +:+ "Found: ")) res in
    let res := set_error_string
                 (append_joints (error_string res) (set_begin_end (joint_set_ s))) res in
    (false, res).

Section Validation.

(** [std::to_string(double)] of the C++ library. *)
Variable to_string : float -> string.

(** The loop over [point.velocities] (203-215): [None] when every velocity
    passes, the message otherwise. *)
Fixpoint check_velocities (max_velocity : float) (vs : list float)
    : option string :=
  match vs with
  | [] => None
  | velocity :: vs' =>
      if negb (is_finite velocity)
      then Some "Received a goal with infinities or NaNs in velocity"%string
      else if (max_velocity <? abs velocity)%float
      then Some ("Received a goal with velocities that are higher than max_velocity_ "
                 +:+ to_string max_velocity)
      else check_velocities max_velocity vs'
  end.

(** The loop over [point.positions] (216-223). *)
Fixpoint check_positions (ps : list float) : option string :=
  match ps with
  | [] => None
  | position :: ps' =>
      if negb (is_finite position)
      then Some "Received a goal with infinities or NaNs in positions"%string
      else check_positions ps'
  end.

(** The loop over the points (187-224); [res] already carries INVALID_GOAL. *)
Fixpoint check_points (s : server) (pts : list JointTrajectoryPoint)
    (res : Result) : bool * Result :=
  match pts with
  | [] => (true, res)
  | point :: pts' =>
      if negb (length (velocities point) =? length (joint_names_ s))%nat
      then (false, set_error_string
                     "Received a goal with an invalid number of velocities"
                     (set_error_code INVALID_GOAL res))
      else if negb (length (positions point) =? length (joint_names_ s))%nat
      then (false, set_error_string
                     "Received a goal with an invalid number of positions"
                     (set_error_code INVALID_GOAL res))
      else match check_velocities (max_velocity_ s) (velocities point) with
           | Some msg => (false, set_error_string msg res)
           | None =>
               match check_positions (positions point) with
               | Some msg => (false, set_error_string msg res)
               | None => check_points s pts' res
               end
           end
  end.

(** [validateTrajectory] (178-229). *)
Definition validateTrajectory (s : server) (gh : GoalHandle) (res : Result)
    : bool * Result :=
  let goal := getGoal gh in
  let res := set_error_code INVALID_GOAL res in
  if (length (points goal) <? 1)%nat then (false, res)
  else check_points s (points goal) res.

(** [validate] (130-133): the three checks under short-circuit [&&]. *)
Definition validate (s : server) (gh : GoalHandle) (res : Result)
    : bool * Result :=
  let '(ok, res) := validateState s res in
  if negb ok then (false, res)
  else
    let '(ok, res) := validateJoints s gh res in
    if negb ok then (false, res)
    else validateTrajectory s gh res.

End Validation.

(* ===================================================================== *)
(** ** Translation of a goal for the follower (action_server.cpp:231-235,
       262-277, 292-323) *)
(* ===================================================================== *)

(** [convert] (231-235): [seconds(sec) + nanoseconds(nsec)] is a nanosecond
    count in 64 bits, which two [int32_t] cannot overflow; the
    [duration_cast] to microseconds divides, rounding toward zero. *)
Definition convert (dur : Duration) : Z :=
  Z.quot (d_sec dur * 1000000000 + d_nsec dur) 1000.

(** The inner loop of [reorderMap] (267-273): the position of the first
    element equal to [aj], or the size of the list when there is none. *)
Fixpoint first_index (aj : string) (goal_joints : list string) : nat :=
  match goal_joints with
  | [] => 0%nat
  | gj :: rest => if String.eqb aj gj then 0%nat else S (first_index aj rest)
  end.

(** [reorderMap] (262-277). *)
Definition reorderMap (s : server) (goal_joints : list string) : list nat :=
  map (fun aj => first_index aj goal_joints) (joint_names_ s).

(** A [std::array<double, 6>] declared without initialiser: no cell holds a
    value yet. *)
Definition uninitialised : list (option float) := replicate 6 None.

(** One round of the loop at 315-320, for index [i]. *)
Definition translate_step (mapping : list nat) (point : JointTrajectoryPoint)
    (acc : option (list (option float) * list (option float))) (i : nat)
    : option (list (option float) * list (option float)) :=
  '(pos, vel) ← acc;
  idx ← mapping !! i;
  p ← positions point !! i;
  v ← velocities point !! i;
  if decide (idx < 6)%nat
  then Some (<[idx := Some p]> pos, <[idx := Some v]> vel)
  else None.

(** The body of the loop at 312-323 for one point: the arrays are filled
    through the mapping and copied into a [TrajectoryPoint]. *)
Definition translate_point (mapping : list nat) (point : JointTrajectoryPoint)
    : option TrajectoryPoint :=
  '(pos, vel) ← foldl (translate_step mapping point)
                      (Some (uninitialised, uninitialised)) (seq 0 6);
  pos ← mapM id pos;
  vel ← mapM id vel;
  Some (mkTP pos vel (convert (time_from_start point))).

(** Lines 292-323 of [trajectoryThread]: the trajectory handed to the
    follower. *)
Definition translate_goal (s : server) (goal : Goal)
    : option (list TrajectoryPoint) :=
  let mapping := reorderMap s (joint_names goal) in
  fp ← points goal !! 0%nat;
  let fpt := convert (time_from_start fp) in
  let t0 := if 0 <? fpt then [mkTP (q_actual_ s) (qd_actual_ s) 0] else [] in
  pts ← mapM (translate_point mapping) (points goal);
  Some (t0 ++ pts).

(* ===================================================================== *)
(** ** Completion detection (action_server.cpp:432-462) *)
(* ===================================================================== *)

Definition tolerance : float := 0.0025.

(** [reachedGoal] (432-445): the loop runs over the six cells of
    [q_actual_] and of [goal_point.positions]. *)
Fixpoint reachedGoal (q_actual goal_positions : list float) : bool :=
  match q_actual, goal_positions with
  | q :: qs, g :: gs =>
      if (tolerance <? abs (q - g))%float then false else reachedGoal qs gs
  | _, _ => true
  end.

(** [inMotion] (448-462). *)
Fixpoint inMotion (qd_actual : list float) : bool :=
  match qd_actual with
  | [] => false
  | joint_speed :: rest =>
      if (0.01 <? abs joint_speed)%float then true else inMotion rest
  end.

(* ===================================================================== *)
(** ** The execution thread, for one goal (action_server.cpp:289-428) *)
(* ===================================================================== *)

(** What the execution thread does: a call on [curr_gh_] (the field is read
    when the call is made) or a call that names no goal handle. *)
Inductive out :=
| OnCurr (c : gh_call)
| Out (e : event).

(** What one round of the polling loop (362-380) reads, each value at the
    place the loop reads it: the clock and the speeds in the loop condition,
    the positions and the speeds in the test of line 364, the interrupt flag
    at line 373.  The telemetry thread and the other handlers write these
    fields between any two reads. *)
Record poll_obs := mkObs {
  ob_now : Z;
  ob_qd_cond : list float;
  ob_q : list float;
  ob_qd : list float;
  ob_interrupt : bool
}.

(** What the surroundings answer while one goal is executed: the value the
    follower returns, the interrupt flag when it has returned (line 397), the
    clock at line 356 and the rounds of the polling loop. *)
Record goal_env := mkEnv {
  follower_returns : bool;
  interrupt_after : bool;
  now_at_start : Z;
  polls : list poll_obs
}.

(** How the processing of one goal ends. *)
Inductive thread_end :=
| Released            (* has_goal_ = false; lk.unlock() *)
| Exited              (* exit(0) *)
| StillPolling        (* the rounds given were all used inside the loop *)
| UndefinedBehaviour. (* an access outside an array *)

(** The conversion of a 64-bit count to [double]. *)
Definition double_of_int64 (z : Z) : float :=
  if z <? 0 then (- of_uint63 (Uint63.of_Z (- z)))%float
  else of_uint63 (Uint63.of_Z z).

Definition hang_res (res : Result) : Result :=
  set_error_string "Robot has hung. " (set_error_code (-100) res).

Definition timeout_res (res : Result) : Result :=
  set_error_string "Robot motion timed out or failed to reach goal."
                   (set_error_code (-100) res).

(** The loop at 362-380.  The result is what was done, [res] afterwards, and
    [timed_out] when the loop was left ([None] when the rounds ran out with
    the loop still turning). *)
Fixpoint poll_loop (timeout : Z) (back : TrajectoryPoint) (res : Result)
    (obs : list poll_obs) : list out * Result * option bool :=
  match obs with
  | [] => ([], res, None)
  | o :: rest =>
      if (ob_now o <? timeout) || inMotion (ob_qd_cond o) then
        if reachedGoal (ob_q o) (tp_positions back) && negb (inMotion (ob_qd o))
        then
          let res := set_error_code SUCCESSFUL res in
          ([OnCurr (setSucceeded res)], res, Some false)
        else if ob_interrupt o then ([], res, Some false)
        else
          let '(outs, res', r) := poll_loop timeout back res rest in
          (Out (Usleep 1000) :: outs, res', r)
      else ([], res, Some true)
  end.

Section Execution.

(** [ros::Duration(double)] followed by the addition to a [ros::Time], both
    of the ROS library: the nanoseconds a duration given in seconds adds to
    a time.  A [ros::Time] is its nanosecond count. *)
Variable Duration_fromSec : float -> Z.

(** The smooth branch (335-391), after the trajectory was built. *)
Definition smooth_branch (s : server) (env : goal_env)
    (trajectory : list TrajectoryPoint) (back : TrajectoryPoint) (t : float)
    (res : Result) : list out * thread_end :=
  let start := [Out (StartSmoothTrajectory trajectory)] in
  let hung := negb (follower_returns env) in
  let res := if hung then hang_res res else res in
  let abort := if hung then [OnCurr (setAborted res (error_string res))] else [] in
  if hung && kill_on_hang_ s
  then (start ++ abort ++ [Out (RosSleep 0.25); Out (ProcessExit 0)], Exited)
  else
    let timeout_duration := (t * 1.5)%float in
    let timeout := now_at_start env + Duration_fromSec timeout_duration in
    let wait := [Out (RosSleep (t * 0.1)%float)] in
    match poll_loop timeout back res (polls env) with
    | (outs, _, None) => (start ++ abort ++ wait ++ outs, StillPolling)
    | (outs, res, Some timed_out) =>
        let late :=
          if timed_out
          then [OnCurr (setAborted (timeout_res res) (error_string (timeout_res res)))]
          else [] in
        (start ++ abort ++ wait ++ outs ++ late ++ [Out FollowerStop], Released)
    end.

(** The timed branch (395-428). *)
Definition timed_branch (s : server) (env : goal_env)
    (trajectory : list TrajectoryPoint) (res : Result)
    : list out * thread_end :=
  let start := [Out (StartTimedTrajectory trajectory)] in
  if follower_returns env then
    let done :=
      if negb (interrupt_after env)
      then [OnCurr (setSucceeded (set_error_code SUCCESSFUL res))]
      else [] in
    (start ++ done ++ [Out FollowerStop], Released)
  else
    let res := hang_res res in
    let abort := [OnCurr (setAborted res (error_string res))] in
    if kill_on_hang_ s
    then (start ++ abort ++ [Out (RosSleep 0.25); Out (ProcessExit 0)], Exited)
    else (start ++ abort, Released).

(** Lines 292-428 for the goal in [curr_gh_], after [curr_gh_.setAccepted()]:
    [s] holds the fields as the thread reads them ([getGoal] on a handle
    that refers to no goal dereferences a null pointer). *)
Definition trajectoryThread_goal (s : server) (env : goal_env)
    : list out * thread_end :=
  match curr_gh_ s with
  | None => ([], UndefinedBehaviour)
  | Some gh =>
      match translate_goal s (getGoal gh) with
      | None => ([], UndefinedBehaviour)
      | Some trajectory =>
          match last trajectory with
          | None => ([], UndefinedBehaviour)
          | Some back =>
              let t := (double_of_int64 (tp_time_from_start back) / 1000000)%float in
              let res := mkResult 0 "" in
              if use_smooth_trajectory_ s
              then smooth_branch s env trajectory back t res
              else timed_branch s env trajectory res
          end
      end
  end.

End Execution.

(* ===================================================================== *)
(** ** The handlers as programs over atomic steps *)
(* ===================================================================== *)

(** A write to one field of the server. *)
Inductive store :=
| St_state (st : RobotState)
| St_interrupt_traj (b : bool)
| St_has_goal (b : bool)
| St_curr_gh (gh : GoalHandle)
| St_q_actual (q : list float)
| St_qd_actual (qd : list float).

Definition write (f : store) (s : server) : server :=
  match f with
  | St_state st => set_state st s
  | St_interrupt_traj b => set_interrupt_traj b s
  | St_has_goal b => set_has_goal b s
  | St_curr_gh gh => set_curr_gh gh s
  | St_q_actual q => set_q_actual q s
  | St_qd_actual qd => set_qd_actual qd s
  end.

(** A handler is a tree of atomic steps: reads and writes of the fields,
    the operations on [tj_mutex_] and [tj_cv_], calls on goal handles and on
    the follower, and the answers of the surroundings.  Every [Read] below
    looks at one field that other threads write. *)
Inductive prog (A : Type) : Type :=
| Ret (a : A)
| Read (k : server -> prog A)
| Write (f : store) (k : prog A)
| TryLock (k : bool -> prog A)          (* tj_mutex_.try_lock() *)
| Lock (k : prog A)                     (* lock(), lock_guard, unique_lock *)
| Unlock (k : prog A)                   (* unlock(), end of a guard's scope *)
| WaitFor (pred : server -> bool) (k : bool -> prog A)
                                        (* tj_cv_.wait_for(lk, 100ms, pred) *)
| CallCurr (c : gh_call) (k : prog A)   (* curr_gh_.c(...) *)
| Emit (e : event) (k : prog A)
| Ask (k : goal_env -> prog A)
| Halt (fin : thread_end).

Arguments Ret {A} a.
Arguments Read {A} k.
Arguments Write {A} f k.
Arguments TryLock {A} k.
Arguments Lock {A} k.
Arguments Unlock {A} k.
Arguments WaitFor {A} pred k.
Arguments CallCurr {A} c k.
Arguments Emit {A} e k.
Arguments Ask {A} k.
Arguments Halt {A} fin.

Fixpoint bind {A B : Type} (p : prog A) (f : A -> prog B) : prog B :=
  match p with
  | Ret a => f a
  | Read k => Read (fun s => bind (k s) f)
  | Write w k => Write w (bind k f)
  | TryLock k => TryLock (fun b => bind (k b) f)
  | Lock k => Lock (bind k f)
  | Unlock k => Unlock (bind k f)
  | WaitFor pred k => WaitFor pred (fun b => bind (k b) f)
  | CallCurr c k => CallCurr c (bind k f)
  | Emit e k => Emit e (bind k f)
  | Ask k => Ask (fun env => bind (k env) f)
  | Halt fin => Halt fin
  end.

(** The calls of a list, in order, before [k]. *)
Fixpoint do_all {A : Type} (outs : list out) (k : prog A) : prog A :=
  match outs with
  | [] => k
  | OnCurr c :: rest => CallCurr c (do_all rest k)
  | Out e :: rest => Emit e (do_all rest k)
  end.

(** Lines 253-259 of [try_execute]: "locked here". *)
Definition try_execute_locked (gh : GoalHandle) (res : Result)
    : prog (bool * Result) :=
  Write (St_curr_gh gh) (
  Write (St_interrupt_traj false) (
  Write (St_has_goal true) (
  Unlock (
  Emit NotifyOne (
  Ret (true, res)))))).

(** Lines 246-251 of [try_execute]: [try_lock] failed. *)
Definition try_execute_contended (gh : GoalHandle) (res : Result)
    : prog (bool * Result) :=
  Write (St_interrupt_traj true) (
  let res := set_error_string "Received another trajectory" res in
  CallCurr (setAborted res (error_string res)) (
  Lock (
  Emit (SleepForMs 250) (
  try_execute_locked gh res)))).

(** Lines 244-259 of [try_execute]: from [try_lock] on. *)
Definition try_execute_try_lock (gh : GoalHandle) (res : Result)
    : prog (bool * Result) :=
  TryLock (fun locked =>
  if negb locked
  then try_execute_contended gh res
  else try_execute_locked gh res).

(** [try_execute] (237-260): the boolean returned and [res] afterwards. *)
Definition try_execute (gh : GoalHandle) (res : Result)
    : prog (bool * Result) :=
  Read (fun s =>
  if negb (running_ s)
  then Ret (false, set_error_string "Internal error" res)
  else try_execute_try_lock gh res).

(** [onCancel] (115-128). *)
Definition onCancel (gh : GoalHandle) : prog unit :=
  Write (St_interrupt_traj true) (
  Lock (
  let res := mkResult (-100) "Goal cancelled by client" in
  Emit (OnGoalHandle (Some gh) (setCanceled res)) (
  Unlock (
  Ret tt)))).

(** [onRobotStateChange] (44-71). *)
Definition onRobotStateChange (state : RobotState) : prog unit :=
  Write (St_state state) (
  if RobotState_eqb state Running then Ret tt
  else
    Read (fun s =>
    if interrupt_traj_ s then Ret tt
    else
      Read (fun s =>
      if negb (has_goal_ s) then Ret tt
      else
        TryLock (fun locked =>
        if locked then Unlock (Ret tt)
        else
          Write (St_interrupt_traj true) (
          Lock (
          let res := mkResult (-100) "Robot safety stop" in
          CallCurr (setAborted res (error_string res)) (
          Unlock (
          Ret tt)))))))).

(** [updateState] (73-78), which every [consume] calls. *)
Definition updateState (q_actual qd_actual : list float) : prog bool :=
  Write (St_q_actual q_actual) (
  Write (St_qd_actual qd_actual) (
  Ret true)).

Section Handlers.

Variable to_string : float -> string.
Variable Duration_fromSec : float -> Z.

(** The body of the [if] of [onGoal] (109-112), on what the condition
    computed. *)
Definition onGoal_reject (gh : GoalHandle) (r : bool * Result) : prog unit :=
  let '(ok, res) := r in
  if negb ok
  then Emit (OnGoalHandle (Some gh) (setRejected res (error_string res))) (Ret tt)
  else Ret tt.

(** [onGoal] (101-113). *)
Definition onGoal (gh : GoalHandle) : prog unit :=
  let res := mkResult (-100) "" in
  Read (fun s =>
  let '(ok, res) := validate to_string s gh res in
  bind (if ok then try_execute gh res else Ret (false, res)) (onGoal_reject gh)).

(** The end of a turn of [trajectoryThread] (390-391, 426-427), or the end
    of the thread. *)
Definition goal_done (fin : thread_end) : prog unit :=
  match fin with
  | Released => Write (St_has_goal false) (Unlock (Ret tt))
  | _ => Halt fin
  end.

(** Lines 292-428: the goal is executed as [trajectoryThread_goal] says, one
    call at a time. *)
Definition turn_execute (s : server) (env : goal_env) : prog unit :=
  do_all (fst (trajectoryThread_goal Duration_fromSec s env))
         (goal_done (snd (trajectoryThread_goal Duration_fromSec s env))).

(** Lines 287-428, on what [wait_for] returned. *)
Definition turn_woken (woken : bool) : prog unit :=
  if negb woken then Unlock (Ret tt)
  else CallCurr setAccepted (Read (fun s => Ask (turn_execute s))).

(** One turn of the [while (running_)] loop of [trajectoryThread]
    (283-429). *)
Definition trajectoryThread_turn : prog unit :=
  Lock (WaitFor (fun s => running_ s && has_goal_ s) turn_woken).

End Handlers.

(* ===================================================================== *)
(** ** The threads *)
(* ===================================================================== *)

(** The threads that enter the action server: the one that delivers goals
    and cancellations, [tj_thread_], the one that reports the robot state
    and the one that delivers the real-time telemetry. *)
Inductive tid := Spinner | TrajThread | StateThread | RTThread.

#[global] Instance tid_eq_dec : EqDecision tid.
Proof. solve_decision. Defined.

(** A thread runs a program, or sits inside [wait_for] with the mutex
    released, or was woken there ([timed_out] tells why) and has to take the
    mutex again, or has ended. *)
Inductive tstate :=
| Run (p : prog unit)
| Waiting (pred : server -> bool) (k : bool -> prog unit)
| Woken (timed_out : bool) (pred : server -> bool) (k : bool -> prog unit)
| Halted.

(** What the threads share: the fields, the owner of [tj_mutex_], the calls
    made so far (the newest first), and whether the process has ended. *)
Record world := mkWorld {
  srv : server;
  tj_mutex_ : option tid;
  trace : list event;
  exited : bool
}.

Record config := mkConfig {
  world_of : world;
  spinner : tstate;
  tj_thread_ : tstate;
  state_thread : tstate;
  rt_thread : tstate;
  next_gh : nat
}.

Definition thread (t : tid) (c : config) : tstate :=
  match t with
  | Spinner => spinner c
  | TrajThread => tj_thread_ c
  | StateThread => state_thread c
  | RTThread => rt_thread c
  end.

Definition set_thread (t : tid) (ts : tstate) (c : config) : config :=
  match t with
  | Spinner => mkConfig (world_of c) ts (tj_thread_ c) (state_thread c) (rt_thread c) (next_gh c)
  | TrajThread => mkConfig (world_of c) (spinner c) ts (state_thread c) (rt_thread c) (next_gh c)
  | StateThread => mkConfig (world_of c) (spinner c) (tj_thread_ c) ts (rt_thread c) (next_gh c)
  | RTThread => mkConfig (world_of c) (spinner c) (tj_thread_ c) (state_thread c) ts (next_gh c)
  end.

Definition set_world (w : world) (c : config) : config :=
  mkConfig w (spinner c) (tj_thread_ c) (state_thread c) (rt_thread c) (next_gh c).

Definition set_srv (s : server) (w : world) : world :=
  mkWorld s (tj_mutex_ w) (trace w) (exited w).

Definition set_mutex (m : option tid) (w : world) : world :=
  mkWorld (srv w) m (trace w) (exited w).

Definition log (e : event) (w : world) : world :=
  mkWorld (srv w) (tj_mutex_ w) (e :: trace w) (exited w).

Definition set_exited (w : world) : world :=
  mkWorld (srv w) (tj_mutex_ w) (trace w) true.

(** The process is gone after [exit(0)] and after undefined behaviour; a
    thread whose polling never ends just stays where it is. *)
Definition ends_process (fin : thread_end) : bool :=
  match fin with
  | Exited | UndefinedBehaviour => true
  | _ => false
  end.

(** One atomic step of thread [t] at program [p]; [None] when the thread
    cannot move ([lock()] on a mutex that is held, a program that has
    returned, a question to the surroundings). *)
Definition step_prog (t : tid) (p : prog unit) (w : world)
    : option (tstate * world) :=
  match p with
  | Ret _ => None
  | Read k => Some (Run (k (srv w)), w)
  | Write f k => Some (Run k, set_srv (write f (srv w)) w)
  | TryLock k =>
      match tj_mutex_ w with
      | None => Some (Run (k true), set_mutex (Some t) w)
      | Some _ => Some (Run (k false), w)
      end
  | Lock k =>
      match tj_mutex_ w with
      | None => Some (Run k, set_mutex (Some t) w)
      | Some _ => None
      end
  | Unlock k => Some (Run k, set_mutex None w)
  | WaitFor pred k =>
      if pred (srv w) then Some (Run (k true), w)
      else Some (Waiting pred k, set_mutex None w)
  | CallCurr c k => Some (Run k, log (OnGoalHandle (curr_gh_ (srv w)) c) w)
  | Emit e k => Some (Run k, log e w)
  | Ask _ => None
  | Halt fin => Some (Halted, if ends_process fin then set_exited w else w)
  end.

(** [wait_for(lk, d, pred)] is [while (!pred()) if (wait_until(lk, t) ==
    timeout) return pred(); return true;]: a woken thread takes the mutex,
    then returns [pred()] after a timeout and tests [pred] again
    otherwise. *)
Definition step_thread (t : tid) (ts : tstate) (w : world)
    : option (tstate * world) :=
  match ts with
  | Run p => step_prog t p w
  | Woken timed_out pred k =>
      match tj_mutex_ w with
      | None =>
          Some (if timed_out then Run (k (pred (srv w))) else Run (WaitFor pred k),
                set_mutex (Some t) w)
      | Some _ => None
      end
  | Waiting _ _ | Halted => None
  end.

(** What can happen next: a thread takes a step, the surroundings answer, a
    waiting thread is woken (by [notify_one], by the timeout, or
    spuriously), a request reaches an idle thread, [tj_thread_] starts the
    next turn of its loop. *)
Inductive label :=
| Step (t : tid)
| Answer (t : tid) (env : goal_env)
| Wake (t : tid) (timed_out : bool)
| GoalArrives (goal : Goal)
| CancelArrives (gh : GoalHandle)
| StateChanges (state : RobotState)
| Telemetry (q qd : list float)
| NextTurn.

Definition idle (ts : tstate) : bool :=
  match ts with
  | Run (Ret _) => true
  | _ => false
  end.

Section Threads.

Variable to_string : float -> string.
Variable Duration_fromSec : float -> Z.

Definition step (c : config) (l : label) : option config :=
  if exited (world_of c) then None
  else
    match l with
    | Step t =>
        '(ts, w) ← step_thread t (thread t c) (world_of c);
        Some (set_thread t ts (set_world w c))
    | Answer t env =>
        match thread t c with
        | Run (Ask k) => Some (set_thread t (Run (k env)) c)
        | _ => None
        end
    | Wake t timed_out =>
        match thread t c with
        | Waiting pred k => Some (set_thread t (Woken timed_out pred k) c)
        | _ => None
        end
    | GoalArrives goal =>
        if idle (spinner c)
        then Some (mkConfig (world_of c)
                     (Run (onGoal to_string (mkGH (next_gh c) goal)))
                     (tj_thread_ c) (state_thread c) (rt_thread c)
                     (S (next_gh c)))
        else None
    | CancelArrives gh =>
        if idle (spinner c)
        then Some (set_thread Spinner (Run (onCancel gh)) c)
        else None
    | StateChanges state =>
        if idle (state_thread c)
        then Some (set_thread StateThread (Run (onRobotStateChange state)) c)
        else None
    | Telemetry q qd =>
        if idle (rt_thread c)
        then Some (set_thread RTThread
                     (Run (bind (updateState q qd) (fun _ => Ret tt))) c)
        else None
    | NextTurn =>
        if idle (tj_thread_ c)
        then Some (set_thread TrajThread
                     (if running_ (srv (world_of c))
                      then Run (trajectoryThread_turn Duration_fromSec)
                      else Halted) c)
        else None
    end.

Fixpoint run (c : config) (ls : list label) : option config :=
  match ls with
  | [] => Some c
  | l :: ls' => c' ← step c l; run c' ls'
  end.

(** The server after its constructor and [start()] (21-42): the parameters
    are read, [running_] is set, [tj_thread_] is about to enter its loop. *)
Definition started (joint_names : list string) (max_velocity : float)
    (q0 qd0 : list float) (smooth kill : bool) : config :=
  mkConfig
    (mkWorld
       (set_running true
          (set_params smooth kill
             (ActionServer_ctor joint_names max_velocity q0 qd0)))
       None [] false)
    (Run (Ret tt)) (Run (Ret tt)) (Run (Ret tt)) (Run (Ret tt)) 0.

Definition reachable (c : config) : Prop :=
  exists joint_names max_velocity q0 qd0 smooth kill ls,
    run (started joint_names max_velocity q0 qd0 smooth kill) ls = Some c.

(** Thread [t] alone, for as long as it can move. *)
Fixpoint run_alone (fuel : nat) (t : tid) (c : config) : config :=
  match fuel with
  | O => c
  | S n =>
      match step c (Step t) with
      | Some c' => run_alone n t c'
      | None => c
      end
  end.

End Threads.

(** [start] (21-42).  [pnh.param(name, var, default)] of the ROS library
    stores in [var] the value the parameter server has for [name], and
    [default] when it has none; the two arguments are what the server has
    for the two names.  The boolean tells whether [tj_thread_] was created
    and [as_.start()] called. *)
Definition start (use_smooth_trajectory kill_on_hang : option bool) (s : server)
    : server * bool :=
  let s := set_params (default (use_smooth_trajectory_ s) use_smooth_trajectory)
                      (default (kill_on_hang_ s) kill_on_hang) s in
  if running_ s then (s, false)
  else (set_running true s, true).

(* ===================================================================== *)
(** ** The telemetry parsers (ur/parser.h) *)
(* ===================================================================== *)

(** What parser.h uses of [BinParser] (bin_parser.h is not among the
    sources): a state [BP] (the buffer and the read position) with
    [peek<int32_t>()], [check_size(n)] and [parse(x)] for the three widths
    read here.  A parsed value comes with the state after it. *)
Class BinParserOps (BP : Type) := {
  peek_int32 : BP -> Z;
  check_size : BP -> Z -> bool;
  parse_int32 : BP -> Z * BP;
  parse_uint8 : BP -> Z * BP;
  parse_uint64 : BP -> Z * BP
}.

(** The enumerators parser.h names; [message_type] and [robot_message_type]
    are [uint8_t] enumerations declared in headers that are not among the
    sources, so a parsed value is the byte and the enumerators are given. *)
Class MessageTypes := {
  ROBOT_STATE : Z;
  ROBOT_MESSAGE : Z;
  ROBOT_MESSAGE_VERSION : Z
}.

(** A packet class: the object [new T] makes and its [parse_with], which
    returns its verdict and leaves the object filled in. *)
Class PacketClass (BP Packet : Type) := {
  new_packet : Packet;
  parse_with : Packet -> BP -> bool * Packet
}.

Section Parsers.

Context {BP Packet : Type} `{BinParserOps BP} `{MessageTypes}.

(** [URStateParser<T>::parse] (10-26). *)
Definition URStateParser_parse (T : PacketClass BP Packet) (bp : BP)
    : option Packet :=
  let '(packet_size, bp) := parse_int32 bp in
  let '(type, bp) := parse_uint8 bp in
  if negb (type =? ROBOT_STATE) then None
  else
    let '(ok, obj) := parse_with new_packet bp in
    if ok then Some obj else None.

(** [URRTStateParser<T>::parse] (32-47). *)
Definition URRTStateParser_parse (T : PacketClass BP Packet) (bp : BP)
    : option Packet :=
  let packet_size := peek_int32 bp in
  if negb (check_size bp packet_size) then None
  else
    let '(packet_size, bp) := parse_int32 bp in
    let '(ok, obj) := parse_with new_packet bp in
    if ok then Some obj else None.

(** [URMessageParser::parse] (51-87); [VersionMessage] is the only class
    the [switch] constructs. *)
Definition URMessageParser_parse (VersionMessage : PacketClass BP Packet)
    (bp : BP) : option Packet :=
  let packet_size := peek_int32 bp in
  if negb (check_size bp packet_size) then None
  else
    let '(packet_size, bp) := parse_int32 bp in
    let '(type, bp) := parse_uint8 bp in
    if negb (type =? ROBOT_MESSAGE) then None
    else
      let '(timestamp, bp) := parse_uint64 bp in
      let '(source, bp) := parse_uint8 bp in
      let '(message_type, bp) := parse_uint8 bp in
      if message_type =? ROBOT_MESSAGE_VERSION then
        let '(ok, vm) := parse_with new_packet bp in
        if ok then Some vm else None
      else None.

End Parsers.

(* ===================================================================== *)
(** ** What the claims about the translation say *)
(* ===================================================================== *)

(** The translated points carry, at every canonical index [c], the goal's
    entries for the joint that the configuration names at [c]. *)
Definition in_canonical_order (s : server) (goal : Goal)
    (pts : list TrajectoryPoint) : Prop :=
  forall (k c : nat) (point : JointTrajectoryPoint) (tp : TrajectoryPoint)
         (name : string),
    points goal !! k = Some point ->
    pts !! k = Some tp ->
    joint_names_ s !! c = Some name ->
    tp_positions tp !! c
      = positions point !! first_index name (joint_names goal) /\
    tp_velocities tp !! c
      = velocities point !! first_index name (joint_names goal).

(** What the loop of lines 315-320 makes of a point: the entries the goal
    has at index [c] are found at the index [reorderMap] gives for [c]. *)
Definition placed (s : server) (goal : Goal) (point : JointTrajectoryPoint)
    (tp : TrajectoryPoint) : Prop :=
  tp_time_from_start tp = convert (time_from_start point) /\
  length (tp_positions tp) = 6%nat /\
  length (tp_velocities tp) = 6%nat /\
  forall (c : nat) (name : string),
    joint_names_ s !! c = Some name ->
    tp_positions tp !! first_index name (joint_names goal) = positions point !! c /\
    tp_velocities tp !! first_index name (joint_names goal) = velocities point !! c.

(** A point with six positions and six velocities. *)
Definition six_values (point : JointTrajectoryPoint) : Prop :=
  length (positions point) = 6%nat /\ length (velocities point) = 6%nat.

(** The nanoseconds of a [ros::Duration]. *)
Definition toNSec (dur : Duration) : Z := d_sec dur * 1000000000 + d_nsec dur.

(** The synthesized first point of line 309. *)
Definition t0_point (s : server) : TrajectoryPoint :=
  mkTP (q_actual_ s) (qd_actual_ s) 0.

(** What [validateTrajectory] tests on a point (188-223): the two sizes,
    finite values, and no velocity above [max_velocity_] (the test of line
    210 negated). *)
Definition point_ok (s : server) (point : JointTrajectoryPoint) : Prop :=
  length (positions point) = length (joint_names_ s) /\
  length (velocities point) = length (joint_names_ s) /\
  Forall (fun p => is_finite p = true) (positions point) /\
  Forall (fun v => is_finite v = true /\ (max_velocity_ s <? abs v)%float = false)
         (velocities point).

(** What [validate] tests on a goal (130-229). *)
Definition admissible (s : server) (gh : GoalHandle) : Prop :=
  state_ s = Running /\
  list_to_set (joint_names (getGoal gh)) = joint_set_ s /\
  (1 <= length (points (getGoal gh)))%nat /\
  Forall (point_ok s) (points (getGoal gh)).



(** The words of the specification about one round of the polling loop:
    the position is within the tolerance of 0.0025 of the last point, the
    speeds are within the threshold of 0.01, some speed is above it. *)
Definition within_tolerance (q goal_positions : list float) : Prop :=
  forall (i : nat) (qi gi : float),
    q !! i = Some qi -> goal_positions !! i = Some gi ->
    (abs (qi - gi) <=? 0.0025)%float = true.

Definition speeds_within (qd : list float) : Prop :=
  forall (i : nat) (v : float), qd !! i = Some v -> (abs v <=? 0.01)%float = true.

Definition some_speed_above (qd : list float) : Prop :=
  Exists (fun v => (0.01 <? abs v)%float = true) qd.

(** The readings of a round are numbers: no speed and no distance from the
    last point is a NaN. *)
Definition readings_are_numbers (back : TrajectoryPoint) (o : poll_obs) : Prop :=
  (forall (i : nat) (qi gi : float),
     ob_q o !! i = Some qi -> tp_positions back !! i = Some gi ->
     is_nan (qi - gi) = false) /\
  Forall (fun v => is_nan v = false) (ob_qd o).

(** The condition of the polling loop (line 362) and the test of line 364,
    on what one round reads. *)
Definition keeps_polling (timeout : Z) (o : poll_obs) : bool :=
  (ob_now o <? timeout) || inMotion (ob_qd_cond o).

Definition at_goal (back : TrajectoryPoint) (o : poll_obs) : bool :=
  reachedGoal (ob_q o) (tp_positions back) && negb (inMotion (ob_qd o)).

(** The calls that give [curr_gh_] a terminal state, counted. *)
Definition is_result_call (o : out) : bool :=
  match o with
  | OnCurr setAccepted => false
  | OnCurr _ => true
  | Out _ => false
  end.

Fixpoint result_calls (outs : list out) : nat :=
  match outs with
  | [] => 0
  | o :: rest => (if is_result_call o then 1 else 0) + result_calls rest
  end.

(** A round of the polling loop, on numbers, that ends nothing: the time
    is not up or some speed is above the threshold, the robot is not at
    rest within tolerance of the last point, and no interrupt is seen. *)
Definition round_short_of_goal (timeout : Z) (back : TrajectoryPoint)
    (o : poll_obs) : Prop :=
  (ob_now o < timeout \/ some_speed_above (ob_qd_cond o)) /\
  readings_are_numbers back o /\
  ~ (within_tolerance (ob_q o) (tp_positions back) /\ speeds_within (ob_qd o)) /\
  ob_interrupt o = false.

(** [res] as [onGoal] hands it to [validate]. *)
Definition onGoal_res : Result := mkResult (-100) "".

(** The release of [tj_mutex_] by the thread that holds it. *)
Definition released (c : config) : config :=
  set_world (set_mutex None (world_of c)) c.

(** The fields of a message as the parsers read them: the message type
    after the packet size, and for a robot message the kind of message and
    the reader state at its payload. *)
Section Fields.

Context {BP : Type} `{BinParserOps BP}.

Definition type_field (bp : BP) : Z :=
  fst (parse_uint8 (snd (parse_int32 bp))).

Definition after_robot_message_header (bp : BP) : Z * BP :=
  let bp := snd (parse_int32 bp) in
  let bp := snd (parse_uint8 bp) in
  let bp := snd (parse_uint64 bp) in
  let bp := snd (parse_uint8 bp) in
  parse_uint8 bp.

End Fields.

(* ===================================================================== *)
(** ** Concrete inputs *)
(* ===================================================================== *)

Module Ex.

Definition ur_joints : list string :=
  ["shoulder_pan_joint"; "shoulder_lift_joint"; "elbow_joint";
   "wrist_1_joint"; "wrist_2_joint"; "wrist_3_joint"]%string.

Definition zeros : list float := replicate 6 0%float.

(** A started server of a robot that reports Running, at rest in the zero
    position, with a velocity limit of 10. *)
Definition srv0 : server :=
  set_state Running
    (set_running true (ActionServer_ctor ur_joints 10%float zeros zeros)).



(** The same with smooth execution and no exit on a hang. *)
Definition srv_no_kill : server := set_params true false srv0.

Definition at_time (sec nsec : Z) (ps vs : list float) : JointTrajectoryPoint :=
  mkJTP ps vs (mkDuration sec nsec).

(** A goal that names the joints in a rotated order: lift, elbow, pan. *)
Definition rotated_names : list string :=
  ["shoulder_lift_joint"; "elbow_joint"; "shoulder_pan_joint";
   "wrist_1_joint"; "wrist_2_joint"; "wrist_3_joint"]%string.

Definition rotated_point : JointTrajectoryPoint :=
  at_time 0 0 [1; 2; 3; 4; 5; 6]%float [0.1; 0.2; 0.3; 0.4; 0.5; 0.6]%float.

Definition rotated_goal : Goal := mkGoal rotated_names [rotated_point].

(** A goal that exchanges the first two joints. *)
Definition swapped_names : list string :=
  ["shoulder_lift_joint"; "shoulder_pan_joint"; "elbow_joint";
   "wrist_1_joint"; "wrist_2_joint"; "wrist_3_joint"]%string.

Definition swapped_goal : Goal := mkGoal swapped_names [rotated_point].

(** A goal that names the first joint twice. *)
Definition doubled_names : list string :=
  ["shoulder_pan_joint"; "shoulder_pan_joint"; "shoulder_lift_joint";
   "elbow_joint"; "wrist_1_joint"; "wrist_2_joint"; "wrist_3_joint"]%string.

Definition doubled_goal : Goal := mkGoal doubled_names [rotated_point].

(** A goal without points. *)
Definition empty_goal : Goal := mkGoal ur_joints [].

(** A goal whose only point lies half a microsecond after the start. *)
Definition half_us_goal : Goal :=
  mkGoal ur_joints [at_time 0 500 zeros zeros].

(** A goal whose only point lies four seconds after the start, one radian
    away on every joint. *)
Definition ones : list float := replicate 6 1%float.

Definition four_s_goal : Goal := mkGoal ur_joints [at_time 4 0 ones zeros].

Definition hold_goal : Goal := mkGoal ur_joints [at_time 4 0 zeros zeros].

(** One round of the polling loop at time [now] (in nanoseconds), with the
    robot away from the goal [ones], at rest or moving. *)
Definition round_at_rest (now : Z) : poll_obs := mkObs now zeros zeros zeros false.

Definition round_moving (now : Z) : poll_obs := mkObs now ones zeros ones false.

(** A stand-in for [std::to_string] and one for the ROS durations (whole
    nanoseconds of [1.5 * 4 s]), for the places that need an instance. *)
Definition to_string (d : float) : string := "10.000000".

Definition Duration_fromSec (d : float) : Z := 6000000000.


(** A server with the given fields and holder of the mutex, the spinner
    and the state thread standing where said, the other threads idle. *)
Definition config_of (s : server) (holder : option tid) (sp st : tstate)
    : config :=
  mkConfig (mkWorld s holder [] false) sp (Run (Ret tt)) st (Run (Ret tt)) 1.

(** The server while it executes [hold_goal]. *)
Definition srv_busy : server :=
  set_has_goal true (set_curr_gh (mkGH 0 hold_goal) srv0).

(** A reader for the examples: the bytes not yet read, integers in network
    byte order, [check_size] comparing its argument as a [size_t]. *)
Definition be (n : nat) (bs : list Z) : Z :=
  foldl (fun acc b => acc * 256 + b) 0 (take n bs).

Definition as_int32 (z : Z) : Z := if z <? 2 ^ 31 then z else z - 2 ^ 32.

#[global] Instance byte_reader : BinParserOps (list Z) := {|
  peek_int32 bs := as_int32 (be 4 bs);
  check_size bs n := (n mod 2 ^ 64 <=? Z.of_nat (length bs));
  parse_int32 bs := (as_int32 (be 4 bs), drop 4 bs);
  parse_uint8 bs := (be 1 bs, drop 1 bs);
  parse_uint64 bs := (be 8 bs, drop 8 bs)
|}.

(** The values the UR controller sends for the three enumerators. *)
#[global] Instance ur_types : MessageTypes := {|
  ROBOT_STATE := 16;
  ROBOT_MESSAGE := 20;
  ROBOT_MESSAGE_VERSION := 3
|}.

(** A packet class that keeps the bytes left and accepts them when there
    are some. *)
Definition rest_packet : PacketClass (list Z) (list Z) := {|
  new_packet := [];
  parse_with _ bs := (negb (length bs =? 0)%nat, bs)
|}.

(** A version message: size 16, type 20, a timestamp, source 0, kind 3 and
    one byte of payload. *)
Definition version_message : list Z :=
  [0; 0; 0; 16; 20; 0; 0; 0; 0; 0; 0; 0; 1; 0; 3; 7].

(** A robot state message that declares 16 bytes and has six. *)
Definition cut_state_message : list Z := [0; 0; 0; 16; 16; 7].

(** A robot message of kind 7, a text message: size 16, type 20, a
    timestamp, source 0, kind 7 and one byte of payload. *)
Definition text_message : list Z :=
  [0; 0; 0; 16; 20; 0; 0; 0; 0; 0; 0; 0; 1; 0; 7; 7].

(** The same bytes cut after the header. *)
Definition cut_message : list Z := take 6 version_message.

End Ex.

(* ===================================================================== *)
(** ** What the claims about the threads say *)
(* ===================================================================== *)

Definition hang_text : string := "Robot has hung. ".
Definition timeout_text : string := "Robot motion timed out or failed to reach goal.".
Definition eviction_text : string := "Received another trajectory".
Definition safety_text : string := "Robot safety stop".

(** The result of a safety stop (67-69). *)
Definition safety_res : Result := mkResult (-100) safety_text.

(** Who may call what on [curr_gh_], and with the mutex held or not: the
    execution thread accepts, succeeds and aborts for a hang or a timeout
    with the mutex held; the spinner evicts; the state thread aborts for a
    safety stop with the mutex held. *)
Definition call_allowed (t : tid) (held : bool) (c : gh_call) : Prop :=
  match c with
  | setAccepted | setSucceeded _ => t = TrajThread /\ held = true
  | setAborted res text =>
      (t = TrajThread /\ held = true /\ (text = hang_text \/ text = timeout_text)) \/
      (t = Spinner /\ text = eviction_text) \/
      (t = StateThread /\ held = true /\ text = safety_text /\ res = safety_res)
  | setRejected _ _ | setCanceled _ => False
  end.

(** Calls on a handle other than [curr_gh_] only reject or cancel. *)
Definition emit_allowed (e : event) : Prop :=
  match e with
  | OnGoalHandle _ (setRejected _ _) | OnGoalHandle _ (setCanceled _) => True
  | OnGoalHandle _ _ => False
  | _ => True
  end.

(** Who may write which field: [curr_gh_], [has_goal_ = true] and
    [interrupt_traj_ = false] belong to the spinner with the mutex held,
    [has_goal_ = false] to the execution thread with the mutex held. *)
Definition write_allowed (t : tid) (held : bool) (f : store) : Prop :=
  match f with
  | St_curr_gh _ | St_has_goal true | St_interrupt_traj false =>
      t = Spinner /\ held = true
  | St_has_goal false => t = TrajThread /\ held = true
  | St_interrupt_traj true => True
  | St_state _ => t = StateThread
  | St_q_actual _ | St_qd_actual _ => t = RTThread
  end.

(** A program of thread [t] that keeps the discipline when started with the
    mutex held ([held = true]) or not: it locks only what it does not hold,
    unlocks and waits only on what it holds, returns without the mutex, and
    writes and calls only what it may. *)
Fixpoint safe {A : Type} (t : tid) (held : bool) (p : prog A) : Prop :=
  match p with
  | Ret _ => held = false
  | Read k => forall s, safe t held (k s)
  | Write f k => write_allowed t held f /\ safe t held k
  | TryLock k => held = false /\ safe t true (k true) /\ safe t false (k false)
  | Lock k => held = false /\ safe t true k
  | Unlock k => held = true /\ safe t false k
  | WaitFor _ k => held = true /\ forall b, safe t true (k b)
  | CallCurr c k => call_allowed t held c /\ safe t held k
  | Emit e k => emit_allowed e /\ safe t held k
  | Ask k => held = true /\ t = TrajThread /\ forall env, safe t held (k env)
  | Halt _ => held = true /\ t = TrajThread
  end.

Definition tsafe (t : tid) (held : bool) (ts : tstate) : Prop :=
  match ts with
  | Run p => safe t held p
  | Waiting _ k | Woken _ _ k => held = false /\ forall b, safe t true (k b)
  | Halted => True
  end.

Definition owns (t : tid) (w : world) : bool :=
  bool_decide (tj_mutex_ w = Some t).

(** Every thread keeps the discipline from where it stands. *)
Definition disciplined (c : config) : Prop :=
  forall t, tsafe t (owns t (world_of c)) (thread t c).

Definition out_allowed (o : out) : Prop :=
  match o with
  | OnCurr c => call_allowed TrajThread true c
  | Out e => emit_allowed e
  end.

(** The number of safety-stop aborts in a trace. *)
Fixpoint safety_aborts (tr : list event) : nat :=
  match tr with
  | [] => 0%nat
  | OnGoalHandle _ (setAborted res text) :: rest =>
      if String.eqb text safety_text then S (safety_aborts rest)
      else safety_aborts rest
  | _ :: rest => safety_aborts rest
  end.

(** In the calls [evs] (the newest first), every acceptance of [B] comes
    after an eviction of [A]. *)
Definition evicted_before_accepted (A B : GoalHandle) (evs : list event) : Prop :=
  forall newer older,
    evs = newer ++ OnGoalHandle (Some B) setAccepted :: older ->
    exists res, In (OnGoalHandle (Some A) (setAborted res eviction_text)) older.


Definition accept_of (B : GoalHandle) : event :=
  OnGoalHandle (Some B) setAccepted.

Definition eviction_of (A : GoalHandle) (res : Result) : event :=
  OnGoalHandle (Some A) (setAborted res eviction_text).

(** The spinner, in [try_execute] for [B], has found the mutex held and has
    not yet made the call of line 248. *)
Definition about_to_evict (B : GoalHandle) (res : Result) (ts : tstate) : Prop :=
  ts = Run (bind (try_execute_contended B res) (onGoal_reject B)) \/
  ts = Run (bind (CallCurr
                    (setAborted (set_error_string eviction_text res) eviction_text)
                    (Lock (Emit (SleepForMs 250)
                             (try_execute_locked B
                                (set_error_string eviction_text res)))))
                 (onGoal_reject B)).

(** Since the trace was [base]: either the eviction of [A] is still to
    come, [A] is in the slot and [B] was not accepted, or [A] was evicted,
    and before any acceptance of [B]. *)
Definition eviction_pending (A B : GoalHandle) (res : Result)
    (base : list event) (c : config) : Prop :=
  exists evs,
    trace (world_of c) = evs ++ base /\
    ((about_to_evict B res (spinner c) /\
      curr_gh_ (srv (world_of c)) = Some A /\
      ~ In (accept_of B) evs) \/
     (evicted_before_accepted A B evs /\
      exists r, In (eviction_of A r) evs)).

(** A label that brings no new goal. *)
Definition no_new_goal (l : label) : Prop :=
  match l with
  | GoalArrives _ => False
  | _ => True
  end.

(** A program that never writes [interrupt_traj_ = false]. *)
Fixpoint no_clear {A : Type} (p : prog A) : Prop :=
  match p with
  | Ret _ | Halt _ => True
  | Read k => forall s, no_clear (k s)
  | Write f k => f <> St_interrupt_traj false /\ no_clear k
  | TryLock k | WaitFor _ k => forall b, no_clear (k b)
  | Lock k | Unlock k | CallCurr _ k | Emit _ k => no_clear k
  | Ask k => forall env, no_clear (k env)
  end.

Definition tno_clear (ts : tstate) : Prop :=
  match ts with
  | Run p => no_clear p
  | Waiting _ k | Woken _ _ k => forall b, no_clear (k b)
  | Halted => True
  end.

(** Where the state thread stands in [onRobotStateChange]: at the call of
    lines 67-70, at the [lock_guard] of line 65, at line 63, at the
    [try_lock] of line 57, at the test of [has_goal_] and at the tests of
    lines 49 and 53. *)
Definition safety_abort_call : prog unit :=
  CallCurr (setAborted safety_res safety_text) (Unlock (Ret tt)).

Definition safety_blocked : prog unit := Lock safety_abort_call.

Definition safety_interrupt : prog unit :=
  Write (St_interrupt_traj true) safety_blocked.

Definition safety_try_lock : prog unit :=
  TryLock (fun locked => if locked then Unlock (Ret tt) else safety_interrupt).

Definition safety_has_goal : prog unit :=
  Read (fun s => if negb (has_goal_ s) then Ret tt else safety_try_lock).

Definition safety_checks (state : RobotState) : prog unit :=
  if RobotState_eqb state Running then Ret tt
  else Read (fun s => if interrupt_traj_ s then Ret tt else safety_has_goal).

(** The state thread has not tested [interrupt_traj_] in this call, or is
    past the call on [curr_gh_]. *)
Definition before_test (ts : tstate) : Prop :=
  (exists state, ts = Run (onRobotStateChange state)) \/
  (exists state, ts = Run (safety_checks state)) \/
  ts = Run (Unlock (Ret tt)) \/
  ts = Run (Ret tt).

(** It has found [interrupt_traj_] unset and has not set it yet. *)
Definition passed_test (ts : tstate) : Prop :=
  ts = Run safety_has_goal \/ ts = Run safety_try_lock \/ ts = Run safety_interrupt.

(** It has set [interrupt_traj_] and has not yet aborted. *)
Definition armed (ts : tstate) : Prop :=
  ts = Run safety_blocked \/ ts = Run safety_abort_call.

(** Since the trace was [base]: at most one safety stop was sent, and after
    it [interrupt_traj_] has stayed set. *)
Definition one_safety_stop (base : list event) (c : config) : Prop :=
  exists n : nat,
    safety_aborts (trace (world_of c)) = (safety_aborts base + n)%nat /\
    tno_clear (spinner c) /\
    ((before_test (state_thread c) /\ (n <= 1)%nat /\
      (n = 1%nat -> interrupt_traj_ (srv (world_of c)) = true)) \/
     (passed_test (state_thread c) /\ n = 0%nat) \/
     (armed (state_thread c) /\ n = 0%nat /\
      interrupt_traj_ (srv (world_of c)) = true)).

(** The thread a label moves. *)
Definition label_tid (l : label) : tid :=
  match l with
  | Step t | Answer t _ | Wake t _ => t
  | GoalArrives _ | CancelArrives _ => Spinner
  | StateChanges _ => StateThread
  | Telemetry _ _ => RTThread
  | NextTurn => TrajThread
  end.

Section Positions.

Variable Duration_fromSec : float -> Z.

(** The execution thread is executing a goal: it stands between the
    [setAccepted] of line 290 and the [has_goal_ = false] of lines 390 and
    426 (or the end of the process). *)
Definition executing (c : config) : Prop :=
  tj_thread_ c = Run (turn_woken Duration_fromSec true) \/
  tj_thread_ c = Run (Read (fun s => Ask (turn_execute Duration_fromSec s))) \/
  (exists s, tj_thread_ c = Run (Ask (turn_execute Duration_fromSec s))) \/
  (exists outs fin, tj_thread_ c = Run (do_all outs (goal_done fin))).

(** The spinner stands in the part of [try_execute] marked "locked here"
    (253-257), where it fills the slot of the current goal. *)
Definition admitting (c : config) : Prop :=
  exists gh res,
    spinner c = Run (bind (try_execute_locked gh res) (onGoal_reject gh)) \/
    spinner c = Run (bind (Write (St_interrupt_traj false)
                             (Write (St_has_goal true)
                                (Unlock (Emit NotifyOne (Ret (true, res))))))
                          (onGoal_reject gh)) \/
    spinner c = Run (bind (Write (St_has_goal true)
                             (Unlock (Emit NotifyOne (Ret (true, res)))))
                          (onGoal_reject gh)) \/
    spinner c = Run (bind (Unlock (Emit NotifyOne (Ret (true, res))))
                          (onGoal_reject gh)).

End Positions.

(** Whether [curr_gh_] refers to a goal. *)
Definition slot_set (s : server) : bool :=
  match curr_gh_ s with
  | Some _ => true
  | None => false
  end.

(** A program that sets [has_goal_], and accepts what [curr_gh_] holds,
    only where [curr_gh_] refers to a goal; [set] tells whether it does
    where the program stands.  A wait ends with [true] only when [has_goal_]
    is set. *)
Fixpoint fills_first {A : Type} (set : bool) (p : prog A) : Prop :=
  match p with
  | Ret _ => True
  | Read k => forall s, fills_first set (k s)
  | Write (St_curr_gh _) k => fills_first true k
  | Write (St_has_goal true) k => set = true /\ fills_first set k
  | Write _ k => fills_first set k
  | TryLock k => forall b, fills_first set (k b)
  | Lock k => fills_first set k
  | Unlock k => fills_first set k
  | WaitFor pred k =>
      (forall s, pred s = true -> has_goal_ s = true) /\
      fills_first true (k true) /\ fills_first set (k false)
  | CallCurr setAccepted k => set = true /\ fills_first set k
  | CallCurr _ k => fills_first set k
  | Emit e k => e <> OnGoalHandle None setAccepted /\ fills_first set k
  | Ask k => forall env, fills_first set (k env)
  | Halt _ => True
  end.

Definition tfills (set : bool) (ts : tstate) : Prop :=
  match ts with
  | Run p => fills_first set p
  | Waiting pred k | Woken _ pred k =>
      (forall s, pred s = true -> has_goal_ s = true) /\
      fills_first true (k true) /\ fills_first set (k false)
  | Halted => True
  end.

(** [has_goal_] is set only with a goal in [curr_gh_], every thread keeps
    it so from where it stands, and no empty handle was accepted. *)
Definition slot_filled (c : config) : Prop :=
  (has_goal_ (srv (world_of c)) = true -> slot_set (srv (world_of c)) = true) /\
  (forall t, tfills (slot_set (srv (world_of c))) (thread t c)) /\
  ~ In (OnGoalHandle None setAccepted) (trace (world_of c)).

Section Turn.

Variable Duration_fromSec : float -> Z.

(** The condition of the wait of line 285. *)
Definition goal_present (s : server) : bool := running_ s && has_goal_ s.

(** Where [tj_thread_] can stand: outside a turn, at the lock or in the
    wait of line 285, at the [continue] of line 286, or in the execution of
    a goal; there, from the read of the goal on, [curr_gh_] refers to a
    goal, and it is the one the thread has read. *)
Definition tj_position (c : config) : Prop :=
  let ts := tj_thread_ c in
  let s := srv (world_of c) in
  ts = Run (Ret tt) \/ ts = Halted \/
  ts = Run (trajectoryThread_turn Duration_fromSec) \/
  ts = Run (WaitFor goal_present (turn_woken Duration_fromSec)) \/
  ts = Waiting goal_present (turn_woken Duration_fromSec) \/
  (exists timed_out,
     ts = Woken timed_out goal_present (turn_woken Duration_fromSec)) \/
  ts = Run (Unlock (Ret tt)) \/
  ts = Run (turn_woken Duration_fromSec true) \/
  (ts = Run (Read (fun s => Ask (turn_execute Duration_fromSec s))) /\
   slot_set s = true) \/
  (exists s', ts = Run (Ask (turn_execute Duration_fromSec s')) /\
              curr_gh_ s' = curr_gh_ s /\ slot_set s = true) \/
  (exists outs fin, ts = Run (do_all outs (goal_done fin))).

End Turn.

(** A run for the examples: the robot reports Running, the goal [A] of four
    seconds is admitted and its execution begins, the goal [B] arrives and
    the spinner reaches [try_lock]; then [A] is evicted, the execution
    thread leaves the polling loop on the interrupt and releases the mutex,
    [B] is stored and accepted. *)
Module Run.

Definition A : GoalHandle := mkGH 0 Ex.four_s_goal.
Definition B : GoalHandle := mkGH 1 Ex.hold_goal.

Definition c0 : config := started Ex.ur_joints 10%float Ex.zeros Ex.zeros true true.

Definition interrupted_round : poll_obs :=
  mkObs 1000000000 Ex.zeros Ex.zeros Ex.zeros true.

Definition to_try_lock : list label :=
  [StateChanges Running; Step StateThread;
   NextTurn; Step TrajThread; Step TrajThread;
   GoalArrives Ex.four_s_goal;
   Step Spinner; Step Spinner; Step Spinner; Step Spinner; Step Spinner;
   Step Spinner; Step Spinner; Step Spinner;
   Wake TrajThread false; Step TrajThread; Step TrajThread; Step TrajThread;
   Step TrajThread; Answer TrajThread (mkEnv true false 0 [interrupted_round]);
   Step TrajThread;
   GoalArrives Ex.hold_goal; Step Spinner; Step Spinner].

Definition after_try_lock : list label :=
  [Step Spinner; Step Spinner;
   Step TrajThread; Step TrajThread; Step TrajThread; Step TrajThread;
   Step Spinner; Step Spinner; Step Spinner; Step Spinner; Step Spinner;
   Step Spinner; Step Spinner;
   NextTurn; Step TrajThread; Step TrajThread; Step TrajThread].

Definition at_try_lock : config :=
  default c0 (run Ex.to_string Ex.Duration_fromSec c0 to_try_lock).

Definition since_try_lock : list event :=
  [accept_of B; NotifyOne; SleepForMs 250; FollowerStop;
   RosSleep (4 * 0.1)%float;
   eviction_of A (mkResult INVALID_GOAL eviction_text)].

(** The first part of that run, up to the execution of [A]; and two
    notifications of a stopped robot during it, the second after the thread
    has released the mutex and the first was served. *)
Definition to_executing : list label := take 21 to_try_lock.

Definition executing_A : config :=
  default c0 (run Ex.to_string Ex.Duration_fromSec c0 to_executing).

(** The state after the first [n] steps of that run. *)
Definition after (n : nat) : config :=
  default c0 (run Ex.to_string Ex.Duration_fromSec c0 (take n to_try_lock)).

(** The same run up to the step in which the spinner, admitting [B],
    clears [interrupt_traj_]. *)
Definition to_clear : list label :=
  to_try_lock ++ Step Spinner :: take 9 after_try_lock.

Definition before_clear : config :=
  default c0 (run Ex.to_string Ex.Duration_fromSec c0 to_clear).

Definition two_stops : list label :=
  [StateChanges ProtectiveStopped;
   Step StateThread; Step StateThread; Step StateThread; Step StateThread;
   Step StateThread;
   Step TrajThread; Step TrajThread; Step TrajThread; Step TrajThread;
   Step StateThread; Step StateThread; Step StateThread;
   StateChanges EmergencyStopped; Step StateThread; Step StateThread].

End Run.

(* ===================================================================== *)
(** ** "Not above" and "at most" on binary64 *)
(* ===================================================================== *)

Lemma SFcompare_antisym (x y : SpecFloat.spec_float) :
  SpecFloat.SFcompare y x = option_map CompOpp (SpecFloat.SFcompare x y).
Proof.
  destruct x as [sx|sx| |sx mx ex], y as [sy|sy| |sy my ey]; simpl;
    try reflexivity; try (destruct sx; reflexivity);
    try (destruct sy; reflexivity); try (destruct sx, sy; reflexivity).
  destruct sx, sy; simpl; try reflexivity.
  - pose proof (Pos.compare_cont_antisym mx my Eq) as Ha. simpl in Ha.
    rewrite (Z.compare_antisym ex ey). destruct (ex ?= ey); simpl; try reflexivity.
    rewrite <- Ha. destruct (Pos.compare_cont Eq mx my); reflexivity.
  - pose proof (Pos.compare_cont_antisym mx my Eq) as Ha. simpl in Ha.
    rewrite (Z.compare_antisym ex ey). destruct (ex ?= ey); simpl; try reflexivity.
    rewrite <- Ha. reflexivity.
Qed.

Lemma SFltb_false_SFleb (x y : SpecFloat.spec_float) :
  x <> SpecFloat.S754_nan -> y <> SpecFloat.S754_nan ->
  SpecFloat.SFltb y x = false -> SpecFloat.SFleb x y = true.
Proof.
  intros Hx Hy. unfold SpecFloat.SFltb, SpecFloat.SFleb.
  rewrite (SFcompare_antisym x y).
  destruct (SpecFloat.SFcompare x y) as [[]|] eqn:Hc; simpl;
    try reflexivity; try discriminate.
  intros _. destruct x, y; simpl in Hc; try discriminate; congruence.
Qed.


(** A float that is not a NaN. *)
Lemma Prim2SF_number (x : float) :
  is_nan x = false -> FloatOps.Prim2SF x <> SpecFloat.S754_nan.
Proof.
  intros H. unfold FloatOps.Prim2SF. rewrite H.
  destruct (PrimFloat.is_zero x); [discriminate|].
  destruct (PrimFloat.is_infinity x); [discriminate|].
  destruct (FloatOps.Z.frexp x) as [r e].
  destruct (SpecFloat.shr_fexp _ _ _ _ _) as [shr e'].
  destruct (SpecFloat.shr_m shr); discriminate.
Qed.

Lemma SFabs_number (x : SpecFloat.spec_float) :
  x <> SpecFloat.S754_nan -> SpecFloat.SFabs x <> SpecFloat.S754_nan.
Proof. destruct x; simpl; congruence. Qed.

(** The test [fabs(v) > m] of the source fails on numbers exactly when
    [fabs(v) <= m]. *)
Lemma not_above_is_at_most (m v : float) :
  is_nan m = false -> is_nan v = false ->
  (m <? abs v)%float = false -> (abs v <=? m)%float = true.
Proof.
  intros Hm Hv.
  rewrite FloatAxioms.ltb_spec, FloatAxioms.leb_spec, FloatAxioms.abs_spec.
  apply SFltb_false_SFleb.
  - apply SFabs_number, Prim2SF_number, Hv.
  - apply Prim2SF_number, Hm.
Qed.



(* ===================================================================== *)
(** ** The translation of a goal *)
(* ===================================================================== *)

(** C1 (code defect): for a goal that names the joints in the rotated order
    lift, elbow, pan, the translated point has the elbow's position 2 and
    velocity 0.2 at canonical index 0, where the configuration names the pan
    joint, whose entries in the goal are 3 and 0.3: the loop writes
    [pos[mapping[i]] = positions[i]], which is the canonical order only
    when the permutation is its own inverse. *)
Theorem rotated_goal_not_in_canonical_order :
  reorderMap Ex.srv0 Ex.rotated_names = [2; 0; 1; 3; 4; 5]%nat /\
  translate_goal Ex.srv0 Ex.rotated_goal
    = Some [mkTP [2; 3; 1; 4; 5; 6]%float [0.2; 0.3; 0.1; 0.4; 0.5; 0.6]%float 0] /\
  positions Ex.rotated_point !! first_index "shoulder_pan_joint" Ex.rotated_names
    = Some 3%float /\
  ~ in_canonical_order Ex.srv0 Ex.rotated_goal
      [mkTP [2; 3; 1; 4; 5; 6]%float [0.2; 0.3; 0.1; 0.4; 0.5; 0.6]%float 0].
Proof.
  split; [reflexivity|]. split; [vm_compute; reflexivity|].
  split; [reflexivity|].
  intros Hc.
  destruct (Hc 0%nat 0%nat Ex.rotated_point
              (mkTP [2; 3; 1; 4; 5; 6]%float [0.2; 0.3; 0.1; 0.4; 0.5; 0.6]%float 0)
              "shoulder_pan_joint"%string eq_refl eq_refl eq_refl) as [Hp _].
  vm_compute in Hp. discriminate Hp.
Qed.

(** C9 (code defect): a goal that names the first joint twice passes
    [validate], since the names are compared as sets; [reorderMap] then
    answers 6 for the last joint, and the write [pos[6]] of line 318 lies
    outside the array. *)
Theorem doubled_goal_index_out_of_range (to_string : float -> string)
    (Duration_fromSec : float -> Z) (env : goal_env) :
  validate to_string Ex.srv0 (mkGH 0 Ex.doubled_goal) onGoal_res
    = (true, mkResult INVALID_GOAL "") /\
  reorderMap Ex.srv0 Ex.doubled_names = [0; 2; 3; 4; 5; 6]%nat /\
  translate_point (reorderMap Ex.srv0 Ex.doubled_names) Ex.rotated_point = None /\
  trajectoryThread_goal Duration_fromSec
      (set_curr_gh (mkGH 0 Ex.doubled_goal) Ex.srv0) env
    = ([], UndefinedBehaviour).
Proof.
  split; [vm_compute; reflexivity|].
  split; [reflexivity|].
  split; reflexivity.
Qed.

Lemma convert_pos_iff (dur : Duration) :
  0 < convert dur <-> 1000 <= toNSec dur.
Proof.
  unfold convert, toNSec.
  set (a := d_sec dur * 1000000000 + d_nsec dur).
  split.
  - intros Hq. destruct (Z_lt_le_dec a 1000) as [Hlt|]; [|assumption].
    exfalso. destruct (Z_lt_le_dec a 0) as [Hneg|Hnn].
    + assert (0 <= Z.quot (- a) 1000) by (apply Z.quot_pos; lia).
      rewrite Z.quot_opp_l in * by lia. lia.
    + rewrite Z.quot_small in Hq by lia. lia.
  - intros Hle. apply Z.quot_str_pos. lia.
Qed.

(** C6 (amended): when the translation is defined, the trajectory handed to
    the follower is the translated points of the goal, one for one, with
    exactly one point [(q_actual_, qd_actual_, 0)] in front when the first
    point's [time_from_start] is at least one microsecond, and with nothing
    in front otherwise (whatever the first point's position is). *)
Theorem t0_inserted_iff_a_microsecond (s : server) (goal : Goal)
    (fp : JointTrajectoryPoint) (trajectory : list TrajectoryPoint) :
  points goal !! 0%nat = Some fp ->
  translate_goal s goal = Some trajectory ->
  exists pts,
    mapM (translate_point (reorderMap s (joint_names goal))) (points goal)
      = Some pts /\
    length pts = length (points goal) /\
    trajectory
      = (if decide (1000 <= toNSec (time_from_start fp))
         then [t0_point s] else []) ++ pts.
Proof.
  intros Hfp Ht. unfold translate_goal in Ht. rewrite Hfp in Ht. simpl in Ht.
  destruct (mapM _ (points goal)) as [pts|] eqn:Hpts; [|discriminate].
  simpl in Ht. exists pts. split; [reflexivity|].
  split; [symmetry; eapply length_mapM; eassumption|].
  injection Ht as <-. f_equal.
  destruct (decide (1000 <= toNSec (time_from_start fp))) as [Hge|Hlt].
  - apply convert_pos_iff in Hge. apply Z.ltb_lt in Hge. rewrite Hge. reflexivity.
  - destruct (0 <? convert (time_from_start fp)) eqn:Hc; [|reflexivity].
    apply Z.ltb_lt, convert_pos_iff in Hc. contradiction.
Qed.

Lemma t0_inserted_witness :
  exists pts,
    mapM (translate_point (reorderMap Ex.srv0 Ex.ur_joints)) (points Ex.four_s_goal)
      = Some pts /\
    length pts = 1%nat /\
    [mkTP Ex.zeros Ex.zeros 0; mkTP Ex.ones Ex.zeros 4000000]
      = [t0_point Ex.srv0] ++ pts.
Proof.
  exact (t0_inserted_iff_a_microsecond Ex.srv0 Ex.four_s_goal
           (Ex.at_time 4 0 Ex.ones Ex.zeros)
           [mkTP Ex.zeros Ex.zeros 0; mkTP Ex.ones Ex.zeros 4000000]
           eq_refl eq_refl).
Defined.

(** C6 (counterexample): the only point of the goal lies 500 ns after the
    start, which is strictly after zero, and nothing is put in front of
    it. *)
Lemma half_microsecond_no_t0 :
  points Ex.half_us_goal !! 0%nat = Some (Ex.at_time 0 500 Ex.zeros Ex.zeros) /\
  0 < toNSec (time_from_start (Ex.at_time 0 500 Ex.zeros Ex.zeros)) /\
  translate_goal Ex.srv0 Ex.half_us_goal = Some [mkTP Ex.zeros Ex.zeros 0].
Proof. split; [reflexivity|]. split; [reflexivity|]. reflexivity. Qed.

(* ===================================================================== *)
(** ** Validation *)
(* ===================================================================== *)

Section ValidationFacts.

Variable to_string : float -> string.

Lemma check_velocities_None (m : float) (vs : list float) :
  check_velocities to_string m vs = None <->
  Forall (fun v => is_finite v = true /\ (m <? abs v)%float = false) vs.
Proof.
  induction vs as [|v vs IH]; simpl.
  - split; [constructor|reflexivity].
  - destruct (is_finite v) eqn:Hf; simpl.
    + destruct (m <? abs v)%float eqn:Hv.
      * split; [discriminate|]. intros HF. inversion HF as [|? ? [_ Hv'] _]; subst.
        congruence.
      * rewrite IH. split.
        -- intros HF. constructor; [split; assumption|assumption].
        -- intros HF. inversion HF; assumption.
    + split; [discriminate|]. intros HF. inversion HF as [|? ? [Hf' _] _]; subst.
      congruence.
Qed.

Lemma check_positions_None (ps : list float) :
  check_positions ps = None <-> Forall (fun p => is_finite p = true) ps.
Proof.
  induction ps as [|p ps IH]; simpl.
  - split; [constructor|reflexivity].
  - destruct (is_finite p) eqn:Hf; simpl.
    + rewrite IH. split.
      * intros HF. constructor; assumption.
      * intros HF. inversion HF; assumption.
    + split; [discriminate|]. intros HF. inversion HF as [|? ? Hf' _]; subst.
      congruence.
Qed.

(** The loop over the points either passes every point and leaves [res]
    alone, or stops at the first point that fails a check. *)
Lemma check_points_true (s : server) (pts : list JointTrajectoryPoint)
    (res : Result) :
  Forall (point_ok s) pts -> check_points to_string s pts res = (true, res).
Proof.
  induction 1 as [|point pts (Hp & Hv & Hfp & Hfv) _ IH]; simpl; [reflexivity|].
  rewrite Hv, Hp, !Nat.eqb_refl. simpl.
  apply check_velocities_None in Hfv. rewrite Hfv.
  apply check_positions_None in Hfp. rewrite Hfp.
  exact IH.
Qed.

Lemma check_points_spec (s : server) (pts : list JointTrajectoryPoint)
    (res : Result) :
  fst (check_points to_string s pts res) = true <-> Forall (point_ok s) pts.
Proof.
  split; [|intros HF; rewrite check_points_true by assumption; reflexivity].
  induction pts as [|point pts IH]; simpl; [constructor|].
  destruct (length (velocities point) =? length (joint_names_ s))%nat eqn:Hv;
    simpl; [|discriminate].
  destruct (length (positions point) =? length (joint_names_ s))%nat eqn:Hp;
    simpl; [|discriminate].
  destruct (check_velocities _ _ _) eqn:Hcv; simpl; [discriminate|].
  destruct (check_positions _) eqn:Hcp; simpl; [discriminate|].
  intros Hrest. constructor; [|apply IH; assumption].
  repeat split.
  - apply Nat.eqb_eq; assumption.
  - apply Nat.eqb_eq; assumption.
  - apply check_positions_None; assumption.
  - apply check_velocities_None in Hcv; assumption.
Qed.

(** Every message of the loop over the points is one of the five of the
    source, and none is empty. *)
Lemma check_velocities_message (m : float) (vs : list float) (msg : string) :
  check_velocities to_string m vs = Some msg ->
  msg = "Received a goal with infinities or NaNs in velocity"%string \/
  msg = ("Received a goal with velocities that are higher than max_velocity_ "
         +:+ to_string m)%string.
Proof.
  induction vs as [|v vs IH]; simpl; [discriminate|].
  destruct (is_finite v); simpl; [|intros [= <-]; left; reflexivity].
  destruct (m <? abs v)%float; [intros [= <-]; right; reflexivity|exact IH].
Qed.

Lemma check_positions_message (ps : list float) (msg : string) :
  check_positions ps = Some msg ->
  msg = "Received a goal with infinities or NaNs in positions"%string.
Proof.
  induction ps as [|p ps IH]; simpl; [discriminate|].
  destruct (is_finite p); simpl; [exact IH|intros [= <-]; reflexivity].
Qed.


Lemma validateState_spec (s : server) (res : Result) :
  fst (validateState s res) = true <-> state_ s = Running.
Proof.
  unfold validateState. destruct (state_ s); simpl; split;
    intros; try reflexivity; try discriminate.
Qed.

Lemma validateState_res (s : server) (res : Result) :
  error_code (snd (validateState s res)) = error_code res /\
  (fst (validateState s res) = true -> snd (validateState s res) = res).
Proof. unfold validateState. destruct (state_ s); simpl; split; auto; discriminate. Qed.

Lemma validateJoints_spec (s : server) (gh : GoalHandle) (res : Result) :
  fst (validateJoints s gh res) = true <->
  list_to_set (joint_names (getGoal gh)) = joint_set_ s.
Proof.
  unfold validateJoints.
  destruct (bool_decide_reflect
              (list_to_set (joint_names (getGoal gh)) = joint_set_ s));
    simpl; split; intros; try reflexivity; try discriminate; try assumption.
  contradiction.
Qed.

Lemma validateJoints_res (s : server) (gh : GoalHandle) (res : Result) :
  (fst (validateJoints s gh res) = true -> snd (validateJoints s gh res) = res) /\
  (fst (validateJoints s gh res) = false ->
   error_code (snd (validateJoints s gh res)) = INVALID_JOINTS).
Proof.
  unfold validateJoints.
  destruct (bool_decide _); simpl; split; intros; try reflexivity; discriminate.
Qed.

Lemma validateTrajectory_spec (s : server) (gh : GoalHandle) (res : Result) :
  fst (validateTrajectory to_string s gh res) = true <->
  (1 <= length (points (getGoal gh)))%nat /\
  Forall (point_ok s) (points (getGoal gh)).
Proof.
  unfold validateTrajectory.
  destruct (length (points (getGoal gh)) <? 1)%nat eqn:Hlen; simpl.
  - apply Nat.ltb_lt in Hlen. split; [discriminate|]. intros [Hge _]. lia.
  - apply Nat.ltb_ge in Hlen. rewrite check_points_spec. tauto.
Qed.


(** [validate] passes exactly the admissible goals. *)
Lemma validate_spec (s : server) (gh : GoalHandle) (res : Result) :
  fst (validate to_string s gh res) = true <-> admissible s gh.
Proof.
  unfold validate, admissible.
  pose proof (validateState_spec s res) as HS.
  destruct (validateState s res) as [ok1 res1]; simpl in HS.
  destruct ok1; simpl.
  2:{ split; [discriminate|]. intros [Hr _]. apply HS in Hr. discriminate. }
  pose proof (validateJoints_spec s gh res1) as HJ.
  destruct (validateJoints s gh res1) as [ok2 res2]; simpl in HJ.
  destruct ok2; simpl.
  2:{ split; [discriminate|]. intros (_ & Hj & _). apply HJ in Hj. discriminate. }
  rewrite validateTrajectory_spec.
  split.
  - intros [Hl Hp]. repeat split; [apply HS|apply HJ| |]; auto.
  - intros (_ & _ & Hl & Hp). auto.
Qed.




End ValidationFacts.

Section OnGoal.

Variable to_string : float -> string.
Variable Duration_fromSec : float -> Z.

Lemma validate_true_res (s : server) (gh : GoalHandle) (res : Result) :
  fst (validate to_string s gh res) = true ->
  validate to_string s gh res = (true, set_error_code INVALID_GOAL res).
Proof.
  unfold validate.
  pose proof (validateState_res s res) as [_ HSr].
  destruct (validateState s res) as [[] res1]; simpl in *; [|discriminate].
  specialize (HSr eq_refl). subst res1.
  pose proof (validateJoints_res s gh res) as [HJr _].
  destruct (validateJoints s gh res) as [[] res2]; simpl in *; [|discriminate].
  specialize (HJr eq_refl). subst res2.
  unfold validateTrajectory.
  destruct (length (points (getGoal gh)) <? 1)%nat; simpl; [discriminate|].
  intros Hc. apply check_points_spec in Hc.
  apply check_points_true. assumption.
Qed.



End OnGoal.



Section Messages.

Variable to_string : float -> string.
Variable Duration_fromSec : float -> Z.

Lemma append_joints_cons (a : ascii) (acc : string) (js : list string) :
  append_joints (String a acc) js = String a (append_joints acc js).
Proof.
  revert acc. induction js as [|j js IH]; intros acc; simpl; [reflexivity|].
  apply IH.
Qed.

Lemma append_joints_nonempty (acc : string) (js : list string) :
  acc <> "" -> append_joints acc js <> "".
Proof.
  destruct acc as [|a acc]; [congruence|]. intros _.
  rewrite append_joints_cons. discriminate.
Qed.

Lemma app_nonempty_l (a b : string) : a <> "" -> a +:+ b <> "".
Proof.
  destruct a as [|x a]; [congruence|]. intros _.
  change (String x a +:+ b) with (String x (a +:+ b)). discriminate.
Qed.

Lemma app_nonempty_r (a b : string) : b <> "" -> a +:+ b <> "".
Proof.
  intros Hb. destruct a as [|x a]; [exact Hb|].
  change (String x a +:+ b) with (String x (a +:+ b)). discriminate.
Qed.

(** A rejection by [validate] carries a message, unless the check that
    fails is the one of line 184 (a trajectory without points), which
    returns before any message is set. *)
Lemma validate_message (s : server) (gh : GoalHandle) :
  fst (validate to_string s gh onGoal_res) = false ->
  state_ s <> Running \/
  list_to_set (joint_names (getGoal gh)) <> joint_set_ s \/
  points (getGoal gh) <> [] ->
  error_string (snd (validate to_string s gh onGoal_res)) <> "".
Proof.
  unfold validate, onGoal_res.
  pose proof (validateState_spec s (mkResult (-100) "")) as HS.
  unfold validateState in *. destruct (state_ s) eqn:Hst; simpl in *;
    try (intros _ _; discriminate).
  pose proof (validateJoints_spec s gh (mkResult (-100) "")) as HJ.
  unfold validateJoints in *.
  destruct (bool_decide _) eqn:Hbd; simpl in *.
  2:{ intros _ _. apply append_joints_nonempty, app_nonempty_l,
        append_joints_nonempty, app_nonempty_r. discriminate. }
  unfold validateTrajectory.
  destruct (points (getGoal gh)) as [|point0 pts0] eqn:Hpts.
  { simpl. intros _ [Hn|[Hn|Hn]]; exfalso;
      [apply Hn; reflexivity|apply Hn, HJ; reflexivity|apply Hn; reflexivity]. }
  remember (point0 :: pts0) as pts eqn:Hl.
  assert (Hlen : (length pts <? 1)%nat = false) by (subst pts; reflexivity).
  rewrite Hlen. intros Hf _. revert Hf. clear.
  induction pts as [|point pts IH]; simpl; [discriminate|].
  destruct (length (velocities point) =? length (joint_names_ s))%nat;
    simpl; [|intros _; discriminate].
  destruct (length (positions point) =? length (joint_names_ s))%nat;
    simpl; [|intros _; discriminate].
  destruct (check_velocities _ _ _) as [msg|] eqn:Hcv; simpl.
  { intros _. apply check_velocities_message in Hcv as [->| ->];
      [discriminate|apply app_nonempty_l; discriminate]. }
  destruct (check_positions _) as [msg|] eqn:Hcp; simpl.
  { intros _. apply check_positions_message in Hcp as ->. discriminate. }
  exact IH.
Qed.

(** C8 (code defect): a goal with the right joint names and no points, sent
    to a started server of a running robot, is rejected with INVALID_GOAL
    and the empty string as its message: line 185 returns before a message
    is set, where every other check sets one. *)
Theorem empty_trajectory_rejected_without_message :
  validate to_string Ex.srv0 (mkGH 0 Ex.empty_goal) onGoal_res
    = (false, mkResult INVALID_GOAL "") /\
  run_alone to_string Duration_fromSec 16 Spinner
    (mkConfig (mkWorld Ex.srv0 None [] false)
       (Run (onGoal to_string (mkGH 0 Ex.empty_goal)))
       (Run (Ret tt)) (Run (Ret tt)) (Run (Ret tt)) 1)
  = mkConfig
      (mkWorld Ex.srv0 None
         [OnGoalHandle (Some (mkGH 0 Ex.empty_goal))
            (setRejected (mkResult INVALID_GOAL "") "")] false)
      (Run (Ret tt)) (Run (Ret tt)) (Run (Ret tt)) (Run (Ret tt)) 1.
Proof.
  split; [vm_compute; reflexivity|].
  vm_compute. reflexivity.
Qed.

End Messages.

(* ===================================================================== *)
(** ** The execution of a goal *)
(* ===================================================================== *)

(** C4 (code defect): smooth mode, no exit on a hang, a goal of four
    seconds.  The follower returns false, the goal is aborted with "Robot
    has hung. ", and the thread goes on into the polling loop of the same
    goal, where the first round (0.4 s after the start, before the timeout
    of 6 s) finds the robot at rest at the final waypoint and reports
    Succeeded.  The timed branch ends the goal in the [else] of line 409;
    the smooth branch has no [else] after the test of line 335. *)
Theorem hang_then_succeeded_in_smooth_mode :
  trajectoryThread_goal Ex.Duration_fromSec
    (set_curr_gh (mkGH 0 Ex.hold_goal) Ex.srv_no_kill)
    (mkEnv false false 0 [mkObs 400000000 Ex.zeros Ex.zeros Ex.zeros false])
  = ([Out (StartSmoothTrajectory
             [mkTP Ex.zeros Ex.zeros 0; mkTP Ex.zeros Ex.zeros 4000000]);
      OnCurr (setAborted (mkResult (-100) "Robot has hung. ") "Robot has hung. ");
      Out (RosSleep (4 * 0.1)%float);
      OnCurr (setSucceeded (mkResult SUCCESSFUL "Robot has hung. "));
      Out FollowerStop],
     Released).
Proof. vm_compute. reflexivity. Qed.

(** The timed branch ends the goal at a hang: the abort is its last call on
    the goal handle. *)
Lemma timed_branch_hang (s : server) (env : goal_env)
    (trajectory : list TrajectoryPoint) (res : Result) :
  follower_returns env = false ->
  timed_branch s env trajectory res
  = ([Out (StartTimedTrajectory trajectory);
      OnCurr (setAborted (hang_res res) "Robot has hung. ")]
     ++ (if kill_on_hang_ s then [Out (RosSleep 0.25); Out (ProcessExit 0)] else []),
     if kill_on_hang_ s then Exited else Released).
Proof.
  intros Hf. unfold timed_branch. rewrite Hf.
  destruct (kill_on_hang_ s); reflexivity.
Qed.

Section Polling.

Variable Duration_fromSec : float -> Z.

(** While the rounds find the loop condition true, the goal not reached at
    rest and no interrupt, the loop only sleeps. *)
Lemma poll_loop_app (timeout : Z) (back : TrajectoryPoint) (res : Result)
    (pre rest : list poll_obs) :
  Forall (fun o => keeps_polling timeout o = true /\ at_goal back o = false /\
                   ob_interrupt o = false) pre ->
  poll_loop timeout back res (pre ++ rest)
  = (let '(outs, res', r) := poll_loop timeout back res rest in
     (replicate (length pre) (Out (Usleep 1000)) ++ outs, res', r)).
Proof.
  induction 1 as [|o pre (Hk & Hg & Hi) _ IH]; simpl.
  - destruct (poll_loop timeout back res rest) as [[outs res'] r]. reflexivity.
  - unfold keeps_polling, at_goal in Hk, Hg. rewrite Hk, Hg, Hi, IH.
    destruct (poll_loop timeout back res rest) as [[outs res'] r]. reflexivity.
Qed.

(** A robot that is reported in motion in every loop condition, and never
    at rest at the goal, keeps the loop turning for as many rounds as there
    are, whatever the clock says. *)
Lemma poll_loop_in_motion (timeout : Z) (back : TrajectoryPoint) (res : Result)
    (obs : list poll_obs) :
  Forall (fun o => inMotion (ob_qd_cond o) = true /\ at_goal back o = false /\
                   ob_interrupt o = false) obs ->
  poll_loop timeout back res obs
  = (replicate (length obs) (Out (Usleep 1000)), res, None).
Proof.
  intros HF. rewrite <- (app_nil_r obs) at 1. rewrite poll_loop_app.
  - simpl. rewrite app_nil_r. reflexivity.
  - eapply Forall_impl; [exact HF|]. intros o (Hm & Hg & Hi).
    unfold keeps_polling. rewrite Hm, orb_true_r. auto.
Qed.

(** The tests of the source and the words of the specification, on
    numbers. *)
Lemma reachedGoal_within (q g : list float) :
  (forall i qi gi, q !! i = Some qi -> g !! i = Some gi -> is_nan (qi - gi) = false) ->
  reachedGoal q g = true -> within_tolerance q g.
Proof.
  revert g. induction q as [|x q IH]; intros g Hnum Hr i qi gi Hq Hg;
    [discriminate|].
  destruct g as [|y g]; [discriminate|]. simpl in Hr.
  destruct (tolerance <? abs (x - y))%float eqn:Ht; [discriminate|].
  destruct i as [|i]; simpl in Hq, Hg.
  - injection Hq as <-. injection Hg as <-.
    apply (not_above_is_at_most tolerance (x - y)); [reflexivity| |exact Ht].
    apply (Hnum 0%nat); reflexivity.
  - apply (IH g (fun j => Hnum (S j)) Hr i); assumption.
Qed.

Lemma inMotion_false_speeds_within (qd : list float) :
  Forall (fun v => is_nan v = false) qd ->
  inMotion qd = false -> speeds_within qd.
Proof.
  induction 1 as [|x qd Hx _ IH]; intros Hm i v Hv; [discriminate|].
  simpl in Hm. destruct (0.01 <? abs x)%float eqn:Ht; [discriminate|].
  destruct i as [|i]; simpl in Hv.
  - injection Hv as <-. apply not_above_is_at_most; [reflexivity|exact Hx|exact Ht].
  - apply (IH Hm i). exact Hv.
Qed.

Lemma inMotion_some_speed_above (qd : list float) :
  inMotion qd = true <-> some_speed_above qd.
Proof.
  unfold some_speed_above. induction qd as [|x qd IH]; simpl.
  - split; [discriminate|]. intros H. inversion H.
  - destruct (0.01 <? abs x)%float eqn:Ht.
    + split; [|reflexivity]. intros _. apply Exists_cons_hd. exact Ht.
    + rewrite IH. split.
      * intros H. apply Exists_cons_tl. exact H.
      * intros H. inversion H as [? ? Hx|? ? Hq]; subst; [congruence|exact Hq].
Qed.

(** A round that ends nothing in the words of the specification ends
    nothing in the loop of lines 362-380. *)
Lemma round_short_of_goal_goes_on (timeout : Z) (back : TrajectoryPoint)
    (o : poll_obs) :
  round_short_of_goal timeout back o ->
  keeps_polling timeout o = true /\ at_goal back o = false /\
  ob_interrupt o = false.
Proof.
  intros (Hcond & [Hq Hqd] & Hnot & Hi). split; [|split; [|exact Hi]].
  - unfold keeps_polling. destruct Hcond as [Hlt|Hs].
    + apply Z.ltb_lt in Hlt. rewrite Hlt. reflexivity.
    + apply inMotion_some_speed_above in Hs. rewrite Hs. apply orb_true_r.
  - unfold at_goal.
    destruct (reachedGoal (ob_q o) (tp_positions back)) eqn:Hr; [|reflexivity].
    destruct (inMotion (ob_qd o)) eqn:Hm; [reflexivity|].
    exfalso. apply Hnot. split.
    + apply reachedGoal_within; assumption.
    + apply inMotion_false_speeds_within; assumption.
Qed.

(** C5 (amended): smooth mode, the follower has returned true, the
    readings are numbers.  If no round finds the robot within the
    tolerance of 0.0025 of the final waypoint with every speed within 0.01,
    and none finds the interrupt flag set, the goal is aborted with the
    timeout message at the first round whose clock has reached
    [now + Duration(1.5 * t)] and in which no speed is above 0.01; as long
    as the clock is before that time or a speed above 0.01 is reported the
    loop goes on, past that time too. *)
Theorem smooth_timeout_at_first_round_at_rest (s : server) (env : goal_env)
    (trajectory : list TrajectoryPoint) (back : TrajectoryPoint) (t : float)
    (res : Result) (pre : list poll_obs) (o : poll_obs) (post : list poll_obs) :
  follower_returns env = true ->
  polls env = pre ++ o :: post ->
  let timeout := now_at_start env + Duration_fromSec (t * 1.5)%float in
  Forall (round_short_of_goal timeout back) pre ->
  timeout <= ob_now o ->
  ~ some_speed_above (ob_qd_cond o) ->
  smooth_branch Duration_fromSec s env trajectory back t res
  = ([Out (StartSmoothTrajectory trajectory); Out (RosSleep (t * 0.1)%float)]
     ++ replicate (length pre) (Out (Usleep 1000))
     ++ [OnCurr (setAborted
                   (mkResult (-100) "Robot motion timed out or failed to reach goal.")
                   "Robot motion timed out or failed to reach goal.");
         Out FollowerStop],
     Released).
Proof.
  intros Hf Hp timeout Hpre Hnow Hrest.
  assert (Hpre' : Forall (fun o' => keeps_polling timeout o' = true /\
                                    at_goal back o' = false /\
                                    ob_interrupt o' = false) pre).
  { eapply Forall_impl; [exact Hpre|]. intros o'. apply round_short_of_goal_goes_on. }
  assert (Hstill : inMotion (ob_qd_cond o) = false).
  { destruct (inMotion (ob_qd_cond o)) eqn:Hm; [|reflexivity].
    exfalso. apply Hrest, inMotion_some_speed_above, Hm. }
  unfold smooth_branch. rewrite Hf, Hp. simpl negb. cbv iota. simpl andb. cbv iota.
  fold timeout. rewrite poll_loop_app by exact Hpre'.
  simpl poll_loop.
  assert (Hlt : (ob_now o <? timeout) = false) by (apply Z.ltb_ge; exact Hnow).
  rewrite Hlt, Hstill. simpl. rewrite app_nil_r. reflexivity.
Qed.

End Polling.

(** The distances of the examples are numbers. *)
Lemma examples_are_numbers (q : list float) :
  q = Ex.zeros \/ q = Ex.ones ->
  forall (i : nat) (qi gi : float),
    q !! i = Some qi -> Ex.ones !! i = Some gi -> is_nan (qi - gi) = false.
Proof.
  intros Hq i qi gi Hqi Hgi.
  destruct Hq as [-> | ->];
    do 6 (destruct i as [|i];
          [injection Hqi as <-; injection Hgi as <-; reflexivity|]);
    discriminate.
Qed.

Lemma smooth_timeout_witness :
  smooth_branch Ex.Duration_fromSec Ex.srv0
    (mkEnv true false 0
       [Ex.round_at_rest 1000000000; Ex.round_moving 6000000000;
        Ex.round_at_rest 6001000000])
    [mkTP Ex.zeros Ex.zeros 0; mkTP Ex.ones Ex.zeros 4000000]
    (mkTP Ex.ones Ex.zeros 4000000) 4%float (mkResult 0 "")
  = ([Out (StartSmoothTrajectory
             [mkTP Ex.zeros Ex.zeros 0; mkTP Ex.ones Ex.zeros 4000000]);
      Out (RosSleep (4 * 0.1)%float)]
     ++ replicate 2 (Out (Usleep 1000))
     ++ [OnCurr (setAborted
                   (mkResult (-100) "Robot motion timed out or failed to reach goal.")
                   "Robot motion timed out or failed to reach goal.");
         Out FollowerStop],
     Released).
Proof.
  apply (smooth_timeout_at_first_round_at_rest Ex.Duration_fromSec Ex.srv0
           (mkEnv true false 0
              [Ex.round_at_rest 1000000000; Ex.round_moving 6000000000;
               Ex.round_at_rest 6001000000])
           [mkTP Ex.zeros Ex.zeros 0; mkTP Ex.ones Ex.zeros 4000000]
           (mkTP Ex.ones Ex.zeros 4000000) 4%float (mkResult 0 "")
           [Ex.round_at_rest 1000000000; Ex.round_moving 6000000000]
           (Ex.round_at_rest 6001000000) []).
  - reflexivity.
  - reflexivity.
  - constructor; [|constructor; [|constructor]].
    + split; [left; reflexivity|]. split; [|split; [|reflexivity]].
      * split; [apply examples_are_numbers; left; reflexivity|repeat constructor].
      * intros [Hw _]. specialize (Hw 0%nat 0%float 1%float eq_refl eq_refl).
        vm_compute in Hw. discriminate Hw.
    + split; [right; apply Exists_cons_hd; reflexivity|].
      split; [|split; [|reflexivity]].
      * split; [apply examples_are_numbers; left; reflexivity|repeat constructor].
      * intros [Hw _]. specialize (Hw 0%nat 0%float 1%float eq_refl eq_refl).
        vm_compute in Hw. discriminate Hw.
  - vm_compute. discriminate.
  - intros Hs. apply Exists_exists in Hs as (v & Hin & Hv).
    apply elem_of_replicate in Hin as [-> _]. vm_compute in Hv. discriminate Hv.
Defined.

(** C5 (counterexample): a goal of four seconds in smooth mode, the timeout
    six seconds after the start.  Three rounds at 100 s find the robot a
    radian away from the goal on every joint and moving at 1 rad/s: the
    loop sleeps three times and is still turning, no abort is sent. *)
Lemma moving_robot_is_not_timed_out :
  Forall (fun o => ~ (within_tolerance (ob_q o) Ex.ones /\ speeds_within (ob_qd o)))
         (replicate 3 (Ex.round_moving 100000000000)) /\
  0 + Ex.Duration_fromSec (4 * 1.5)%float <= 100000000000 /\
  trajectoryThread_goal Ex.Duration_fromSec
    (set_curr_gh (mkGH 0 Ex.four_s_goal) Ex.srv0)
    (mkEnv true false 0 (replicate 3 (Ex.round_moving 100000000000)))
  = ([Out (StartSmoothTrajectory
             [mkTP Ex.zeros Ex.zeros 0; mkTP Ex.ones Ex.zeros 4000000]);
      Out (RosSleep (4 * 0.1)%float);
      Out (Usleep 1000); Out (Usleep 1000); Out (Usleep 1000)],
     StillPolling).
Proof.
  split.
  { repeat constructor; intros [Hw _];
      specialize (Hw 0%nat 0%float 1%float eq_refl eq_refl);
      vm_compute in Hw; discriminate Hw. }
  split; [vm_compute; discriminate|].
  vm_compute. reflexivity.
Qed.

(* ===================================================================== *)
(** ** The parsers *)
(* ===================================================================== *)

Section ParserFacts.

Context {BP Packet : Type} `{BinParserOps BP} `{MessageTypes}.
Variables T VersionMessage : PacketClass BP Packet.

Lemma URStateParser_wrong_type (bp : BP) :
  type_field bp <> ROBOT_STATE -> URStateParser_parse T bp = None.
Proof.
  unfold type_field, URStateParser_parse.
  destruct (parse_int32 bp) as [packet_size bp1]. simpl.
  destruct (parse_uint8 bp1) as [type bp2]. simpl.
  intros Hne. apply Z.eqb_neq in Hne. rewrite Hne. reflexivity.
Qed.

Lemma URRTStateParser_short (bp : BP) :
  check_size bp (peek_int32 bp) = false -> URRTStateParser_parse T bp = None.
Proof. unfold URRTStateParser_parse. intros ->. reflexivity. Qed.

Lemma URMessageParser_short (bp : BP) :
  check_size bp (peek_int32 bp) = false ->
  URMessageParser_parse VersionMessage bp = None.
Proof. unfold URMessageParser_parse. intros ->. reflexivity. Qed.

Lemma URMessageParser_some (bp : BP) (pkt : Packet) :
  URMessageParser_parse VersionMessage bp = Some pkt ->
  check_size bp (peek_int32 bp) = true /\
  type_field bp = ROBOT_MESSAGE /\
  fst (after_robot_message_header bp) = ROBOT_MESSAGE_VERSION /\
  parse_with new_packet (snd (after_robot_message_header bp)) = (true, pkt).
Proof.
  unfold URMessageParser_parse, type_field, after_robot_message_header.
  destruct (check_size bp (peek_int32 bp)); simpl; [|discriminate].
  destruct (parse_int32 bp) as [packet_size bp1]. simpl.
  destruct (parse_uint8 bp1) as [type bp2]. simpl.
  destruct (type =? ROBOT_MESSAGE) eqn:Ht; simpl; [|discriminate].
  destruct (parse_uint64 bp2) as [timestamp bp3]. simpl.
  destruct (parse_uint8 bp3) as [source bp4]. simpl.
  destruct (parse_uint8 bp4) as [message_type bp5]. simpl.
  destruct (message_type =? ROBOT_MESSAGE_VERSION) eqn:Hm; [|discriminate].
  destruct (parse_with new_packet bp5) as [ok vm]. destruct ok; [|discriminate].
  intros [= ->]. apply Z.eqb_eq in Ht, Hm. auto.
Qed.

(** C10: [URStateParser::parse] returns the null pointer when the type
    field is not ROBOT_STATE; [URRTStateParser::parse] and
    [URMessageParser::parse] return it when [check_size] finds the buffer
    shorter than the packet size it declares; and a packet returned by
    [URMessageParser::parse] comes from a buffer that is long enough, has
    the type ROBOT_MESSAGE and the kind ROBOT_MESSAGE_VERSION, and is the
    version message whose [parse_with] returned true on the payload. *)
Theorem parsers_yield_nothing_from_malformed_input :
  (forall bp, type_field bp <> ROBOT_STATE -> URStateParser_parse T bp = None) /\
  (forall bp, check_size bp (peek_int32 bp) = false ->
              URRTStateParser_parse T bp = None) /\
  (forall bp, check_size bp (peek_int32 bp) = false ->
              URMessageParser_parse VersionMessage bp = None) /\
  (forall bp pkt,
     URMessageParser_parse VersionMessage bp = Some pkt ->
     check_size bp (peek_int32 bp) = true /\
     type_field bp = ROBOT_MESSAGE /\
     fst (after_robot_message_header bp) = ROBOT_MESSAGE_VERSION /\
     parse_with new_packet (snd (after_robot_message_header bp)) = (true, pkt)).
Proof.
  split; [exact URStateParser_wrong_type|].
  split; [exact URRTStateParser_short|].
  split; [exact URMessageParser_short|].
  exact URMessageParser_some.
Qed.

End ParserFacts.

Lemma parsers_witness :
  URStateParser_parse Ex.rest_packet Ex.version_message = None /\
  URRTStateParser_parse Ex.rest_packet Ex.cut_message = None /\
  URMessageParser_parse Ex.rest_packet Ex.cut_message = None /\
  URMessageParser_parse Ex.rest_packet Ex.version_message = Some [7] /\
  type_field Ex.version_message = ROBOT_MESSAGE.
Proof.
  destruct (parsers_yield_nothing_from_malformed_input
              (H := Ex.byte_reader) (H0 := Ex.ur_types)
              Ex.rest_packet Ex.rest_packet) as (H1 & H2 & H3 & H4).
  split; [apply H1; vm_compute; discriminate|].
  split; [apply H2; reflexivity|].
  split; [apply H3; reflexivity|].
  split; [reflexivity|].
  exact (proj1 (proj2 (H4 Ex.version_message [7] eq_refl))).
Defined.

(* ===================================================================== *)
(** ** The threads keep the discipline *)
(* ===================================================================== *)

Lemma thread_set_thread (t u : tid) (ts : tstate) (c : config) :
  thread u (set_thread t ts c) = if decide (u = t) then ts else thread u c.
Proof. destruct t, u; reflexivity. Qed.

Lemma world_of_set_thread (t : tid) (ts : tstate) (c : config) :
  world_of (set_thread t ts c) = world_of c.
Proof. destruct t; reflexivity. Qed.

Lemma thread_set_world (t : tid) (w : world) (c : config) :
  thread t (set_world w c) = thread t c.
Proof. destruct t; reflexivity. Qed.

Lemma idle_inv (ts : tstate) : idle ts = true -> exists a, ts = Run (Ret a).
Proof.
  destruct ts as [p| | |]; try discriminate.
  destruct p; try discriminate. intros _. eexists. reflexivity.
Qed.

Ltac allowed :=
  repeat match goal with
         | |- Forall _ [] => apply Forall_nil
         | |- Forall _ (_ :: _) => apply Forall_cons
         | |- Forall _ (_ ++ _) => apply Forall_app
         | |- _ /\ _ => split
         | |- True => exact I
         | |- _ \/ _ => first [left; solve [allowed] | right; solve [allowed]]
         | |- _ => assumption
         | |- _ => reflexivity
         | |- _ => progress simpl
         end.

Lemma safe_do_all (t : tid) (outs : list out) (k : prog unit) :
  t = TrajThread ->
  Forall out_allowed outs -> safe t true k -> safe t true (do_all outs k).
Proof.
  intros -> HF Hk. induction HF as [|o outs Ho _ IH]; simpl; [exact Hk|].
  destruct o as [c|e]; simpl; split; assumption.
Qed.

Lemma poll_loop_allowed (timeout : Z) (back : TrajectoryPoint) (res : Result)
    (obs : list poll_obs) :
  Forall out_allowed (fst (fst (poll_loop timeout back res obs))).
Proof.
  induction obs as [|o obs IH]; simpl; [constructor|].
  destruct ((ob_now o <? timeout) || inMotion (ob_qd_cond o)); simpl; [|constructor].
  destruct (reachedGoal _ _ && negb _); simpl.
  { allowed. }
  destruct (ob_interrupt o); simpl; [constructor|].
  destruct (poll_loop timeout back res obs) as [[outs res'] r]. simpl in *.
  constructor; [exact I|exact IH].
Qed.

Section Discipline.

Variable to_string : float -> string.
Variable Duration_fromSec : float -> Z.

Lemma smooth_branch_allowed (s : server) (env : goal_env)
    (trajectory : list TrajectoryPoint) (back : TrajectoryPoint) (t : float)
    (res : Result) :
  Forall out_allowed (fst (smooth_branch Duration_fromSec s env trajectory back t res)).
Proof.
  unfold smooth_branch.
  assert (Habort : Forall out_allowed
            (if negb (follower_returns env)
             then [OnCurr (setAborted
                             (if negb (follower_returns env) then hang_res res else res)
                             (error_string
                                (if negb (follower_returns env) then hang_res res else res)))]
             else [])).
  { destruct (follower_returns env); simpl; allowed. }
  destruct (negb (follower_returns env) && kill_on_hang_ s); simpl.
  { allowed. }
  pose proof (poll_loop_allowed
                (now_at_start env + Duration_fromSec (t * 1.5)%float) back
                (if negb (follower_returns env) then hang_res res else res)
                (polls env)) as Hp.
  destruct (poll_loop _ _ _ _) as [[outs res'] [timed_out|]]; simpl in *.
  - destruct timed_out; allowed.
  - allowed.
Qed.

Lemma timed_branch_allowed (s : server) (env : goal_env)
    (trajectory : list TrajectoryPoint) (res : Result) :
  Forall out_allowed (fst (timed_branch s env trajectory res)).
Proof.
  unfold timed_branch. destruct (follower_returns env); simpl.
  - destruct (interrupt_after env); simpl; allowed.
  - destruct (kill_on_hang_ s); simpl; allowed.
Qed.

Lemma trajectoryThread_goal_allowed (s : server) (env : goal_env) :
  Forall out_allowed (fst (trajectoryThread_goal Duration_fromSec s env)).
Proof.
  unfold trajectoryThread_goal.
  destruct (curr_gh_ s) as [gh|]; [|constructor].
  destruct (translate_goal s (getGoal gh)) as [trajectory|]; [|constructor].
  destruct (last trajectory) as [back|]; [|constructor].
  destruct (use_smooth_trajectory_ s).
  - apply smooth_branch_allowed.
  - apply timed_branch_allowed.
Qed.

Lemma safe_goal_done (fin : thread_end) : safe TrajThread true (goal_done fin).
Proof. destruct fin; simpl; allowed. Qed.

Lemma safe_turn_woken (b : bool) :
  safe TrajThread true (turn_woken Duration_fromSec b).
Proof.
  destruct b; simpl; [|auto].
  split; [auto|]. intros s. split; [reflexivity|]. split; [reflexivity|].
  intros env. unfold turn_execute.
  apply safe_do_all; [reflexivity|apply trajectoryThread_goal_allowed|apply safe_goal_done].
Qed.

Lemma safe_trajectoryThread_turn :
  safe TrajThread false (trajectoryThread_turn Duration_fromSec).
Proof.
  simpl. split; [reflexivity|]. split; [reflexivity|]. apply safe_turn_woken.
Qed.

Lemma safe_onGoal (gh : GoalHandle) : safe Spinner false (onGoal to_string gh).
Proof.
  unfold onGoal. simpl. intros s.
  destruct (validate to_string s gh _) as [[] res]; simpl.
  - intros s'. destruct (running_ s'); simpl; allowed.
  - allowed.
Qed.

Lemma safe_onCancel (gh : GoalHandle) : safe Spinner false (onCancel gh).
Proof. simpl. allowed. Qed.

Lemma safe_onRobotStateChange (state : RobotState) :
  safe StateThread false (onRobotStateChange state).
Proof.
  unfold onRobotStateChange. simpl. split; [reflexivity|].
  destruct (RobotState_eqb state Running); simpl; [reflexivity|].
  intros s. destruct (interrupt_traj_ s); simpl; [reflexivity|].
  intros s'. destruct (has_goal_ s'); simpl; [|reflexivity].
  allowed.
Qed.

Lemma safe_updateState (q qd : list float) :
  safe RTThread false (bind (updateState q qd) (fun _ => Ret tt)).
Proof. simpl. allowed. Qed.

End Discipline.

Lemma owns_true (t : tid) (w : world) : owns t w = true <-> tj_mutex_ w = Some t.
Proof. unfold owns. apply bool_decide_eq_true. Qed.

Lemma owns_free (t : tid) (w : world) : tj_mutex_ w = None -> owns t w = false.
Proof. unfold owns. intros ->. reflexivity. Qed.

Lemma owns_other (t u : tid) (w : world) :
  owns t w = true -> u <> t -> owns u w = false.
Proof.
  intros Ht Hne. apply owns_true in Ht. unfold owns. rewrite Ht.
  apply bool_decide_eq_false. congruence.
Qed.

Lemma owns_set_mutex_self (t : tid) (w : world) :
  owns t (set_mutex (Some t) w) = true.
Proof. apply owns_true. reflexivity. Qed.

Lemma owns_set_mutex_other (t u : tid) (w : world) :
  u <> t -> owns u (set_mutex (Some t) w) = false.
Proof. intros Hne. apply bool_decide_eq_false. simpl. congruence. Qed.

(** A step of a thread that keeps the discipline leaves it keeping the
    discipline, and changes nothing about what the other threads own. *)
Lemma step_thread_safe (t : tid) (ts ts' : tstate) (w w' : world) :
  tsafe t (owns t w) ts ->
  step_thread t ts w = Some (ts', w') ->
  tsafe t (owns t w') ts' /\ forall u, u <> t -> owns u w' = owns u w.
Proof.
  destruct ts as [p|pred k|timed_out pred k|]; simpl; try discriminate.
  - destruct p as [a|k|f k|k|k|k|pred k|c k|e k|k|fin]; simpl;
      try discriminate.
    + intros Hs [= <- <-]. split; [apply Hs|reflexivity].
    + intros [_ Hs] [= <- <-]. split; [exact Hs|reflexivity].
    + intros (Hh & Ht & Hf). destruct (tj_mutex_ w) eqn:Hm; intros [= <- <-].
      * rewrite Hh. split; [exact Hf|reflexivity].
      * rewrite owns_set_mutex_self. split; [exact Ht|].
        intros u Hne. rewrite owns_set_mutex_other by exact Hne.
        symmetry. apply owns_free. exact Hm.
    + intros (Hh & Hk). destruct (tj_mutex_ w) eqn:Hm; [discriminate|].
      intros [= <- <-]. rewrite owns_set_mutex_self. split; [exact Hk|].
      intros u Hne. rewrite owns_set_mutex_other by exact Hne.
      symmetry. apply owns_free. exact Hm.
    + intros (Hh & Hk) [= <- <-]. split.
      * rewrite owns_free by reflexivity. exact Hk.
      * intros u Hne. rewrite owns_free by reflexivity.
        symmetry. eapply owns_other; eassumption.
    + intros (Hh & Hk). destruct (pred (srv w)); intros [= <- <-].
      * rewrite Hh. split; [apply Hk|reflexivity].
      * simpl. rewrite owns_free by reflexivity. split; [split; [reflexivity|exact Hk]|].
        intros u Hne. rewrite owns_free by reflexivity.
        symmetry. eapply owns_other; eassumption.
    + intros [_ Hs] [= <- <-]. split; [exact Hs|reflexivity].
    + intros [_ Hs] [= <- <-]. split; [exact Hs|reflexivity].
    + intros _ [= <- <-]. split; [exact I|]. intros u _.
      destruct (ends_process fin); reflexivity.
  - intros (Hh & Hk). destruct (tj_mutex_ w) eqn:Hm; [discriminate|].
    intros [= <- <-]. rewrite owns_set_mutex_self. split.
    + destruct timed_out; simpl; [apply Hk|]. split; [reflexivity|exact Hk].
    + intros u Hne. rewrite owns_set_mutex_other by exact Hne.
      symmetry. apply owns_free. exact Hm.
Qed.

Section Invariant.

Variable to_string : float -> string.
Variable Duration_fromSec : float -> Z.

Lemma disciplined_new_handler (t : tid) (p : prog unit) (c : config) :
  disciplined c -> idle (thread t c) = true -> safe t false p ->
  disciplined (set_thread t (Run p) c).
Proof.
  intros Hd Hi Hp u. rewrite thread_set_thread, world_of_set_thread.
  destruct (decide (u = t)) as [->|Hne]; [|apply Hd].
  apply idle_inv in Hi as [a Hi]. specialize (Hd t). rewrite Hi in Hd.
  simpl in Hd. rewrite Hd. exact Hp.
Qed.

Lemma step_disciplined (c c' : config) (l : label) :
  disciplined c -> step to_string Duration_fromSec c l = Some c' -> disciplined c'.
Proof.
  intros Hd. unfold step. destruct (exited (world_of c)); [discriminate|].
  destruct l as [t|t env|t timed_out|goal|gh|state|q qd|].
  - destruct (step_thread t (thread t c) (world_of c)) as [[ts w]|] eqn:Hst;
      [|discriminate].
    simpl. intros [= <-].
    destruct (step_thread_safe t _ _ _ _ (Hd t) Hst) as [Hts Hothers].
    intros u. rewrite thread_set_thread, world_of_set_thread. simpl.
    destruct (decide (u = t)) as [->|Hne]; [exact Hts|].
    rewrite thread_set_world, Hothers by exact Hne. apply Hd.
  - destruct (thread t c) as [p| | |] eqn:Ht; try discriminate.
    destruct p; try discriminate. intros [= <-].
    intros u. rewrite thread_set_thread, world_of_set_thread.
    destruct (decide (u = t)) as [->|Hne]; [|apply Hd].
    specialize (Hd t). rewrite Ht in Hd. simpl in Hd. apply Hd.
  - destruct (thread t c) as [|pred k| |] eqn:Ht; try discriminate.
    intros [= <-].
    intros u. rewrite thread_set_thread, world_of_set_thread.
    destruct (decide (u = t)) as [->|Hne]; [|apply Hd].
    specialize (Hd t). rewrite Ht in Hd. exact Hd.
  - destruct (idle (spinner c)) eqn:Hi; [|discriminate]. intros [= <-].
    pose proof (disciplined_new_handler Spinner
                  (onGoal to_string (mkGH (next_gh c) goal)) c Hd Hi
                  (safe_onGoal to_string _)) as Hn.
    intros u. specialize (Hn u). destruct u; exact Hn.
  - destruct (idle (spinner c)) eqn:Hi; [|discriminate]. intros [= <-].
    exact (disciplined_new_handler Spinner (onCancel gh) c Hd Hi (safe_onCancel gh)).
  - destruct (idle (state_thread c)) eqn:Hi; [|discriminate]. intros [= <-].
    exact (disciplined_new_handler StateThread (onRobotStateChange state) c Hd Hi
             (safe_onRobotStateChange state)).
  - destruct (idle (rt_thread c)) eqn:Hi; [|discriminate]. intros [= <-].
    exact (disciplined_new_handler RTThread _ c Hd Hi (safe_updateState q qd)).
  - destruct (idle (tj_thread_ c)) eqn:Hi; [|discriminate]. intros [= <-].
    destruct (running_ (srv (world_of c))).
    + exact (disciplined_new_handler TrajThread _ c Hd Hi
               (safe_trajectoryThread_turn Duration_fromSec)).
    + intros u. pose proof (Hd u) as Hu. destruct u; simpl in *; auto.
Qed.

Lemma run_disciplined (ls : list label) (c c' : config) :
  disciplined c -> run to_string Duration_fromSec c ls = Some c' -> disciplined c'.
Proof.
  revert c. induction ls as [|l ls IH]; simpl; intros c Hd.
  - intros [= <-]. exact Hd.
  - destruct (step to_string Duration_fromSec c l) as [c1|] eqn:Hs; [|discriminate].
    simpl. apply IH. eapply step_disciplined; eassumption.
Qed.

Lemma reachable_disciplined (c : config) :
  reachable to_string Duration_fromSec c -> disciplined c.
Proof.
  intros (names & mv & q0 & qd0 & smooth & kill & ls & Hrun).
  eapply run_disciplined; [|exact Hrun].
  intros t. destruct t; reflexivity.
Qed.

End Invariant.

(* ===================================================================== *)
(** ** One current goal *)
(* ===================================================================== *)

Lemma safe_do_all_held (held : bool) (outs : list out) (fin : thread_end) :
  safe TrajThread held (do_all outs (goal_done fin)) -> held = true.
Proof.
  induction outs as [|o outs IH]; simpl.
  - destruct fin; simpl; intros H; apply H.
  - destruct o as [c|e]; simpl; intros [Hc Hk]; [|exact (IH Hk)].
    destruct c; simpl in Hc; try tauto.
    all: destruct Hc as [(_ & -> & _)|[(Hne & _)|(Hne & _)]];
      [reflexivity|discriminate|discriminate].
Qed.

(** What a step does to the fields of the server: [curr_gh_] changes only
    under the spinner's hand, and then the spinner holds the mutex. *)
Lemma step_thread_curr_gh (t : tid) (ts ts' : tstate) (w w' : world) :
  tsafe t (owns t w) ts ->
  step_thread t ts w = Some (ts', w') ->
  curr_gh_ (srv w') = curr_gh_ (srv w) \/ (t = Spinner /\ owns Spinner w = true).
Proof.
  destruct ts as [p|pred k|timed_out pred k|]; simpl; try discriminate.
  - destruct p as [a|k|f k|k|k|k|pred k|c k|e k|k|fin]; simpl;
      try discriminate.
    + intros _ [= <- <-]. left. reflexivity.
    + intros [Hw _] [= <- <-]. destruct f as [st|b|b|gh|q|qd]; simpl in *;
        try (left; reflexivity).
      right. destruct Hw as [-> Hh]. auto.
    + intros _. destruct (tj_mutex_ w); intros [= <- <-]; left; reflexivity.
    + intros _. destruct (tj_mutex_ w); [discriminate|].
      intros [= <- <-]. left. reflexivity.
    + intros _ [= <- <-]. left. reflexivity.
    + intros _. destruct (pred (srv w)); intros [= <- <-]; left; reflexivity.
    + intros _ [= <- <-]. left. reflexivity.
    + intros _ [= <- <-]. left. reflexivity.
    + intros _ [= <- <-]. left. destruct (ends_process fin); reflexivity.
  - intros _. destruct (tj_mutex_ w); [discriminate|].
    intros [= <- <-]. left. reflexivity.
Qed.

Section OneGoal.

Variable to_string : float -> string.
Variable Duration_fromSec : float -> Z.

Lemma step_curr_gh (c c' : config) (l : label) :
  disciplined c ->
  step to_string Duration_fromSec c l = Some c' ->
  curr_gh_ (srv (world_of c')) = curr_gh_ (srv (world_of c)) \/
  (l = Step Spinner /\ owns Spinner (world_of c) = true).
Proof.
  intros Hd. unfold step. destruct (exited (world_of c)); [discriminate|].
  destruct l as [t|t env|t timed_out|goal|gh|state|q qd|].
  - destruct (step_thread t (thread t c) (world_of c)) as [[ts w]|] eqn:Hst;
      [|discriminate].
    simpl. intros [= <-]. rewrite world_of_set_thread. simpl.
    destruct (step_thread_curr_gh t _ _ _ _ (Hd t) Hst) as [He|[-> Ho]]; auto.
  - destruct (thread t c) as [p| | |]; try discriminate.
    destruct p; try discriminate. intros [= <-].
    rewrite world_of_set_thread. left. reflexivity.
  - destruct (thread t c) as [|pred k| |]; try discriminate. intros [= <-].
    rewrite world_of_set_thread. left. reflexivity.
  - destruct (idle (spinner c)); [|discriminate]. intros [= <-]. left. reflexivity.
  - destruct (idle (spinner c)); [|discriminate]. intros [= <-]. left. reflexivity.
  - destruct (idle (state_thread c)); [|discriminate]. intros [= <-]. left. reflexivity.
  - destruct (idle (rt_thread c)); [|discriminate]. intros [= <-]. left. reflexivity.
  - destruct (idle (tj_thread_ c)); [|discriminate]. intros [= <-]. left. reflexivity.
Qed.

(** While a goal is executed the execution thread holds the mutex. *)
Lemma executing_owns (c : config) :
  disciplined c -> executing Duration_fromSec c -> owns TrajThread (world_of c) = true.
Proof.
  intros Hd. specialize (Hd TrajThread). simpl in Hd.
  intros [He|[He|[[s He]|(outs & fin & He)]]]; rewrite He in Hd; simpl in Hd.
  - destruct Hd as [[_ H] _]. exact H.
  - destruct (Hd (ActionServer_ctor [] 0%float [] [])) as [H _]. exact H.
  - destruct Hd as [H _]. exact H.
  - eapply safe_do_all_held. exact Hd.
Qed.

(** While the spinner fills the slot of the current goal it holds the
    mutex. *)
Lemma admitting_owns (c : config) :
  disciplined c -> admitting c -> owns Spinner (world_of c) = true.
Proof.
  intros Hd. specialize (Hd Spinner). simpl in Hd.
  intros (gh & res & [He|[He|[He|He]]]); rewrite He in Hd; simpl in Hd;
    tauto.
Qed.

End OneGoal.

(* ===================================================================== *)
(** ** Eviction before acceptance *)
(* ===================================================================== *)

(** A step adds at most one call to the trace: a call on what [curr_gh_]
    holds, or a call that neither accepts nor aborts. *)
Lemma step_thread_trace (t : tid) (held : bool) (ts ts' : tstate) (w w' : world) :
  tsafe t held ts ->
  step_thread t ts w = Some (ts', w') ->
  trace w' = trace w \/
  (exists call, trace w' = OnGoalHandle (curr_gh_ (srv w)) call :: trace w) \/
  (exists e, emit_allowed e /\ trace w' = e :: trace w).
Proof.
  destruct ts as [p|pred k|timed_out pred k|]; simpl; try discriminate.
  - destruct p as [a|k|f k|k|k|k|pred k|c k|e k|k|fin]; simpl;
      try discriminate.
    + intros _ [= <- <-]. left. reflexivity.
    + intros _ [= <- <-]. left. reflexivity.
    + intros _. destruct (tj_mutex_ w); intros [= <- <-]; left; reflexivity.
    + intros _. destruct (tj_mutex_ w); [discriminate|].
      intros [= <- <-]. left. reflexivity.
    + intros _ [= <- <-]. left. reflexivity.
    + intros _. destruct (pred (srv w)); intros [= <- <-]; left; reflexivity.
    + intros _ [= <- <-]. right. left. eexists. reflexivity.
    + intros [He _] [= <- <-]. right. right. eexists. split; [exact He|reflexivity].
    + intros _ [= <- <-]. left. destruct (ends_process fin); reflexivity.
  - intros _. destruct (tj_mutex_ w); [discriminate|].
    intros [= <- <-]. left. reflexivity.
Qed.

Lemma evicted_before_accepted_cons (A B : GoalHandle) (e : event)
    (evs : list event) (r : Result) :
  evicted_before_accepted A B evs ->
  In (eviction_of A r) evs ->
  evicted_before_accepted A B (e :: evs).
Proof.
  intros Hev Hin newer older Heq. destruct newer as [|e' newer]; simpl in Heq.
  - injection Heq as _ <-. exists r. exact Hin.
  - injection Heq as _ Heq. eapply Hev. exact Heq.
Qed.

Lemma evicted_before_accepted_fresh (A B : GoalHandle) (evs : list event) :
  ~ In (accept_of B) evs -> evicted_before_accepted A B evs.
Proof.
  intros Hn newer older Heq. exfalso. apply Hn. rewrite Heq.
  apply in_or_app. right. left. reflexivity.
Qed.

Section Eviction.

Variable to_string : float -> string.
Variable Duration_fromSec : float -> Z.

Lemma step_trace (c c' : config) (l : label) :
  disciplined c ->
  step to_string Duration_fromSec c l = Some c' ->
  trace (world_of c') = trace (world_of c) \/
  (exists call, trace (world_of c')
                = OnGoalHandle (curr_gh_ (srv (world_of c))) call :: trace (world_of c)) \/
  (exists e, emit_allowed e /\ trace (world_of c') = e :: trace (world_of c)).
Proof.
  intros Hd. unfold step. destruct (exited (world_of c)); [discriminate|].
  destruct l as [t|t env|t timed_out|goal|gh|state|q qd|].
  - destruct (step_thread t (thread t c) (world_of c)) as [[ts w]|] eqn:Hst;
      [|discriminate].
    simpl. intros [= <-]. rewrite world_of_set_thread. simpl.
    eapply step_thread_trace; [apply (Hd t)|exact Hst].
  - destruct (thread t c) as [p| | |]; try discriminate.
    destruct p; try discriminate. intros [= <-].
    rewrite world_of_set_thread. left. reflexivity.
  - destruct (thread t c) as [|pred k| |]; try discriminate. intros [= <-].
    rewrite world_of_set_thread. left. reflexivity.
  - destruct (idle (spinner c)); [|discriminate]. intros [= <-]. left. reflexivity.
  - destruct (idle (spinner c)); [|discriminate]. intros [= <-]. left. reflexivity.
  - destruct (idle (state_thread c)); [|discriminate]. intros [= <-]. left. reflexivity.
  - destruct (idle (rt_thread c)); [|discriminate]. intros [= <-]. left. reflexivity.
  - destruct (idle (tj_thread_ c)); [|discriminate]. intros [= <-]. left. reflexivity.
Qed.

(** A step moves the thread of its label only. *)
Lemma step_other_thread (c c' : config) (l : label) (u : tid) :
  step to_string Duration_fromSec c l = Some c' ->
  u <> label_tid l -> thread u c' = thread u c.
Proof.
  unfold step. destruct (exited (world_of c)); [discriminate|].
  destruct l as [t|t env|t timed_out|goal|gh|state|q qd|]; simpl.
  - destruct (step_thread t (thread t c) (world_of c)) as [[ts w]|];
      [|discriminate].
    simpl. intros [= <-] Hne. destruct t, u; try reflexivity; contradiction.
  - destruct (thread t c) as [p| | |]; try discriminate.
    destruct p; try discriminate. intros [= <-] Hne.
    destruct t, u; try reflexivity; contradiction.
  - destruct (thread t c) as [|pred k| |]; try discriminate. intros [= <-] Hne.
    destruct t, u; try reflexivity; contradiction.
  - destruct (idle (spinner c)); [|discriminate]. intros [= <-] Hne.
    destruct u; try reflexivity. contradiction.
  - destruct (idle (spinner c)); [|discriminate]. intros [= <-] Hne.
    destruct u; try reflexivity. contradiction.
  - destruct (idle (state_thread c)); [|discriminate]. intros [= <-] Hne.
    destruct u; try reflexivity. contradiction.
  - destruct (idle (rt_thread c)); [|discriminate]. intros [= <-] Hne.
    destruct u; try reflexivity. contradiction.
  - destruct (idle (tj_thread_ c)); [|discriminate]. intros [= <-] Hne.
    destruct u; try reflexivity. contradiction.
Qed.

Lemma step_eviction_pending (A B : GoalHandle) (res : Result)
    (base : list event) (c c' : config) (l : label) :
  A <> B ->
  disciplined c ->
  eviction_pending A B res base c ->
  step to_string Duration_fromSec c l = Some c' ->
  eviction_pending A B res base c'.
Proof.
  intros Hne Hd (evs & Htr & HK) Hstep.
  destruct HK as [(Hpos & Hcurr & Hfresh)|(Hev & r & Hin)].
  2:{ destruct (step_trace c c' l Hd Hstep) as [Ht|[[call Ht]|(e & _ & Ht)]].
      - exists evs. split; [congruence|]. right. eauto.
      - exists (OnGoalHandle (curr_gh_ (srv (world_of c))) call :: evs).
        split; [rewrite Ht, Htr; reflexivity|]. right. split.
        + eapply evicted_before_accepted_cons; eassumption.
        + exists r. right. exact Hin.
      - exists (e :: evs). split; [rewrite Ht, Htr; reflexivity|]. right. split.
        + eapply evicted_before_accepted_cons; eassumption.
        + exists r. right. exact Hin. }
  destruct (decide (label_tid l = Spinner)) as [Hsp|Hnsp].
  - (* the spinner's own steps *)
    unfold step in Hstep. destruct (exited (world_of c)); [discriminate|].
    destruct l as [t|t env|t timed_out|goal|gh|state|q qd|]; simpl in Hsp;
      try discriminate; subst.
    + simpl in Hstep. destruct Hpos as [Hp|Hp]; rewrite Hp in Hstep;
        simpl in Hstep; injection Hstep as <-.
      * exists evs. simpl. split; [exact Htr|]. left.
        split; [right; reflexivity|]. split; [exact Hcurr|exact Hfresh].
      * exists (eviction_of A (set_error_string eviction_text res) :: evs).
        simpl. rewrite Htr, Hcurr. split; [reflexivity|]. right. split.
        -- apply evicted_before_accepted_fresh. intros [Heq|Hin]; [discriminate|].
           exact (Hfresh Hin).
        -- eexists. left. reflexivity.
    + simpl in Hstep. destruct Hpos as [Hp|Hp]; rewrite Hp in Hstep; discriminate.
    + simpl in Hstep. destruct Hpos as [Hp|Hp]; rewrite Hp in Hstep; discriminate.
    + destruct Hpos as [Hp|Hp]; rewrite Hp in Hstep; discriminate.
    + destruct Hpos as [Hp|Hp]; rewrite Hp in Hstep; discriminate.
  - (* the steps of the other threads *)
    assert (Hs : spinner c' = spinner c).
    { apply (step_other_thread c c' l Spinner Hstep). congruence. }
    assert (Hc : curr_gh_ (srv (world_of c')) = Some A).
    { destruct (step_curr_gh to_string Duration_fromSec c c' l Hd Hstep)
        as [He|[-> _]]; [congruence|]. exfalso. apply Hnsp. reflexivity. }
    destruct (step_trace c c' l Hd Hstep) as [Ht|[[call Ht]|(e & He & Ht)]].
    + exists evs. split; [congruence|]. left. rewrite Hs. auto.
    + exists (OnGoalHandle (curr_gh_ (srv (world_of c))) call :: evs).
      split; [rewrite Ht, Htr; reflexivity|]. left. rewrite Hs.
      split; [exact Hpos|]. split; [exact Hc|].
      intros [Heq|Hin]; [|exact (Hfresh Hin)].
      rewrite Hcurr in Heq. injection Heq as Heq _. contradiction.
    + exists (e :: evs). split; [rewrite Ht, Htr; reflexivity|]. left. rewrite Hs.
      split; [exact Hpos|]. split; [exact Hc|].
      intros [Heq|Hin]; [|exact (Hfresh Hin)].
      subst e. exact He.
Qed.

Lemma run_eviction_pending (A B : GoalHandle) (res : Result)
    (base : list event) (ls : list label) (c c' : config) :
  A <> B ->
  disciplined c ->
  eviction_pending A B res base c ->
  run to_string Duration_fromSec c ls = Some c' ->
  eviction_pending A B res base c'.
Proof.
  intros Hne. revert c. induction ls as [|l ls IH]; simpl; intros c Hd HK.
  - intros [= <-]. exact HK.
  - destruct (step to_string Duration_fromSec c l) as [c1|] eqn:Hs; [|discriminate].
    simpl. apply IH.
    + eapply step_disciplined; eassumption.
    + eapply step_eviction_pending; eassumption.
Qed.

End Eviction.

Section Preemption.

Variable to_string : float -> string.
Variable Duration_fromSec : float -> Z.

(** X6: in every state the server can reach, (1) while the execution thread
    executes a goal it holds the mutex, and the spinner is not in the part
    of [try_execute] that fills the slot of the current goal; (2) no step of
    any thread changes [curr_gh_] while a goal is executed: there is one
    slot, and nothing is queued behind it; (3) when the spinner, in
    [try_execute] for a goal [B], reaches [try_lock] while the goal [A] in
    the slot is executed, then however the threads go on, every
    [setAccepted] on [B] comes after a [setAborted] on [A] with the text
    "Received another trajectory". *)
Theorem one_current_goal_evicted_before_the_next :
  (forall c,
     reachable to_string Duration_fromSec c ->
     executing Duration_fromSec c ->
     tj_mutex_ (world_of c) = Some TrajThread /\ ~ admitting c) /\
  (forall c l c',
     reachable to_string Duration_fromSec c ->
     executing Duration_fromSec c ->
     step to_string Duration_fromSec c l = Some c' ->
     curr_gh_ (srv (world_of c')) = curr_gh_ (srv (world_of c))) /\
  (forall c A B res ls c',
     reachable to_string Duration_fromSec c ->
     executing Duration_fromSec c ->
     curr_gh_ (srv (world_of c)) = Some A ->
     A <> B ->
     spinner c = Run (bind (try_execute_try_lock B res) (onGoal_reject B)) ->
     run to_string Duration_fromSec c (Step Spinner :: ls) = Some c' ->
     exists evs,
       trace (world_of c') = evs ++ trace (world_of c) /\
       evicted_before_accepted A B evs).
Proof.
  split; [|split].
  - intros c Hr He. apply reachable_disciplined in Hr.
    pose proof (executing_owns Duration_fromSec c Hr He) as Ho.
    split; [apply owns_true; exact Ho|].
    intros Ha. apply admitting_owns in Ha; [|exact Hr].
    apply owns_true in Ho, Ha. congruence.
  - intros c l c' Hr He Hstep. apply reachable_disciplined in Hr.
    pose proof (executing_owns Duration_fromSec c Hr He) as Ho.
    destruct (step_curr_gh to_string Duration_fromSec c c' l Hr Hstep)
      as [Heq|[_ Hs]]; [exact Heq|].
    apply owns_true in Ho, Hs. congruence.
  - intros c A B res ls c' Hr He Hcurr Hne Hsp Hrun.
    apply reachable_disciplined in Hr.
    pose proof (executing_owns Duration_fromSec c Hr He) as Ho.
    apply owns_true in Ho.
    simpl in Hrun.
    destruct (step to_string Duration_fromSec c (Step Spinner)) as [c1|] eqn:Hstep;
      [|discriminate].
    simpl in Hrun.
    assert (HK : eviction_pending A B res (trace (world_of c)) c1).
    { unfold step in Hstep. destruct (exited (world_of c)); [discriminate|].
      simpl in Hstep. rewrite Hsp in Hstep. simpl in Hstep. rewrite Ho in Hstep.
      injection Hstep as <-. exists []. simpl. split; [reflexivity|]. left.
      split; [left; reflexivity|]. split; [exact Hcurr|]. intros []. }
    assert (Hd1 : disciplined c1) by (eapply step_disciplined; eassumption).
    destruct (run_eviction_pending to_string Duration_fromSec A B res _ ls c1 c'
                Hne Hd1 HK Hrun) as (evs & Htr & HK').
    exists evs. split; [exact Htr|].
    destruct HK' as [(_ & _ & Hfresh)|[Hev _]]; [|exact Hev].
    apply evicted_before_accepted_fresh. exact Hfresh.
Qed.

End Preemption.

Lemma run_reaches_try_lock :
  run Ex.to_string Ex.Duration_fromSec Run.c0 Run.to_try_lock = Some Run.at_try_lock.
Proof.
  unfold Run.at_try_lock.
  destruct (run Ex.to_string Ex.Duration_fromSec Run.c0 Run.to_try_lock) eqn:Hrun;
    [reflexivity|].
  exfalso. vm_compute in Hrun. discriminate Hrun.
Qed.

Lemma eviction_witness :
  exists c',
    run Ex.to_string Ex.Duration_fromSec Run.at_try_lock
        (Step Spinner :: Run.after_try_lock) = Some c' /\
    trace (world_of c') = Run.since_try_lock ++ trace (world_of Run.at_try_lock) /\
    evicted_before_accepted Run.A Run.B Run.since_try_lock.
Proof.
  destruct (run Ex.to_string Ex.Duration_fromSec Run.at_try_lock
              (Step Spinner :: Run.after_try_lock)) as [c'|] eqn:Hrun.
  2:{ exfalso. vm_compute in Hrun. discriminate Hrun. }
  exists c'. split; [reflexivity|].
  assert (Htr : trace (world_of c')
                = Run.since_try_lock ++ trace (world_of Run.at_try_lock)).
  { remember (trace (world_of c')) as tr eqn:Etr.
    assert (Hsome : Some tr
                    = option_map (fun c => trace (world_of c))
                        (run Ex.to_string Ex.Duration_fromSec Run.at_try_lock
                           (Step Spinner :: Run.after_try_lock)))
      by (rewrite Hrun, Etr; reflexivity).
    vm_compute in Hsome. injection Hsome as ->. vm_compute. reflexivity. }
  split; [exact Htr|].
  destruct (proj2 (proj2 (one_current_goal_evicted_before_the_next
                            Ex.to_string Ex.Duration_fromSec))
              Run.at_try_lock Run.A Run.B (mkResult INVALID_GOAL "")
              Run.after_try_lock c')
    as (evs & Hevs & Hord).
  - exists Ex.ur_joints, 10%float, Ex.zeros, Ex.zeros, true, true, Run.to_try_lock.
    exact run_reaches_try_lock.
  - right. right. right.
    exists [Out (RosSleep (4 * 0.1)%float); Out FollowerStop], Released.
    vm_compute. reflexivity.
  - vm_compute. reflexivity.
  - discriminate.
  - vm_compute. reflexivity.
  - exact Hrun.
  - rewrite Htr in Hevs. apply app_inv_tail in Hevs. subst evs. exact Hord.
Defined.

(* ===================================================================== *)
(** ** Safety stops *)
(* ===================================================================== *)

(** A step of a thread other than the state thread sends no safety stop,
    and clears [interrupt_traj_] only if it is the spinner's and the
    spinner's program clears it. *)
Lemma step_thread_quiet (t : tid) (held : bool) (ts ts' : tstate) (w w' : world) :
  tsafe t held ts ->
  (t = Spinner -> tno_clear ts) ->
  t <> StateThread ->
  step_thread t ts w = Some (ts', w') ->
  safety_aborts (trace w') = safety_aborts (trace w) /\
  (interrupt_traj_ (srv w) = true -> interrupt_traj_ (srv w') = true) /\
  (t = Spinner -> tno_clear ts').
Proof.
  intros Hs Hnc Hne.
  destruct ts as [p|pred k|timed_out pred k|]; simpl in *; try discriminate.
  - destruct p as [a|k|f k|k|k|k|pred k|c k|e k|k|fin]; simpl in *;
      try discriminate.
    + intros [= <- <-]. repeat split; auto. intros Ht. apply (Hnc Ht).
    + intros [= <- <-]. repeat split.
      * destruct Hs as [Hw _]. destruct f as [st|[]|b|gh|q|qd]; simpl; auto.
        intros _. exfalso. destruct Hw as [Ht _]. destruct (Hnc Ht) as [Hf _].
        apply Hf. reflexivity.
      * intros Ht. apply (Hnc Ht).
    + destruct (tj_mutex_ w); intros [= <- <-]; repeat split; auto;
        intros Ht; apply (Hnc Ht).
    + destruct (tj_mutex_ w); [discriminate|]. intros [= <- <-].
      repeat split; auto.
    + intros [= <- <-]. repeat split; auto.
    + destruct (pred (srv w)); intros [= <- <-]; repeat split; auto;
        intros Ht; apply (Hnc Ht).
    + intros [= <- <-]. repeat split; auto. simpl.
      destruct Hs as [Hc _]. destruct c as [|res text|res text|res|res];
        simpl in *; auto.
      destruct Hc as [(_ & _ & [-> | ->])|[(_ & ->)|(Ht & _)]];
        try reflexivity. contradiction.
    + intros [= <- <-]. repeat split; auto. simpl.
      destruct Hs as [He _]. destruct e as [gh c| | | | | | | |]; auto.
      destruct c; simpl in *; auto; contradiction.
    + intros [= <- <-]. destruct (ends_process fin); repeat split; auto.
  - destruct (tj_mutex_ w); [discriminate|]. intros [= <- <-].
    repeat split; auto. intros Ht. destruct timed_out; simpl; apply (Hnc Ht).
Qed.

Lemma no_clear_onCancel (gh : GoalHandle) : no_clear (onCancel gh).
Proof. simpl. repeat split; auto; discriminate. Qed.

Section SafetyStop.

Variable to_string : float -> string.
Variable Duration_fromSec : float -> Z.

Lemma step_one_safety_stop (base : list event) (c c' : config) (l : label) :
  disciplined c ->
  one_safety_stop base c ->
  no_new_goal l ->
  step to_string Duration_fromSec c l = Some c' ->
  one_safety_stop base c'.
Proof.
  intros Hd (n & Hn & Hnc & Hpos) Hl Hstep.
  destruct (decide (label_tid l = StateThread)) as [Hst|Hnst].
  - (* the state thread's own steps *)
    unfold step in Hstep. destruct (exited (world_of c)); [discriminate|].
    destruct l as [t|t env|t timed_out|goal|gh|state|q qd|]; simpl in Hst;
      try discriminate; subst; simpl in Hstep.
    + (* Step StateThread *)
      destruct Hpos as [(Hb & Hle & Hi)|[(Hp & ->)|(Ha & -> & Hi)]].
      * destruct Hb as [[state Hb]|[[state Hb]|[Hb|Hb]]]; rewrite Hb in Hstep.
        -- simpl in Hstep. injection Hstep as <-.
           exists n. simpl. split; [exact Hn|]. split; [exact Hnc|]. left.
           split; [right; left; exists state; reflexivity|]. auto.
        -- unfold safety_checks in Hstep.
           destruct (RobotState_eqb state Running); [discriminate|].
           simpl in Hstep. injection Hstep as <-.
           exists n. simpl. split; [exact Hn|]. split; [exact Hnc|].
           destruct (interrupt_traj_ (srv (world_of c))) eqn:Hint.
           ++ left. split; [right; right; right; reflexivity|]. auto.
           ++ right. left. split; [left; reflexivity|].
              destruct n as [|[|n]]; [reflexivity| |lia].
              specialize (Hi eq_refl). discriminate.
        -- simpl in Hstep. injection Hstep as <-.
           exists n. simpl. split; [exact Hn|]. split; [exact Hnc|]. left.
           split; [right; right; right; reflexivity|]. auto.
        -- discriminate.
      * destruct Hp as [Hp|[Hp|Hp]]; rewrite Hp in Hstep; simpl in Hstep.
        -- injection Hstep as <-. exists 0%nat. simpl.
           split; [exact Hn|]. split; [exact Hnc|].
           destruct (has_goal_ (srv (world_of c))); simpl.
           ++ right. left. split; [right; left; reflexivity|reflexivity].
           ++ left. split; [right; right; right; reflexivity|]. split; [lia|discriminate].
        -- destruct (tj_mutex_ (world_of c)); injection Hstep as <-;
             exists 0%nat; simpl; (split; [exact Hn|]); (split; [exact Hnc|]).
           ++ right. left. split; [right; right; reflexivity|reflexivity].
           ++ left. split; [right; right; left; reflexivity|]. split; [lia|discriminate].
        -- injection Hstep as <-. exists 0%nat. simpl.
           split; [exact Hn|]. split; [exact Hnc|]. right. right.
           split; [left; reflexivity|]. split; reflexivity.
      * destruct Ha as [Ha|Ha]; rewrite Ha in Hstep; simpl in Hstep.
        -- destruct (tj_mutex_ (world_of c)); [discriminate|].
           injection Hstep as <-. exists 0%nat. simpl.
           split; [exact Hn|]. split; [exact Hnc|]. right. right.
           split; [right; reflexivity|]. split; [reflexivity|exact Hi].
        -- injection Hstep as <-. exists 1%nat. simpl.
           split; [rewrite Hn; lia|]. split; [exact Hnc|]. left.
           split; [right; right; left; reflexivity|]. split; [lia|]. intros _. exact Hi.
    + (* an answer: the state thread asks nothing *)
      destruct Hpos as [(Hb & _)|[(Hp & _)|(Ha & _)]].
      * destruct Hb as [[state Hb]|[[state Hb]|[Hb|Hb]]]; rewrite Hb in Hstep;
          try discriminate.
        unfold safety_checks in Hstep.
        destruct (RobotState_eqb state Running); discriminate.
      * destruct Hp as [Hp|[Hp|Hp]]; rewrite Hp in Hstep; discriminate.
      * destruct Ha as [Ha|Ha]; rewrite Ha in Hstep; discriminate.
    + (* a wake-up: the state thread never waits *)
      destruct Hpos as [(Hb & _)|[(Hp & _)|(Ha & _)]].
      * destruct Hb as [[state Hb]|[[state Hb]|[Hb|Hb]]]; rewrite Hb in Hstep;
          try discriminate.
      * destruct Hp as [Hp|[Hp|Hp]]; rewrite Hp in Hstep; discriminate.
      * destruct Ha as [Ha|Ha]; rewrite Ha in Hstep; discriminate.
    + (* a notification reaches the idle state thread *)
      destruct (idle (state_thread c)) eqn:Hi; [|discriminate].
      injection Hstep as <-. apply idle_inv in Hi as [[] Hi].
      destruct Hpos as [(Hb & Hle & Hint)|[(Hp & _)|(Ha & _)]].
      * exists n. simpl. split; [exact Hn|]. split; [exact Hnc|]. left.
        split; [left; exists state; reflexivity|]. auto.
      * rewrite Hi in Hp. destruct Hp as [Hp|[Hp|Hp]]; discriminate.
      * rewrite Hi in Ha. destruct Ha as [Ha|Ha]; discriminate.
  - (* the steps of the other threads *)
    assert (Hs : state_thread c' = state_thread c).
    { apply (step_other_thread to_string Duration_fromSec c c' l StateThread Hstep).
      congruence. }
    assert (Hq : safety_aborts (trace (world_of c')) = safety_aborts (trace (world_of c)) /\
                 (interrupt_traj_ (srv (world_of c)) = true ->
                  interrupt_traj_ (srv (world_of c')) = true) /\
                 tno_clear (spinner c')).
    { unfold step in Hstep. destruct (exited (world_of c)); [discriminate|].
      destruct l as [t|t env|t timed_out|goal|gh|state|q qd|]; simpl in Hnst, Hl.
      - destruct (step_thread t (thread t c) (world_of c)) as [[ts w]|] eqn:Hst;
          [|discriminate].
        simpl in Hstep. injection Hstep as <-.
        rewrite world_of_set_thread. simpl.
        edestruct (step_thread_quiet t _ (thread t c) ts (world_of c) w (Hd t))
          as (H1 & H2 & H3); [|congruence|exact Hst|].
        { intros ->. exact Hnc. }
        split; [exact H1|]. split; [exact H2|].
        pose proof (thread_set_thread t Spinner ts (set_world w c)) as Hth.
        simpl in Hth. rewrite Hth.
        destruct (decide (Spinner = t)) as [<-|Hne]; [apply H3; reflexivity|exact Hnc].
      - destruct (thread t c) as [p| | |] eqn:Ht; try discriminate.
        destruct p; try discriminate. injection Hstep as <-.
        rewrite world_of_set_thread. split; [reflexivity|]. split; [auto|].
        pose proof (thread_set_thread t Spinner (Run (k env)) c) as Hth.
        simpl in Hth. rewrite Hth.
        destruct (decide (Spinner = t)) as [<-|Hne]; [|exact Hnc].
        simpl in Ht. rewrite Ht in Hnc. apply Hnc.
      - destruct (thread t c) as [|pred k| |] eqn:Ht; try discriminate.
        injection Hstep as <-.
        rewrite world_of_set_thread. split; [reflexivity|]. split; [auto|].
        pose proof (thread_set_thread t Spinner (Woken timed_out pred k) c) as Hth.
        simpl in Hth. rewrite Hth.
        destruct (decide (Spinner = t)) as [<-|Hne]; [|exact Hnc].
        simpl in Ht. rewrite Ht in Hnc. apply Hnc.
      - contradiction.
      - destruct (idle (spinner c)); [|discriminate]. injection Hstep as <-.
        split; [reflexivity|]. split; [auto|]. exact (no_clear_onCancel gh).
      - exfalso. apply Hnst. reflexivity.
      - destruct (idle (rt_thread c)); [|discriminate]. injection Hstep as <-.
        split; [reflexivity|]. split; [auto|]. exact Hnc.
      - destruct (idle (tj_thread_ c)); [|discriminate]. injection Hstep as <-.
        split; [reflexivity|]. split; [auto|]. exact Hnc. }
    destruct Hq as (Hq1 & Hq2 & Hq3).
    exists n. split; [rewrite Hq1; exact Hn|]. split; [exact Hq3|]. rewrite Hs.
    destruct Hpos as [(Hb & Hle & Hi)|[(Hp & Hz)|(Ha & Hz & Hi)]].
    + left. split; [exact Hb|]. split; [exact Hle|]. intros H1. apply Hq2, Hi, H1.
    + right. left. split; assumption.
    + right. right. split; [exact Ha|]. split; [exact Hz|]. apply Hq2, Hi.
Qed.

Lemma run_one_safety_stop (base : list event) (ls : list label) (c c' : config) :
  disciplined c ->
  one_safety_stop base c ->
  Forall no_new_goal ls ->
  run to_string Duration_fromSec c ls = Some c' ->
  one_safety_stop base c'.
Proof.
  revert c. induction ls as [|l ls IH]; simpl; intros c Hd HJ HF.
  - intros [= <-]. exact HJ.
  - destruct (step to_string Duration_fromSec c l) as [c1|] eqn:Hs; [|discriminate].
    simpl. inversion HF as [|? ? Hl HF']; subst. apply IH; [| |exact HF'].
    + eapply step_disciplined; eassumption.
    + eapply step_one_safety_stop; eassumption.
Qed.

End SafetyStop.

(* ===================================================================== *)
(** ** The handlers, one at a time *)
(* ===================================================================== *)

Section HandlersAlone.

Variable to_string : float -> string.
Variable Duration_fromSec : float -> Z.

(** X1: in any run from a state the server can reach with the spinner and
    the state thread idle, and in which no new goal arrives, at most one
    "Robot safety stop" abort is sent, however many notifications of a
    stopped robot are delivered and however the threads interleave: the
    flag [interrupt_traj_] that the first one sets makes the later ones
    return at line 53. *)
Theorem at_most_one_safety_stop_until_the_next_goal (c c' : config)
    (ls : list label) :
  reachable to_string Duration_fromSec c ->
  idle (spinner c) = true ->
  idle (state_thread c) = true ->
  Forall no_new_goal ls ->
  run to_string Duration_fromSec c ls = Some c' ->
  (safety_aborts (trace (world_of c')) <= safety_aborts (trace (world_of c)) + 1)%nat.
Proof.
  intros Hr Hsp Hst HF Hrun. apply reachable_disciplined in Hr.
  apply idle_inv in Hsp as [[] Hsp]. apply idle_inv in Hst as [[] Hst].
  assert (H0 : one_safety_stop (trace (world_of c)) c).
  { exists 0%nat. split; [lia|]. split; [rewrite Hsp; exact I|]. left.
    split; [right; right; right; exact Hst|]. split; [lia|discriminate]. }
  destruct (run_one_safety_stop to_string Duration_fromSec _ ls c c' Hr H0 HF Hrun)
    as (n & Hn & _ & Hpos).
  rewrite Hn. destruct Hpos as [(_ & Hle & _)|[(_ & ->)|(_ & -> & _)]]; lia.
Qed.

(** X2: a notification only records the new state, and changes nothing
    else, when the state is Running, or [interrupt_traj_] is already set,
    or no goal is present, or the mutex is free (it is taken and released
    again). *)
Theorem onRobotStateChange_only_records (c : config) (state : RobotState) :
  exited (world_of c) = false ->
  state_thread c = Run (onRobotStateChange state) ->
  state = Running \/
  interrupt_traj_ (srv (world_of c)) = true \/
  has_goal_ (srv (world_of c)) = false \/
  tj_mutex_ (world_of c) = None ->
  run_alone to_string Duration_fromSec 16 StateThread c
  = set_thread StateThread (Run (Ret tt))
      (set_world (set_srv (set_state state (srv (world_of c))) (world_of c)) c).
Proof.
  intros Hex Hst Hcase.
  destruct c as [[s m tr ex] sp tj st rt n]. simpl in *. subst ex st.
  destruct (RobotState_eqb state Running) eqn:Hrun.
  { cbn. rewrite Hrun. reflexivity. }
  destruct (interrupt_traj_ s) eqn:Hint.
  { cbn. rewrite Hrun. cbn. rewrite Hint. reflexivity. }
  destruct (has_goal_ s) eqn:Hgoal.
  2:{ cbn. rewrite Hrun. cbn. rewrite Hint. cbn. rewrite Hgoal. reflexivity. }
  destruct Hcase as [->|[Hc|[Hc|Hc]]]; try discriminate.
  subst m. cbn. rewrite Hrun. cbn. rewrite Hint. cbn. rewrite Hgoal. reflexivity.
Qed.

(** X3: a notification of a state other than Running, while a goal is
    present, [interrupt_traj_] is unset and the mutex is held, sets
    [interrupt_traj_] and stops at the [lock_guard] of line 65 with nothing
    sent; there it cannot move; and from any state in which the mutex has
    become free it aborts the goal that [curr_gh_] holds then, with the code
    -100 and the text "Robot safety stop", and releases the mutex. *)
Theorem onRobotStateChange_safety_stop (c : config) (state : RobotState) :
  exited (world_of c) = false ->
  state_thread c = Run (onRobotStateChange state) ->
  state <> Running ->
  interrupt_traj_ (srv (world_of c)) = false ->
  has_goal_ (srv (world_of c)) = true ->
  tj_mutex_ (world_of c) <> None ->
  let c1 := run_alone to_string Duration_fromSec 16 StateThread c in
  c1 = set_thread StateThread (Run safety_blocked)
         (set_world
            (set_srv (set_interrupt_traj true (set_state state (srv (world_of c))))
                     (world_of c)) c) /\
  step to_string Duration_fromSec c1 (Step StateThread) = None /\
  forall w2,
    exited w2 = false ->
    tj_mutex_ w2 = None ->
    run_alone to_string Duration_fromSec 16 StateThread (set_world w2 c1)
    = set_thread StateThread (Run (Ret tt))
        (set_world
           (mkWorld (srv w2) None
              (OnGoalHandle (curr_gh_ (srv w2))
                 (setAborted (mkResult (-100) "Robot safety stop") "Robot safety stop")
               :: trace w2) false) c1).
Proof.
  intros Hex Hst Hne Hint Hgoal Hm.
  destruct c as [[s m tr ex] sp tj st rt n].
  simpl in Hex, Hst, Hint, Hgoal, Hm. subst ex st.
  assert (Hrun : RobotState_eqb state Running = false)
    by (destruct state; try reflexivity; contradiction).
  destruct m as [t|]; [|contradiction].
  assert (Hc1 : run_alone to_string Duration_fromSec 16 StateThread
                  (mkConfig (mkWorld s (Some t) tr false) sp tj
                     (Run (onRobotStateChange state)) rt n)
                = mkConfig (mkWorld (set_interrupt_traj true (set_state state s))
                              (Some t) tr false) sp tj (Run safety_blocked) rt n).
  { cbn. rewrite Hrun. cbn. rewrite Hint. cbn. rewrite Hgoal. reflexivity. }
  cbv zeta. rewrite Hc1. split; [reflexivity|]. split; [reflexivity|].
  intros [s2 m2 tr2 ex2] Hex2 Hm2. simpl in Hex2, Hm2. subst ex2 m2. reflexivity.
Qed.

(** X4: [onCancel] sets [interrupt_traj_], waits for the mutex when it is
    held, and then reports Canceled, with the code -100 and the text "Goal
    cancelled by client", on the handle it was given, whatever [curr_gh_]
    holds; it leaves [interrupt_traj_] set and [has_goal_] and [curr_gh_]
    as they were, and the mutex free. *)
Theorem onCancel_cancels_the_handle_given (c : config) (gh : GoalHandle) :
  exited (world_of c) = false ->
  spinner c = Run (onCancel gh) ->
  let c1 := run_alone to_string Duration_fromSec 16 Spinner c in
  let c2 := run_alone to_string Duration_fromSec 16 Spinner (released c1) in
  (tj_mutex_ (world_of c) <> None ->
   trace (world_of c1) = trace (world_of c) /\
   interrupt_traj_ (srv (world_of c1)) = true /\
   step to_string Duration_fromSec c1 (Step Spinner) = None) /\
  c2 = set_thread Spinner (Run (Ret tt))
         (set_world
            (mkWorld (set_interrupt_traj true (srv (world_of c))) None
               (OnGoalHandle (Some gh)
                  (setCanceled (mkResult (-100) "Goal cancelled by client"))
                :: trace (world_of c)) false) c).
Proof.
  intros Hex Hsp.
  destruct c as [[s m tr ex] sp tj st rt n]. simpl in Hex, Hsp. subst ex sp.
  destruct m as [t|]; cbn.
  - split; [|reflexivity]. intros _. repeat split; reflexivity.
  - split; [|reflexivity]. intros Hn. contradiction.
Qed.

(** X5: on a server that was not started ([running_] unset), a goal that
    passes [validate] is rejected by [try_execute] with the text "Internal
    error" and the code INVALID_GOAL, which [validateTrajectory] left in
    [res]; the mutex is not touched and no field changes. *)
Theorem onGoal_before_start_is_an_internal_error (c : config) (gh : GoalHandle) :
  exited (world_of c) = false ->
  running_ (srv (world_of c)) = false ->
  spinner c = Run (onGoal to_string gh) ->
  admissible (srv (world_of c)) gh ->
  run_alone to_string Duration_fromSec 16 Spinner c
  = set_thread Spinner (Run (Ret tt))
      (set_world
         (log (OnGoalHandle (Some gh)
                 (setRejected (mkResult INVALID_GOAL "Internal error") "Internal error"))
              (world_of c)) c).
Proof.
  intros Hex Hrun Hsp Hadm.
  destruct c as [[s m tr ex] sp tj st rt n]. simpl in *. subst ex sp.
  apply validate_spec with (to_string := to_string) (res := onGoal_res) in Hadm.
  apply validate_true_res in Hadm. unfold onGoal_res in Hadm.
  cbn. rewrite Hadm. cbn. rewrite Hrun. cbn. reflexivity.
Qed.

End HandlersAlone.

Lemma run_reaches_executing :
  run Ex.to_string Ex.Duration_fromSec Run.c0 Run.to_executing = Some Run.executing_A.
Proof.
  unfold Run.executing_A.
  destruct (run Ex.to_string Ex.Duration_fromSec Run.c0 Run.to_executing) eqn:Hrun;
    [reflexivity|].
  exfalso. vm_compute in Hrun. discriminate Hrun.
Qed.

Lemma at_most_one_safety_stop_witness :
  exists c',
    run Ex.to_string Ex.Duration_fromSec Run.executing_A Run.two_stops = Some c' /\
    (safety_aborts (trace (world_of c'))
     <= safety_aborts (trace (world_of Run.executing_A)) + 1)%nat.
Proof.
  destruct (run Ex.to_string Ex.Duration_fromSec Run.executing_A Run.two_stops)
    as [c'|] eqn:Hrun.
  2:{ exfalso. vm_compute in Hrun. discriminate Hrun. }
  exists c'. split; [reflexivity|].
  apply (at_most_one_safety_stop_until_the_next_goal
           Ex.to_string Ex.Duration_fromSec Run.executing_A c' Run.two_stops).
  - exists Ex.ur_joints, 10%float, Ex.zeros, Ex.zeros, true, true, Run.to_executing.
    exact run_reaches_executing.
  - vm_compute. reflexivity.
  - vm_compute. reflexivity.
  - repeat constructor.
  - exact Hrun.
Defined.

Lemma onRobotStateChange_only_records_witness :
  run_alone Ex.to_string Ex.Duration_fromSec 16 StateThread
    (Ex.config_of Ex.srv_busy None (Run (Ret tt))
       (Run (onRobotStateChange ProtectiveStopped)))
  = Ex.config_of (set_state ProtectiveStopped Ex.srv_busy) None
      (Run (Ret tt)) (Run (Ret tt)).
Proof.
  exact (onRobotStateChange_only_records Ex.to_string Ex.Duration_fromSec
           (Ex.config_of Ex.srv_busy None (Run (Ret tt))
              (Run (onRobotStateChange ProtectiveStopped)))
           ProtectiveStopped eq_refl eq_refl
           (or_intror (or_intror (or_intror eq_refl)))).
Defined.

Lemma onRobotStateChange_safety_stop_witness :
  run_alone Ex.to_string Ex.Duration_fromSec 16 StateThread
    (Ex.config_of Ex.srv_busy (Some TrajThread) (Run (Ret tt))
       (Run (onRobotStateChange ProtectiveStopped)))
  = Ex.config_of (set_interrupt_traj true (set_state ProtectiveStopped Ex.srv_busy))
      (Some TrajThread) (Run (Ret tt)) (Run safety_blocked).
Proof.
  exact (proj1 (onRobotStateChange_safety_stop Ex.to_string Ex.Duration_fromSec
                  (Ex.config_of Ex.srv_busy (Some TrajThread) (Run (Ret tt))
                     (Run (onRobotStateChange ProtectiveStopped)))
                  ProtectiveStopped eq_refl eq_refl
                  ltac:(discriminate) eq_refl eq_refl ltac:(discriminate))).
Defined.

Lemma onCancel_witness :
  run_alone Ex.to_string Ex.Duration_fromSec 16 Spinner
    (released
       (run_alone Ex.to_string Ex.Duration_fromSec 16 Spinner
          (Ex.config_of Ex.srv_busy (Some TrajThread)
             (Run (onCancel (mkGH 7 Ex.empty_goal))) (Run (Ret tt)))))
  = mkConfig
      (mkWorld (set_interrupt_traj true Ex.srv_busy) None
         [OnGoalHandle (Some (mkGH 7 Ex.empty_goal))
            (setCanceled (mkResult (-100) "Goal cancelled by client"))] false)
      (Run (Ret tt)) (Run (Ret tt)) (Run (Ret tt)) (Run (Ret tt)) 1.
Proof.
  exact (proj2 (onCancel_cancels_the_handle_given Ex.to_string Ex.Duration_fromSec
                  (Ex.config_of Ex.srv_busy (Some TrajThread)
                     (Run (onCancel (mkGH 7 Ex.empty_goal))) (Run (Ret tt)))
                  (mkGH 7 Ex.empty_goal) eq_refl eq_refl)).
Defined.

Lemma onGoal_before_start_witness :
  run_alone Ex.to_string Ex.Duration_fromSec 16 Spinner
    (Ex.config_of (set_running false Ex.srv0) None
       (Run (onGoal Ex.to_string (mkGH 0 Ex.hold_goal))) (Run (Ret tt)))
  = mkConfig
      (mkWorld (set_running false Ex.srv0) None
         [OnGoalHandle (Some (mkGH 0 Ex.hold_goal))
            (setRejected (mkResult INVALID_GOAL "Internal error") "Internal error")]
         false)
      (Run (Ret tt)) (Run (Ret tt)) (Run (Ret tt)) (Run (Ret tt)) 1.
Proof.
  apply (onGoal_before_start_is_an_internal_error Ex.to_string Ex.Duration_fromSec
           (Ex.config_of (set_running false Ex.srv0) None
              (Run (onGoal Ex.to_string (mkGH 0 Ex.hold_goal))) (Run (Ret tt)))
           (mkGH 0 Ex.hold_goal) eq_refl eq_refl eq_refl).
  apply (validate_spec Ex.to_string) with (res := onGoal_res).
  vm_compute. reflexivity.
Defined.

(* ===================================================================== *)
(** ** The translation, for every goal *)
(* ===================================================================== *)

Lemma first_index_le (a : string) (l : list string) :
  (first_index a l <= length l)%nat.
Proof.
  induction l as [|x l IH]; simpl; [lia|].
  destruct (String.eqb a x); lia.
Qed.

Lemma first_index_lookup (a : string) (l : list string) :
  a ∈ l -> l !! first_index a l = Some a.
Proof.
  induction l as [|x l IH]; simpl; intros Hin.
  - inversion Hin.
  - destruct (String.eqb_spec a x) as [->|Hne]; [reflexivity|].
    simpl. apply IH. apply elem_of_cons in Hin as [Heq|Hin]; [contradiction|exact Hin].
Qed.

Lemma first_index_before (a : string) (l : list string) (j : nat) :
  (j < first_index a l)%nat -> l !! j <> Some a.
Proof.
  revert j. induction l as [|x l IH]; simpl; intros j Hj; [discriminate|].
  destruct (String.eqb_spec a x) as [->|Hne]; [lia|].
  destruct j as [|j]; simpl; [congruence|]. apply IH. lia.
Qed.

Lemma first_index_missing (a : string) (l : list string) :
  a ∉ l -> first_index a l = length l.
Proof.
  induction l as [|x l IH]; simpl; intros Hn; [reflexivity|].
  destruct (String.eqb_spec a x) as [->|Hne].
  - exfalso. apply Hn. left.
  - f_equal. apply IH. intros Hin. apply Hn. right. exact Hin.
Qed.

Lemma first_index_NoDup (a : string) (l : list string) (j : nat) :
  NoDup l -> l !! j = Some a -> first_index a l = j.
Proof.
  intros Hnd Hj.
  assert (Hin : a ∈ l) by (eapply list_elem_of_lookup_2; exact Hj).
  eapply NoDup_lookup; [exact Hnd| |exact Hj].
  apply first_index_lookup. exact Hin.
Qed.

Lemma reorderMap_lookup (s : server) (g : list string) (c : nat) (name : string) :
  joint_names_ s !! c = Some name ->
  reorderMap s g !! c = Some (first_index name g).
Proof.
  intros Hc. unfold reorderMap. rewrite list_lookup_fmap, Hc. reflexivity.
Qed.

(** X7: [reorderMap] returns one index for each configured joint: the
    position of the first occurrence of its name in the goal's list, or the
    length of that list when the goal does not name the joint. *)
Theorem reorderMap_first_occurrence_or_length (s : server) (g : list string) :
  length (reorderMap s g) = length (joint_names_ s) /\
  forall (c : nat) (name : string),
    joint_names_ s !! c = Some name ->
    reorderMap s g !! c = Some (first_index name g) /\
    (name ∈ g ->
     g !! first_index name g = Some name /\
     forall j, (j < first_index name g)%nat -> g !! j <> Some name) /\
    (name ∉ g -> first_index name g = length g).
Proof.
  split; [apply length_fmap|].
  intros c name Hc. split; [apply reorderMap_lookup; exact Hc|]. split.
  - intros Hin. split; [apply first_index_lookup; exact Hin|].
    intros j. apply first_index_before.
  - apply first_index_missing.
Qed.

(** The loop of lines 315-320 over the indices [ixs], when the mapping sends
    them to different cells of the arrays. *)
Lemma translate_fold (mapping : list nat) (point : JointTrajectoryPoint)
    (m : nat -> nat) (p v : nat -> float) (ixs : list nat) :
  forall pos vel : list (option float),
    length pos = 6%nat -> length vel = 6%nat ->
    NoDup ixs ->
    (forall i, i ∈ ixs ->
       mapping !! i = Some (m i) /\ positions point !! i = Some (p i) /\
       velocities point !! i = Some (v i) /\ (m i < 6)%nat) ->
    (forall i i', i ∈ ixs -> i' ∈ ixs -> m i = m i' -> i = i') ->
    exists pos' vel',
      foldl (translate_step mapping point) (Some (pos, vel)) ixs = Some (pos', vel') /\
      length pos' = 6%nat /\ length vel' = 6%nat /\
      (forall i, i ∈ ixs ->
         pos' !! m i = Some (Some (p i)) /\ vel' !! m i = Some (Some (v i))) /\
      (forall j, (forall i, i ∈ ixs -> m i <> j) ->
         pos' !! j = pos !! j /\ vel' !! j = vel !! j).
Proof.
  induction ixs as [|i ixs IH]; intros pos vel Hlp Hlv Hnd Hlook Hinj.
  - exists pos, vel. simpl. split; [reflexivity|]. split; [exact Hlp|].
    split; [exact Hlv|]. split; [|auto]. intros i0 Hi0. inversion Hi0.
  - apply NoDup_cons in Hnd as [Hni Hnd].
    destruct (Hlook i ltac:(left)) as (Hm & Hp & Hv & Hlt).
    assert (Hstep : translate_step mapping point (Some (pos, vel)) i
                    = Some (<[m i := Some (p i)]> pos, <[m i := Some (v i)]> vel)).
    { unfold translate_step. simpl. rewrite Hm. simpl. rewrite Hp. simpl.
      rewrite Hv. simpl. destruct (decide (m i < 6)%nat); [reflexivity|contradiction]. }
    destruct (IH (<[m i := Some (p i)]> pos) (<[m i := Some (v i)]> vel))
      as (pos' & vel' & Hfold & Hlp' & Hlv' & Hin & Hout).
    + rewrite length_insert. exact Hlp.
    + rewrite length_insert. exact Hlv.
    + exact Hnd.
    + intros i' Hi'. apply Hlook. right. exact Hi'.
    + intros i1 i2 H1 H2. apply Hinj; right; assumption.
    + exists pos', vel'. cbn [foldl]. rewrite Hstep. split; [exact Hfold|].
      split; [exact Hlp'|]. split; [exact Hlv'|]. split.
      * intros i' Hi'. apply elem_of_cons in Hi' as [->|Hi']; [|apply Hin; exact Hi'].
        destruct (Hout (m i)) as [Ho1 Ho2].
        { intros i' Hi' Heq. apply Hni.
          rewrite <- (Hinj i' i); [exact Hi'|right; exact Hi'|left|exact Heq]. }
        rewrite Ho1, Ho2. split; apply list_lookup_insert_eq; lia.
      * intros j Hj. destruct (Hout j) as [Ho1 Ho2].
        { intros i' Hi'. apply Hj. right. exact Hi'. }
        rewrite Ho1, Ho2.
        assert (m i <> j) by (apply Hj; left).
        split; apply list_lookup_insert_ne; assumption.
Qed.

(** The copy of an array all of whose cells were written. *)
Lemma mapM_id_written (cells : list (option float)) :
  (forall j, (j < length cells)%nat -> exists x, cells !! j = Some (Some x)) ->
  exists l,
    mapM id cells = Some l /\ length l = length cells /\
    forall j x, cells !! j = Some (Some x) -> l !! j = Some x.
Proof.
  induction cells as [|cell cells IH]; intros Hall.
  - exists []. repeat split. intros j x Hj. discriminate.
  - destruct (Hall 0%nat ltac:(simpl; lia)) as [x0 H0]. simpl in H0.
    injection H0 as ->.
    destruct IH as (l & Hl & Hlen & Hcells).
    { intros j Hj. apply (Hall (S j)). simpl. lia. }
    exists (x0 :: l). split; [|split].
    + simpl. rewrite Hl. reflexivity.
    + simpl. rewrite Hlen. reflexivity.
    + intros [|j] x Hj; simpl in *; [congruence|apply Hcells; exact Hj].
Qed.

(** One point, when the first six entries of the mapping are a permutation
    of the six cells. *)
Lemma translate_point_permutation (mapping : list nat)
    (point : JointTrajectoryPoint) (m : nat -> nat) :
  (forall i, (i < 6)%nat -> mapping !! i = Some (m i) /\ (m i < 6)%nat) ->
  (forall i i', (i < 6)%nat -> (i' < 6)%nat -> m i = m i' -> i = i') ->
  (forall j, (j < 6)%nat -> exists i, (i < 6)%nat /\ m i = j) ->
  six_values point ->
  exists tp,
    translate_point mapping point = Some tp /\
    tp_time_from_start tp = convert (time_from_start point) /\
    length (tp_positions tp) = 6%nat /\
    length (tp_velocities tp) = 6%nat /\
    forall i, (i < 6)%nat ->
      tp_positions tp !! m i = positions point !! i /\
      tp_velocities tp !! m i = velocities point !! i.
Proof.
  intros Hmap Hinj Hsurj [Hlp Hlv].
  set (p := fun i => default 0%float (positions point !! i)).
  set (v := fun i => default 0%float (velocities point !! i)).
  assert (Hseq : forall i, i ∈ seq 0 6 <-> (i < 6)%nat).
  { intros i. rewrite elem_of_seq. lia. }
  assert (Hp : forall i, (i < 6)%nat -> positions point !! i = Some (p i)).
  { intros i Hi. unfold p.
    destruct (lookup_lt_is_Some_2 (positions point) i ltac:(lia)) as [x ->].
    reflexivity. }
  assert (Hv : forall i, (i < 6)%nat -> velocities point !! i = Some (v i)).
  { intros i Hi. unfold v.
    destruct (lookup_lt_is_Some_2 (velocities point) i ltac:(lia)) as [x ->].
    reflexivity. }
  destruct (translate_fold mapping point m p v (seq 0 6) uninitialised uninitialised)
    as (pos' & vel' & Hfold & Hlp' & Hlv' & Hin & _).
  - reflexivity.
  - reflexivity.
  - apply NoDup_seq.
  - intros i Hi. apply Hseq in Hi. destruct (Hmap i Hi). auto.
  - intros i i' Hi Hi'. apply Hinj; apply Hseq; assumption.
  - destruct (mapM_id_written pos') as (lp & Hmp & Hllp & Hcp).
    { intros j Hj. rewrite Hlp' in Hj. destruct (Hsurj j Hj) as (i & Hi & <-).
      exists (p i). apply Hin, Hseq, Hi. }
    destruct (mapM_id_written vel') as (lv & Hmv & Hllv & Hcv).
    { intros j Hj. rewrite Hlv' in Hj. destruct (Hsurj j Hj) as (i & Hi & <-).
      exists (v i). apply Hin, Hseq, Hi. }
    exists (mkTP lp lv (convert (time_from_start point))).
    split.
    { unfold translate_point. rewrite Hfold. simpl. rewrite Hmp. simpl.
      rewrite Hmv. reflexivity. }
    simpl. split; [reflexivity|]. split; [congruence|]. split; [congruence|].
    intros i Hi. destruct (Hin i (proj2 (Hseq i) Hi)) as [H1 H2].
    rewrite (Hcp _ _ H1), (Hcv _ _ H2), Hp, Hv by exact Hi. auto.
Qed.

Lemma mapM_Forall2 {A B : Type} (f : A -> option B) (P : A -> B -> Prop)
    (l : list A) :
  Forall (fun a => exists b, f a = Some b /\ P a b) l ->
  exists bs, mapM f l = Some bs /\ Forall2 P l bs.
Proof.
  induction 1 as [|a l (b & Hb & HP) _ (bs & Hbs & HF)].
  - exists []. split; [reflexivity|constructor].
  - exists (b :: bs). split.
    + simpl. rewrite Hb. simpl. rewrite Hbs. reflexivity.
    + constructor; assumption.
Qed.

Section Permuted.

Variables (s : server) (goal : Goal).
Hypothesis names_NoDup : NoDup (joint_names_ s).
Hypothesis six_names : length (joint_names_ s) = 6%nat.
Hypothesis same_names : joint_names goal ≡ₚ joint_names_ s.

Lemma reorderMap_in_range (c : nat) (name : string) :
  joint_names_ s !! c = Some name ->
  joint_names goal !! first_index name (joint_names goal) = Some name /\
  (first_index name (joint_names goal) < 6)%nat.
Proof.
  intros Hc.
  assert (Hin : name ∈ joint_names goal).
  { rewrite same_names. eapply list_elem_of_lookup_2. exact Hc. }
  pose proof (first_index_lookup name (joint_names goal) Hin) as Hl.
  split; [exact Hl|].
  apply lookup_lt_Some in Hl.
  rewrite (Permutation_length same_names), six_names in Hl. exact Hl.
Qed.

Lemma translate_point_placed (point : JointTrajectoryPoint) :
  six_values point ->
  exists tp,
    translate_point (reorderMap s (joint_names goal)) point = Some tp /\
    placed s goal point tp.
Proof.
  intros Hsix.
  set (m := fun i => first_index (default String.EmptyString (joint_names_ s !! i))
                                 (joint_names goal)).
  assert (Hname : forall i, (i < 6)%nat ->
                    exists name, joint_names_ s !! i = Some name /\
                                 m i = first_index name (joint_names goal)).
  { intros i Hi. unfold m.
    destruct (lookup_lt_is_Some_2 (joint_names_ s) i ltac:(lia)) as [name Hn].
    exists name. rewrite Hn. auto. }
  destruct (translate_point_permutation (reorderMap s (joint_names goal)) point m)
    as (tp & Htp & Htime & Hlp & Hlv & Hcells).
  - intros i Hi. destruct (Hname i Hi) as (name & Hn & ->).
    split; [apply reorderMap_lookup; exact Hn|].
    apply (reorderMap_in_range i name Hn).
  - intros i i' Hi Hi' Heq.
    destruct (Hname i Hi) as (name & Hn & Hm).
    destruct (Hname i' Hi') as (name' & Hn' & Hm').
    destruct (reorderMap_in_range i name Hn) as [Hl _].
    destruct (reorderMap_in_range i' name' Hn') as [Hl' _].
    rewrite <- Hm in Hl. rewrite <- Hm', <- Heq in Hl'.
    assert (name = name') by congruence. subst name'.
    eapply NoDup_lookup; [exact names_NoDup|exact Hn|exact Hn'].
  - intros j Hj.
    assert (Hlen : length (joint_names goal) = 6%nat)
      by (rewrite (Permutation_length same_names); exact six_names).
    destruct (lookup_lt_is_Some_2 (joint_names goal) j ltac:(lia)) as [a Ha].
    assert (Hin : a ∈ joint_names_ s).
    { rewrite <- same_names. eapply list_elem_of_lookup_2. exact Ha. }
    apply list_elem_of_lookup_1 in Hin as [i Hi].
    assert (Hi6 : (i < 6)%nat).
    { apply lookup_lt_Some in Hi. rewrite six_names in Hi. exact Hi. }
    exists i. split; [exact Hi6|].
    destruct (Hname i Hi6) as (name & Hn & ->).
    assert (name = a) by congruence. subst name.
    apply first_index_NoDup; [|exact Ha].
    rewrite same_names. exact names_NoDup.
  - exact Hsix.
  - exists tp. split; [exact Htp|].
    split; [exact Htime|]. split; [exact Hlp|]. split; [exact Hlv|].
    intros c name Hc.
    assert (Hc6 : (c < 6)%nat).
    { apply lookup_lt_Some in Hc. rewrite six_names in Hc. exact Hc. }
    destruct (Hname c Hc6) as (name' & Hn & Hm).
    assert (name' = name) by congruence. subst name'.
    rewrite <- Hm. apply Hcells. exact Hc6.
Qed.

Lemma translate_goal_placed :
  Forall six_values (points goal) ->
  points goal <> [] ->
  exists traj pts,
    translate_goal s goal = Some traj /\
    (traj = pts \/ traj = t0_point s :: pts) /\
    Forall2 (placed s goal) (points goal) pts.
Proof.
  intros Hsix Hne.
  destruct (mapM_Forall2 (translate_point (reorderMap s (joint_names goal)))
              (placed s goal) (points goal)) as (pts & Hpts & HF).
  { eapply Forall_impl; [exact Hsix|]. intros point. apply translate_point_placed. }
  unfold translate_goal.
  destruct (points goal) as [|fp rest] eqn:Epts; [contradiction|].
  cbn [lookup list_lookup mbind option_bind]. rewrite Hpts. simpl.
  destruct (0 <? convert (time_from_start fp)).
  - exists (t0_point s :: pts), pts. split; [reflexivity|]. split; [right; reflexivity|exact HF].
  - exists pts, pts. split; [reflexivity|]. split; [left; reflexivity|exact HF].
Qed.

(** X8: when the goal names the six configured joints, each once and in
    any order, and every point has six positions and six velocities, the
    translation is defined; it yields one point per goal point, after the
    synthesized one if there is one, and the entries the goal gives at
    index [c] are found at the index that [reorderMap] computed for the
    joint configured at [c]. *)
Theorem translate_goal_places_entries_by_the_mapping :
  Forall six_values (points goal) ->
  points goal <> [] ->
  exists traj pts,
    translate_goal s goal = Some traj /\
    (traj = pts \/ traj = t0_point s :: pts) /\
    Forall2 (placed s goal) (points goal) pts.
Proof. exact translate_goal_placed. Qed.

(** X9: under the same conditions the translated points are in the
    configured order whenever the mapping is its own inverse, as it is
    for a goal in the configured order or one that exchanges pairs of
    joints. *)
Theorem translate_goal_canonical_when_mapping_is_its_own_inverse :
  Forall six_values (points goal) ->
  points goal <> [] ->
  (forall c idx : nat,
     reorderMap s (joint_names goal) !! c = Some idx ->
     reorderMap s (joint_names goal) !! idx = Some c) ->
  exists traj pts,
    translate_goal s goal = Some traj /\
    (traj = pts \/ traj = t0_point s :: pts) /\
    in_canonical_order s goal pts.
Proof.
  intros Hsix Hne Hinv.
  destruct (translate_goal_placed Hsix Hne) as (traj & pts & Htr & Hshape & HF).
  exists traj, pts. split; [exact Htr|]. split; [exact Hshape|].
  intros k c point tp name Hk Htp Hc.
  pose proof (Forall2_lookup_lr _ _ _ _ _ _ HF Hk Htp) as (_ & _ & _ & Hcells).
  pose proof (reorderMap_lookup s (joint_names goal) c name Hc) as Hm.
  apply Hinv in Hm.
  destruct (reorderMap_in_range c name Hc) as [_ Hlt].
  destruct (lookup_lt_is_Some_2 (joint_names_ s)
              (first_index name (joint_names goal)) ltac:(lia)) as [name' Hn'].
  rewrite (reorderMap_lookup s (joint_names goal) _ name' Hn') in Hm.
  injection Hm as Hm.
  specialize (Hcells _ _ Hn'). rewrite Hm in Hcells. exact Hcells.
Qed.

End Permuted.

Lemma translate_goal_places_witness :
  exists traj pts,
    translate_goal Ex.srv0 Ex.rotated_goal = Some traj /\
    (traj = pts \/ traj = t0_point Ex.srv0 :: pts) /\
    Forall2 (placed Ex.srv0 Ex.rotated_goal) (points Ex.rotated_goal) pts.
Proof.
  apply (translate_goal_places_entries_by_the_mapping Ex.srv0 Ex.rotated_goal).
  - refine (bool_decide_unpack _ _). vm_compute. exact I.
  - reflexivity.
  - refine (bool_decide_unpack _ _). vm_compute. exact I.
  - repeat constructor.
  - discriminate.
Defined.

Lemma translate_goal_canonical_witness :
  exists traj pts,
    translate_goal Ex.srv0 Ex.swapped_goal = Some traj /\
    (traj = pts \/ traj = t0_point Ex.srv0 :: pts) /\
    in_canonical_order Ex.srv0 Ex.swapped_goal pts.
Proof.
  apply (translate_goal_canonical_when_mapping_is_its_own_inverse
           Ex.srv0 Ex.swapped_goal).
  - refine (bool_decide_unpack _ _). vm_compute. exact I.
  - reflexivity.
  - refine (bool_decide_unpack _ _). vm_compute. exact I.
  - repeat constructor.
  - discriminate.
  - intros c idx H.
    do 6 (destruct c as [|c]; [injection H as <-; reflexivity|]).
    discriminate.
Defined.

(* ===================================================================== *)
(** ** The mutex and the fields it protects *)
(* ===================================================================== *)

(** A step of a thread that keeps the discipline takes the mutex when it is
    free, releases it when the thread holds it, or leaves it alone. *)
Lemma step_thread_mutex (t : tid) (ts ts' : tstate) (w w' : world) :
  tsafe t (owns t w) ts ->
  step_thread t ts w = Some (ts', w') ->
  tj_mutex_ w' = tj_mutex_ w \/
  (tj_mutex_ w = None /\ tj_mutex_ w' = Some t) \/
  (tj_mutex_ w = Some t /\ tj_mutex_ w' = None).
Proof.
  destruct ts as [p|pred k|timed_out pred k|]; simpl; try discriminate.
  - destruct p as [a|k|f k|k|k|k|pred k|c k|e k|k|fin]; simpl;
      try discriminate.
    + intros _ [= <- <-]. left. reflexivity.
    + intros _ [= <- <-]. left. reflexivity.
    + intros _. destruct (tj_mutex_ w) eqn:Hm; intros [= <- <-]; auto.
    + intros _. destruct (tj_mutex_ w) eqn:Hm; [discriminate|].
      intros [= <- <-]. auto.
    + intros [Hh _] [= <- <-]. apply owns_true in Hh. auto.
    + intros [Hh _]. apply owns_true in Hh.
      destruct (pred (srv w)); intros [= <- <-]; auto.
    + intros _ [= <- <-]. left. reflexivity.
    + intros _ [= <- <-]. left. reflexivity.
    + intros _ [= <- <-]. left. destruct (ends_process fin); reflexivity.
  - intros _. destruct (tj_mutex_ w) eqn:Hm; [discriminate|].
    intros [= <- <-]. auto.
Qed.

(** [has_goal_] is set by the spinner and cleared by the execution thread,
    each with the mutex held. *)
Lemma step_thread_has_goal (t : tid) (ts ts' : tstate) (w w' : world) :
  tsafe t (owns t w) ts ->
  step_thread t ts w = Some (ts', w') ->
  has_goal_ (srv w') = has_goal_ (srv w) \/
  (t = Spinner /\ tj_mutex_ w = Some Spinner /\ has_goal_ (srv w') = true) \/
  (t = TrajThread /\ tj_mutex_ w = Some TrajThread /\ has_goal_ (srv w') = false).
Proof.
  destruct ts as [p|pred k|timed_out pred k|]; simpl; try discriminate.
  - destruct p as [a|k|f k|k|k|k|pred k|c k|e k|k|fin]; simpl;
      try discriminate.
    + intros _ [= <- <-]. left. reflexivity.
    + intros [Hw _] [= <- <-]. destruct f as [st|b|b|gh|q|qd]; simpl in *;
        try (left; reflexivity).
      destruct b; destruct Hw as [-> Hh]; apply owns_true in Hh; auto.
    + intros _. destruct (tj_mutex_ w); intros [= <- <-]; left; reflexivity.
    + intros _. destruct (tj_mutex_ w); [discriminate|].
      intros [= <- <-]. left. reflexivity.
    + intros _ [= <- <-]. left. reflexivity.
    + intros _. destruct (pred (srv w)); intros [= <- <-]; left; reflexivity.
    + intros _ [= <- <-]. left. reflexivity.
    + intros _ [= <- <-]. left. reflexivity.
    + intros _ [= <- <-]. left. destruct (ends_process fin); reflexivity.
  - intros _. destruct (tj_mutex_ w); [discriminate|].
    intros [= <- <-]. left. reflexivity.
Qed.

(** [interrupt_traj_] is cleared by the spinner with the mutex held. *)
Lemma step_thread_interrupt (t : tid) (ts ts' : tstate) (w w' : world) :
  tsafe t (owns t w) ts ->
  step_thread t ts w = Some (ts', w') ->
  interrupt_traj_ (srv w) = true ->
  interrupt_traj_ (srv w') = false ->
  t = Spinner /\ tj_mutex_ w = Some Spinner.
Proof.
  destruct ts as [p|pred k|timed_out pred k|]; simpl; try discriminate.
  - destruct p as [a|k|f k|k|k|k|pred k|c k|e k|k|fin]; simpl;
      try discriminate.
    + intros _ [= <- <-]. congruence.
    + intros [Hw _] [= <- <-]. destruct f as [st|b|b|gh|q|qd]; simpl in *;
        try congruence.
      destruct b; [discriminate|]. intros _ _.
      destruct Hw as [-> Hh]. apply owns_true in Hh. auto.
    + intros _. destruct (tj_mutex_ w); intros [= <- <-]; simpl; congruence.
    + intros _. destruct (tj_mutex_ w); [discriminate|].
      intros [= <- <-]. simpl. congruence.
    + intros _ [= <- <-]. simpl. congruence.
    + intros _. destruct (pred (srv w)); intros [= <- <-]; simpl; congruence.
    + intros _ [= <- <-]. simpl. congruence.
    + intros _ [= <- <-]. simpl. congruence.
    + intros _ [= <- <-]. destruct (ends_process fin); simpl; congruence.
  - intros _. destruct (tj_mutex_ w); [discriminate|].
    intros [= <- <-]. simpl. congruence.
Qed.

Section Locks.

Variable to_string : float -> string.
Variable Duration_fromSec : float -> Z.

(** A step is a step of one thread on the world, or leaves the world as it
    is. *)
Lemma step_world (c c' : config) (l : label) :
  step to_string Duration_fromSec c l = Some c' ->
  (exists t ts,
     l = Step t /\
     step_thread t (thread t c) (world_of c) = Some (ts, world_of c')) \/
  world_of c' = world_of c.
Proof.
  unfold step. destruct (exited (world_of c)); [discriminate|].
  destruct l as [t|t env|t timed_out|goal|gh|state|q qd|].
  - destruct (step_thread t (thread t c) (world_of c)) as [[ts w]|] eqn:Hst;
      [|discriminate].
    simpl. intros [= <-]. left. exists t, ts.
    rewrite world_of_set_thread. auto.
  - destruct (thread t c) as [p| | |]; try discriminate.
    destruct p; try discriminate. intros [= <-].
    right. apply world_of_set_thread.
  - destruct (thread t c) as [|pred k| |]; try discriminate. intros [= <-].
    right. apply world_of_set_thread.
  - destruct (idle (spinner c)); [|discriminate]. intros [= <-]. right. reflexivity.
  - destruct (idle (spinner c)); [|discriminate]. intros [= <-]. right. reflexivity.
  - destruct (idle (state_thread c)); [|discriminate]. intros [= <-]. right. reflexivity.
  - destruct (idle (rt_thread c)); [|discriminate]. intros [= <-]. right. reflexivity.
  - destruct (idle (tj_thread_ c)); [|discriminate]. intros [= <-]. right.
    reflexivity.
Qed.

(** X10: in every state the server can reach, a step changes the owner of
    [tj_mutex_] only in two ways: a thread takes the mutex when it is free,
    or the thread that holds it releases it.  No handler unlocks a mutex it
    does not hold, and none takes it from another thread. *)
Theorem tj_mutex_released_only_by_its_holder (c c' : config) (l : label) :
  reachable to_string Duration_fromSec c ->
  step to_string Duration_fromSec c l = Some c' ->
  tj_mutex_ (world_of c') = tj_mutex_ (world_of c) \/
  exists t,
    l = Step t /\
    ((tj_mutex_ (world_of c) = None /\ tj_mutex_ (world_of c') = Some t) \/
     (tj_mutex_ (world_of c) = Some t /\ tj_mutex_ (world_of c') = None)).
Proof.
  intros Hr Hstep. apply reachable_disciplined in Hr.
  destruct (step_world c c' l Hstep) as [(t & ts & -> & Hst)|Hw].
  - destruct (step_thread_mutex t _ _ _ _ (Hr t) Hst) as [He|Hch]; [left; exact He|].
    right. exists t. auto.
  - left. rewrite Hw. reflexivity.
Qed.

(** X11: in every state the server can reach, a step that changes
    [curr_gh_] is a step of the spinner with the mutex held; a step that
    sets [has_goal_] is one too; and a step that clears [has_goal_] is a
    step of the execution thread with the mutex held. *)
Theorem goal_slot_written_with_the_mutex_held (c c' : config) (l : label) :
  reachable to_string Duration_fromSec c ->
  step to_string Duration_fromSec c l = Some c' ->
  (curr_gh_ (srv (world_of c')) <> curr_gh_ (srv (world_of c)) ->
   l = Step Spinner /\ tj_mutex_ (world_of c) = Some Spinner) /\
  (has_goal_ (srv (world_of c')) <> has_goal_ (srv (world_of c)) ->
   (l = Step Spinner /\ tj_mutex_ (world_of c) = Some Spinner /\
    has_goal_ (srv (world_of c')) = true) \/
   (l = Step TrajThread /\ tj_mutex_ (world_of c) = Some TrajThread /\
    has_goal_ (srv (world_of c')) = false)).
Proof.
  intros Hr Hstep. apply reachable_disciplined in Hr. split.
  - intros Hne.
    destruct (step_curr_gh to_string Duration_fromSec c c' l Hr Hstep)
      as [He|[-> Ho]]; [contradiction|].
    apply owns_true in Ho. auto.
  - intros Hne.
    destruct (step_world c c' l Hstep) as [(t & ts & -> & Hst)|Hw].
    + destruct (step_thread_has_goal t _ _ _ _ (Hr t) Hst)
        as [He|[(-> & Hm & Hg)|(-> & Hm & Hg)]]; [contradiction| |]; auto.
    + exfalso. apply Hne. rewrite Hw. reflexivity.
Qed.

(** X27: in every state the server can reach, [interrupt_traj_], once
    set by a cancellation, a safety stop or an eviction, is cleared only by
    a step of the spinner made with the mutex held, that is, by the
    admission of the next goal at line 255; until then it stays set. *)
Theorem interrupt_cleared_only_by_an_admission (c c' : config) (l : label) :
  reachable to_string Duration_fromSec c ->
  step to_string Duration_fromSec c l = Some c' ->
  interrupt_traj_ (srv (world_of c)) = true ->
  interrupt_traj_ (srv (world_of c')) = false ->
  l = Step Spinner /\ tj_mutex_ (world_of c) = Some Spinner.
Proof.
  intros Hr Hstep Hset Hclear. apply reachable_disciplined in Hr.
  destruct (step_world c c' l Hstep) as [(t & ts & -> & Hst)|Hw].
  - destruct (step_thread_interrupt t _ _ _ _ (Hr t) Hst Hset Hclear) as [-> Hm].
    auto.
  - rewrite Hw in Hclear. congruence.
Qed.

End Locks.

Lemma run_reaches_after_8 :
  run Ex.to_string Ex.Duration_fromSec Run.c0 (take 8 Run.to_try_lock)
  = Some (Run.after 8).
Proof.
  unfold Run.after.
  destruct (run Ex.to_string Ex.Duration_fromSec Run.c0 (take 8 Run.to_try_lock))
    eqn:Hrun; [reflexivity|].
  exfalso. vm_compute in Hrun. discriminate Hrun.
Qed.

Lemma run_reaches_after_11 :
  run Ex.to_string Ex.Duration_fromSec Run.c0 (take 11 Run.to_try_lock)
  = Some (Run.after 11).
Proof.
  unfold Run.after.
  destruct (run Ex.to_string Ex.Duration_fromSec Run.c0 (take 11 Run.to_try_lock))
    eqn:Hrun; [reflexivity|].
  exfalso. vm_compute in Hrun. discriminate Hrun.
Qed.

Lemma tj_mutex_witness :
  exists c',
    step Ex.to_string Ex.Duration_fromSec (Run.after 8) (Step Spinner) = Some c' /\
    (tj_mutex_ (world_of c') = tj_mutex_ (world_of (Run.after 8)) \/
     exists t,
       Step Spinner = Step t /\
       ((tj_mutex_ (world_of (Run.after 8)) = None /\
         tj_mutex_ (world_of c') = Some t) \/
        (tj_mutex_ (world_of (Run.after 8)) = Some t /\
         tj_mutex_ (world_of c') = None))).
Proof.
  destruct (step Ex.to_string Ex.Duration_fromSec (Run.after 8) (Step Spinner))
    as [c'|] eqn:Hstep.
  2:{ exfalso. vm_compute in Hstep. discriminate Hstep. }
  exists c'. split; [reflexivity|].
  apply (tj_mutex_released_only_by_its_holder Ex.to_string Ex.Duration_fromSec
           (Run.after 8) c' (Step Spinner)).
  - exists Ex.ur_joints, 10%float, Ex.zeros, Ex.zeros, true, true,
      (take 8 Run.to_try_lock).
    exact run_reaches_after_8.
  - exact Hstep.
Defined.

Lemma goal_slot_witness :
  exists c',
    step Ex.to_string Ex.Duration_fromSec (Run.after 11) (Step Spinner) = Some c' /\
    has_goal_ (srv (world_of (Run.after 11))) = false /\
    has_goal_ (srv (world_of c')) = true /\
    tj_mutex_ (world_of (Run.after 11)) = Some Spinner.
Proof.
  destruct (step Ex.to_string Ex.Duration_fromSec (Run.after 11) (Step Spinner))
    as [c'|] eqn:Hstep.
  2:{ exfalso. vm_compute in Hstep. discriminate Hstep. }
  exists c'. split; [reflexivity|].
  assert (H0 : has_goal_ (srv (world_of (Run.after 11))) = false)
    by (vm_compute; reflexivity).
  assert (H1 : has_goal_ (srv (world_of c')) = true).
  { remember (has_goal_ (srv (world_of c'))) as b eqn:Eb.
    assert (Hsome : Some b
                    = option_map (fun c => has_goal_ (srv (world_of c)))
                        (step Ex.to_string Ex.Duration_fromSec (Run.after 11)
                           (Step Spinner)))
      by (rewrite Hstep, Eb; reflexivity).
    vm_compute in Hsome. injection Hsome as ->. reflexivity. }
  split; [exact H0|]. split; [exact H1|].
  assert (Hr : reachable Ex.to_string Ex.Duration_fromSec (Run.after 11)).
  { exists Ex.ur_joints, 10%float, Ex.zeros, Ex.zeros, true, true,
      (take 11 Run.to_try_lock).
    exact run_reaches_after_11. }
  destruct (proj2 (goal_slot_written_with_the_mutex_held
                     Ex.to_string Ex.Duration_fromSec
                     (Run.after 11) c' (Step Spinner) Hr Hstep))
    as [(_ & Hm & _)|(Hl & _)].
  - rewrite H0, H1. discriminate.
  - exact Hm.
  - discriminate Hl.
Defined.

Lemma run_reaches_before_clear :
  run Ex.to_string Ex.Duration_fromSec Run.c0 Run.to_clear = Some Run.before_clear.
Proof.
  unfold Run.before_clear.
  destruct (run Ex.to_string Ex.Duration_fromSec Run.c0 Run.to_clear) eqn:Hrun;
    [reflexivity|].
  exfalso. vm_compute in Hrun. discriminate Hrun.
Qed.

Lemma interrupt_cleared_witness :
  exists c',
    step Ex.to_string Ex.Duration_fromSec Run.before_clear (Step Spinner) = Some c' /\
    interrupt_traj_ (srv (world_of Run.before_clear)) = true /\
    interrupt_traj_ (srv (world_of c')) = false /\
    tj_mutex_ (world_of Run.before_clear) = Some Spinner.
Proof.
  destruct (step Ex.to_string Ex.Duration_fromSec Run.before_clear (Step Spinner))
    as [c'|] eqn:Hstep.
  2:{ exfalso. vm_compute in Hstep. discriminate Hstep. }
  exists c'. split; [reflexivity|].
  assert (H0 : interrupt_traj_ (srv (world_of Run.before_clear)) = true)
    by (vm_compute; reflexivity).
  assert (H1 : interrupt_traj_ (srv (world_of c')) = false).
  { remember (interrupt_traj_ (srv (world_of c'))) as b eqn:Eb.
    assert (Hsome : Some b
                    = option_map (fun c => interrupt_traj_ (srv (world_of c)))
                        (step Ex.to_string Ex.Duration_fromSec Run.before_clear
                           (Step Spinner)))
      by (rewrite Hstep, Eb; reflexivity).
    vm_compute in Hsome. injection Hsome as ->. reflexivity. }
  split; [exact H0|]. split; [exact H1|].
  assert (Hr : reachable Ex.to_string Ex.Duration_fromSec Run.before_clear).
  { exists Ex.ur_joints, 10%float, Ex.zeros, Ex.zeros, true, true, Run.to_clear.
    exact run_reaches_before_clear. }
  exact (proj2 (interrupt_cleared_only_by_an_admission
                  Ex.to_string Ex.Duration_fromSec
                  Run.before_clear c' (Step Spinner) Hr Hstep H0 H1)).
Defined.

(* ===================================================================== *)
(** ** The results of one execution *)
(* ===================================================================== *)

Lemma result_calls_app (a b : list out) :
  result_calls (a ++ b) = (result_calls a + result_calls b)%nat.
Proof. induction a as [|o a IH]; simpl; [reflexivity|]. rewrite IH. lia. Qed.

(** The polling loop reports at most one result, and none when it is left
    on the timeout. *)
Lemma poll_loop_result_calls (timeout : Z) (back : TrajectoryPoint)
    (res : Result) (obs : list poll_obs) :
  (result_calls (fst (fst (poll_loop timeout back res obs))) <= 1)%nat /\
  (snd (poll_loop timeout back res obs) = Some true ->
   result_calls (fst (fst (poll_loop timeout back res obs))) = 0%nat).
Proof.
  induction obs as [|o obs IH]; simpl; [split; [lia|reflexivity]|].
  destruct ((ob_now o <? timeout) || inMotion (ob_qd_cond o)); simpl;
    [|split; [lia|reflexivity]].
  destruct (reachedGoal (ob_q o) (tp_positions back) && negb (inMotion (ob_qd o)));
    simpl; [split; [lia|discriminate]|].
  destruct (ob_interrupt o); simpl; [split; [lia|reflexivity]|].
  destruct (poll_loop timeout back res obs) as [[outs res'] r]. simpl in *.
  exact IH.
Qed.

(** A translated trajectory has a last point. *)
Lemma translate_goal_last (s : server) (goal : Goal)
    (trajectory : list TrajectoryPoint) :
  translate_goal s goal = Some trajectory -> exists back, last trajectory = Some back.
Proof.
  unfold translate_goal.
  destruct (points goal) as [|fp rest] eqn:Hp; [discriminate|].
  cbn [lookup list_lookup mbind option_bind].
  destruct (mapM _ (fp :: rest)) as [pts|] eqn:Hm; [|discriminate].
  simpl. intros [= <-].
  apply length_mapM in Hm. simpl in Hm.
  destruct pts as [|tp pts]; [discriminate|].
  destruct (last_is_Some (tp :: pts)) as [_ Hl].
  destruct Hl as [back Hb]; [discriminate|].
  exists back. rewrite last_app, Hb. reflexivity.
Qed.

Section Results.

Variable Duration_fromSec : float -> Z.

(** X13: the execution of one goal makes at most one call that gives the
    goal a terminal state, except in smooth mode after a hang that does not
    end the process, where the abort for the hang can be followed by one
    more. *)
Theorem one_result_for_a_goal_unless_a_hang_is_survived (s : server)
    (env : goal_env) :
  (result_calls (fst (trajectoryThread_goal Duration_fromSec s env))
   <= if use_smooth_trajectory_ s && negb (follower_returns env)
         && negb (kill_on_hang_ s)
      then 2 else 1)%nat.
Proof.
  unfold trajectoryThread_goal.
  destruct (curr_gh_ s) as [gh|]; [|simpl; destruct (_ && _ && _); lia].
  destruct (translate_goal s (getGoal gh)) as [trajectory|];
    [|simpl; destruct (_ && _ && _); lia].
  destruct (last trajectory) as [back|]; [|simpl; destruct (_ && _ && _); lia].
  destruct (use_smooth_trajectory_ s); simpl andb.
  - unfold smooth_branch.
    destruct (follower_returns env); simpl negb; cbv iota; simpl andb.
    + match goal with
      | |- context [poll_loop ?t ?b ?r ?o] =>
          pose proof (poll_loop_result_calls t b r o) as [Hle Hto];
          destruct (poll_loop t b r o) as [[outs res'] r']
      end.
      simpl in Hle, Hto.
      destruct r' as [[]|]; simpl; rewrite ?result_calls_app; simpl.
      * rewrite Hto by reflexivity. lia.
      * lia.
      * lia.
    + destruct (kill_on_hang_ s); simpl; [lia|].
      match goal with
      | |- context [poll_loop ?t ?b ?r ?o] =>
          pose proof (poll_loop_result_calls t b r o) as [Hle Hto];
          destruct (poll_loop t b r o) as [[outs res'] r']
      end.
      simpl in Hle, Hto.
      destruct r' as [[]|]; simpl; rewrite ?result_calls_app; simpl.
      * rewrite Hto by reflexivity. lia.
      * lia.
      * lia.
  - unfold timed_branch.
    destruct (follower_returns env); simpl.
    + destruct (interrupt_after env); simpl; lia.
    + destruct (kill_on_hang_ s); simpl; lia.
Qed.

(** X14: when the follower returns false and [kill_on_hang_] is set, the
    goal is aborted with the code -100 and the text "Robot has hung. ", the
    thread sleeps a quarter of a second and the process exits, in either
    mode; the follower is not stopped and [has_goal_] is not cleared. *)
Theorem hang_with_kill_on_hang_ends_the_process (s : server) (env : goal_env)
    (gh : GoalHandle) (trajectory : list TrajectoryPoint) :
  curr_gh_ s = Some gh ->
  translate_goal s (getGoal gh) = Some trajectory ->
  follower_returns env = false ->
  kill_on_hang_ s = true ->
  trajectoryThread_goal Duration_fromSec s env
  = ([Out (if use_smooth_trajectory_ s
           then StartSmoothTrajectory trajectory
           else StartTimedTrajectory trajectory);
      OnCurr (setAborted (mkResult (-100) "Robot has hung. ") "Robot has hung. ");
      Out (RosSleep 0.25); Out (ProcessExit 0)],
     Exited).
Proof.
  intros Hgh Htr Hf Hk. unfold trajectoryThread_goal. rewrite Hgh, Htr.
  destruct (translate_goal_last s _ _ Htr) as [back ->].
  unfold smooth_branch, timed_branch. rewrite Hf, Hk.
  destruct (use_smooth_trajectory_ s); reflexivity.
Qed.

(** X15: smooth mode, the follower has returned true.  At the first round
    that finds the robot within tolerance of the last point and at rest,
    while the loop condition holds, the goal is reported Succeeded with the
    code SUCCESSFUL, also when [interrupt_traj_] is set in that round: the
    test of line 364 comes before the one of line 373. *)
Theorem smooth_success_at_first_round_at_goal (s : server) (env : goal_env)
    (trajectory : list TrajectoryPoint) (back : TrajectoryPoint) (t : float)
    (res : Result) (pre : list poll_obs) (o : poll_obs) (post : list poll_obs) :
  follower_returns env = true ->
  polls env = pre ++ o :: post ->
  let timeout := now_at_start env + Duration_fromSec (t * 1.5)%float in
  Forall (fun o' => keeps_polling timeout o' = true /\ at_goal back o' = false /\
                    ob_interrupt o' = false) pre ->
  keeps_polling timeout o = true ->
  at_goal back o = true ->
  smooth_branch Duration_fromSec s env trajectory back t res
  = ([Out (StartSmoothTrajectory trajectory); Out (RosSleep (t * 0.1)%float)]
     ++ replicate (length pre) (Out (Usleep 1000))
     ++ [OnCurr (setSucceeded (set_error_code SUCCESSFUL res));
         Out FollowerStop],
     Released).
Proof.
  intros Hf Hp timeout Hpre Hk Hg.
  unfold smooth_branch. rewrite Hf, Hp. simpl negb. cbv iota. simpl andb. cbv iota.
  fold timeout. rewrite poll_loop_app by exact Hpre.
  simpl poll_loop. unfold keeps_polling, at_goal in Hk, Hg. rewrite Hk, Hg.
  simpl. rewrite <- app_assoc. reflexivity.
Qed.

(** X16: smooth mode, the follower has returned true.  At the first round
    that finds [interrupt_traj_] set, the robot not at rest at the goal and
    the loop condition true, the loop is left, the follower is stopped and
    the goal is released with no result: the result is the business of the
    handler that set the flag. *)
Theorem smooth_interrupt_leaves_without_a_result (s : server) (env : goal_env)
    (trajectory : list TrajectoryPoint) (back : TrajectoryPoint) (t : float)
    (res : Result) (pre : list poll_obs) (o : poll_obs) (post : list poll_obs) :
  follower_returns env = true ->
  polls env = pre ++ o :: post ->
  let timeout := now_at_start env + Duration_fromSec (t * 1.5)%float in
  Forall (fun o' => keeps_polling timeout o' = true /\ at_goal back o' = false /\
                    ob_interrupt o' = false) pre ->
  keeps_polling timeout o = true ->
  at_goal back o = false ->
  ob_interrupt o = true ->
  smooth_branch Duration_fromSec s env trajectory back t res
  = ([Out (StartSmoothTrajectory trajectory); Out (RosSleep (t * 0.1)%float)]
     ++ replicate (length pre) (Out (Usleep 1000))
     ++ [Out FollowerStop],
     Released) /\
  result_calls (fst (smooth_branch Duration_fromSec s env trajectory back t res))
  = 0%nat.
Proof.
  intros Hf Hp timeout Hpre Hk Hg Hi.
  assert (Heq : smooth_branch Duration_fromSec s env trajectory back t res
                = ([Out (StartSmoothTrajectory trajectory);
                    Out (RosSleep (t * 0.1)%float)]
                   ++ replicate (length pre) (Out (Usleep 1000))
                   ++ [Out FollowerStop],
                   Released)).
  { unfold smooth_branch. rewrite Hf, Hp. simpl negb. cbv iota. simpl andb. cbv iota.
    fold timeout. rewrite poll_loop_app by exact Hpre.
    simpl poll_loop. unfold keeps_polling, at_goal in Hk, Hg. rewrite Hk, Hg, Hi.
    simpl. rewrite app_nil_r. reflexivity. }
  split; [exact Heq|]. rewrite Heq. simpl.
  rewrite result_calls_app. simpl.
  clear. induction (length pre) as [|n IH]; simpl; lia.
Qed.

End Results.

Lemma hang_with_kill_on_hang_witness :
  trajectoryThread_goal Ex.Duration_fromSec
    (set_params false true (set_curr_gh (mkGH 0 Ex.hold_goal) Ex.srv0))
    (mkEnv false false 0 [])
  = ([Out (StartTimedTrajectory
             [mkTP Ex.zeros Ex.zeros 0; mkTP Ex.zeros Ex.zeros 4000000]);
      OnCurr (setAborted (mkResult (-100) "Robot has hung. ") "Robot has hung. ");
      Out (RosSleep 0.25); Out (ProcessExit 0)],
     Exited).
Proof.
  exact (hang_with_kill_on_hang_ends_the_process Ex.Duration_fromSec
           (set_params false true (set_curr_gh (mkGH 0 Ex.hold_goal) Ex.srv0))
           (mkEnv false false 0 []) (mkGH 0 Ex.hold_goal)
           [mkTP Ex.zeros Ex.zeros 0; mkTP Ex.zeros Ex.zeros 4000000]
           eq_refl eq_refl eq_refl eq_refl).
Defined.

Lemma smooth_success_witness :
  smooth_branch Ex.Duration_fromSec Ex.srv0
    (mkEnv true false 0
       [Ex.round_at_rest 1000000000;
        mkObs 2000000000 Ex.zeros Ex.ones Ex.zeros true])
    [mkTP Ex.zeros Ex.zeros 0; mkTP Ex.ones Ex.zeros 4000000]
    (mkTP Ex.ones Ex.zeros 4000000) 4%float (mkResult 0 "")
  = ([Out (StartSmoothTrajectory
             [mkTP Ex.zeros Ex.zeros 0; mkTP Ex.ones Ex.zeros 4000000]);
      Out (RosSleep (4 * 0.1)%float)]
     ++ replicate 1 (Out (Usleep 1000))
     ++ [OnCurr (setSucceeded (mkResult SUCCESSFUL "")); Out FollowerStop],
     Released).
Proof.
  apply (smooth_success_at_first_round_at_goal Ex.Duration_fromSec Ex.srv0
           (mkEnv true false 0
              [Ex.round_at_rest 1000000000;
               mkObs 2000000000 Ex.zeros Ex.ones Ex.zeros true])
           [mkTP Ex.zeros Ex.zeros 0; mkTP Ex.ones Ex.zeros 4000000]
           (mkTP Ex.ones Ex.zeros 4000000) 4%float (mkResult 0 "")
           [Ex.round_at_rest 1000000000]
           (mkObs 2000000000 Ex.zeros Ex.ones Ex.zeros true) []).
  - reflexivity.
  - reflexivity.
  - repeat constructor.
  - reflexivity.
  - reflexivity.
Defined.

Lemma smooth_interrupt_witness :
  smooth_branch Ex.Duration_fromSec Ex.srv0
    (mkEnv true false 0
       [Ex.round_moving 1000000000;
        mkObs 2000000000 Ex.zeros Ex.zeros Ex.zeros true])
    [mkTP Ex.zeros Ex.zeros 0; mkTP Ex.ones Ex.zeros 4000000]
    (mkTP Ex.ones Ex.zeros 4000000) 4%float (mkResult 0 "")
  = ([Out (StartSmoothTrajectory
             [mkTP Ex.zeros Ex.zeros 0; mkTP Ex.ones Ex.zeros 4000000]);
      Out (RosSleep (4 * 0.1)%float)]
     ++ replicate 1 (Out (Usleep 1000))
     ++ [Out FollowerStop],
     Released).
Proof.
  apply (smooth_interrupt_leaves_without_a_result Ex.Duration_fromSec Ex.srv0
           (mkEnv true false 0
              [Ex.round_moving 1000000000;
               mkObs 2000000000 Ex.zeros Ex.zeros Ex.zeros true])
           [mkTP Ex.zeros Ex.zeros 0; mkTP Ex.ones Ex.zeros 4000000]
           (mkTP Ex.ones Ex.zeros 4000000) 4%float (mkResult 0 "")
           [Ex.round_moving 1000000000]
           (mkObs 2000000000 Ex.zeros Ex.zeros Ex.zeros true) []).
  - reflexivity.
  - reflexivity.
  - repeat constructor.
  - reflexivity.
  - reflexivity.
  - reflexivity.
Defined.

(* ===================================================================== *)
(** ** Readings and limits that are not numbers *)
(* ===================================================================== *)

Lemma Prim2SF_nan (x : float) :
  is_nan x = true -> FloatOps.Prim2SF x = SpecFloat.S754_nan.
Proof. intros H. unfold FloatOps.Prim2SF. rewrite H. reflexivity. Qed.

(** Nothing is below a NaN, and a NaN is below nothing. *)
Lemma ltb_nan_r (x y : float) : is_nan y = true -> (x <? y)%float = false.
Proof.
  intros H. rewrite FloatAxioms.ltb_spec, (Prim2SF_nan y H).
  destruct (FloatOps.Prim2SF x); reflexivity.
Qed.

Lemma ltb_nan_l (x y : float) : is_nan x = true -> (x <? y)%float = false.
Proof.
  intros H. rewrite FloatAxioms.ltb_spec, (Prim2SF_nan x H).
  reflexivity.
Qed.

Lemma ltb_abs_sub_nan (x q g : float) :
  is_nan q = true -> (x <? abs (q - g))%float = false.
Proof.
  intros H.
  rewrite FloatAxioms.ltb_spec, FloatAxioms.abs_spec, FloatAxioms.sub_spec,
    (Prim2SF_nan q H).
  destruct (FloatOps.Prim2SF x); reflexivity.
Qed.

Lemma ltb_abs_nan (x v : float) :
  is_nan v = true -> (x <? abs v)%float = false.
Proof.
  intros H.
  rewrite FloatAxioms.ltb_spec, FloatAxioms.abs_spec, (Prim2SF_nan v H).
  destruct (FloatOps.Prim2SF x); reflexivity.
Qed.

Lemma reachedGoal_nan (q g : list float) :
  Forall (fun x => is_nan x = true) q -> reachedGoal q g = true.
Proof.
  intros HF. revert g. induction HF as [|x q Hx _ IH]; intros g; [reflexivity|].
  destruct g as [|y g]; [reflexivity|]. simpl.
  rewrite (ltb_abs_sub_nan tolerance x y Hx). apply IH.
Qed.

Lemma inMotion_nan (qd : list float) :
  Forall (fun x => is_nan x = true) qd -> inMotion qd = false.
Proof.
  induction 1 as [|x qd Hx _ IH]; [reflexivity|]. simpl.
  rewrite (ltb_abs_nan _ x Hx). exact IH.
Qed.

(** X17: the tests of [reachedGoal] and [inMotion] are "above the
    threshold", which no NaN is: a round of the polling loop that reads NaN
    for every position and every speed, while the loop condition holds,
    finds the goal reached at rest and reports Succeeded. *)
Theorem nan_telemetry_counts_as_goal_reached (timeout : Z) (back : TrajectoryPoint)
    (res : Result) (o : poll_obs) (rest : list poll_obs) :
  Forall (fun x => is_nan x = true) (ob_q o) ->
  Forall (fun x => is_nan x = true) (ob_qd o) ->
  keeps_polling timeout o = true ->
  reachedGoal (ob_q o) (tp_positions back) = true /\
  inMotion (ob_qd o) = false /\
  poll_loop timeout back res (o :: rest)
  = ([OnCurr (setSucceeded (set_error_code SUCCESSFUL res))],
     set_error_code SUCCESSFUL res, Some false).
Proof.
  intros Hq Hqd Hk.
  pose proof (reachedGoal_nan _ (tp_positions back) Hq) as Hr.
  pose proof (inMotion_nan _ Hqd) as Hm.
  split; [exact Hr|]. split; [exact Hm|].
  simpl. unfold keeps_polling in Hk. rewrite Hk, Hr, Hm. reflexivity.
Qed.

Section NanLimit.

Variable to_string : float -> string.

(** X18: the test of line 210 is "above [max_velocity_]", which nothing is
    when [max_velocity_] is NaN: with such a limit [validate] passes every
    goal that passes the other checks, whatever its velocities, as long as
    they are finite. *)
Theorem nan_limit_checks_no_velocity (s : server) (gh : GoalHandle) (res : Result) :
  is_nan (max_velocity_ s) = true ->
  fst (validate to_string s gh res) = true <->
  state_ s = Running /\
  list_to_set (joint_names (getGoal gh)) = joint_set_ s /\
  (1 <= length (points (getGoal gh)))%nat /\
  Forall (fun point =>
            length (positions point) = length (joint_names_ s) /\
            length (velocities point) = length (joint_names_ s) /\
            Forall (fun p => is_finite p = true) (positions point) /\
            Forall (fun v => is_finite v = true) (velocities point))
         (points (getGoal gh)).
Proof.
  intros Hnan. rewrite validate_spec. unfold admissible.
  assert (Hpt : forall point,
            point_ok s point <->
            length (positions point) = length (joint_names_ s) /\
            length (velocities point) = length (joint_names_ s) /\
            Forall (fun p => is_finite p = true) (positions point) /\
            Forall (fun v => is_finite v = true) (velocities point)).
  { intros point. unfold point_ok. split.
    - intros (H1 & H2 & H3 & H4). repeat split; try assumption.
      eapply Forall_impl; [exact H4|]. intros v [Hv _]. exact Hv.
    - intros (H1 & H2 & H3 & H4). repeat split; try assumption.
      eapply Forall_impl; [exact H4|]. intros v Hv. split; [exact Hv|].
      apply ltb_nan_l. exact Hnan. }
  split.
  - intros (H1 & H2 & H3 & H4). repeat split; try assumption.
    eapply Forall_impl; [exact H4|]. intros point. apply Hpt.
  - intros (H1 & H2 & H3 & H4). repeat split; try assumption.
    eapply Forall_impl; [exact H4|]. intros point. apply Hpt.
Qed.

End NanLimit.

Lemma nan_telemetry_witness :
  poll_loop 6000000000 (mkTP Ex.ones Ex.zeros 4000000) (mkResult 0 "")
    [mkObs 1000000000 Ex.zeros (replicate 6 nan) (replicate 6 nan) false]
  = ([OnCurr (setSucceeded (mkResult SUCCESSFUL ""))],
     mkResult SUCCESSFUL "", Some false).
Proof.
  apply (nan_telemetry_counts_as_goal_reached 6000000000
           (mkTP Ex.ones Ex.zeros 4000000) (mkResult 0 "")
           (mkObs 1000000000 Ex.zeros (replicate 6 nan) (replicate 6 nan) false) []).
  - repeat constructor.
  - repeat constructor.
  - reflexivity.
Defined.

Lemma nan_limit_witness :
  fst (validate Ex.to_string
         (set_state Running (ActionServer_ctor Ex.ur_joints nan Ex.zeros Ex.zeros))
         (mkGH 0 (mkGoal Ex.ur_joints
                    [Ex.at_time 1 0 Ex.zeros (replicate 6 1000000%float)]))
         onGoal_res) = true.
Proof.
  apply (nan_limit_checks_no_velocity Ex.to_string
           (set_state Running (ActionServer_ctor Ex.ur_joints nan Ex.zeros Ex.zeros))
           (mkGH 0 (mkGoal Ex.ur_joints
                      [Ex.at_time 1 0 Ex.zeros (replicate 6 1000000%float)]))
           onGoal_res).
  - reflexivity.
  - split; [reflexivity|]. split; [reflexivity|]. split; [simpl; lia|].
    repeat constructor.
Defined.

(* ===================================================================== *)
(** ** Rejections *)
(* ===================================================================== *)

Section Rejections.

Variable to_string : float -> string.
Variable Duration_fromSec : float -> Z.

(** X19: the text of a rejection by [validate] is empty exactly when the
    robot is Running, the names are the configured ones and the trajectory
    has no points; every other failing check sets a text. *)
Theorem rejection_text_empty_only_without_points (s : server) (gh : GoalHandle) :
  fst (validate to_string s gh onGoal_res) = false ->
  error_string (snd (validate to_string s gh onGoal_res)) = "" <->
  state_ s = Running /\
  list_to_set (joint_names (getGoal gh)) = joint_set_ s /\
  points (getGoal gh) = [].
Proof.
  intros Hf. split.
  - intros Hempty.
    pose proof (validate_message to_string s gh Hf) as Hmsg.
    assert (Hst : state_ s = Running).
    { destruct (state_ s) eqn:E; try reflexivity;
        exfalso; apply Hmsg; [left; discriminate|exact Hempty
                             |left; discriminate|exact Hempty
                             |left; discriminate|exact Hempty
                             |left; discriminate|exact Hempty]. }
    split; [exact Hst|].
    destruct (decide (list_to_set (joint_names (getGoal gh)) = joint_set_ s))
      as [Hj|Hj].
    2:{ exfalso. apply Hmsg; [right; left; exact Hj|exact Hempty]. }
    split; [exact Hj|].
    destruct (points (getGoal gh)) as [|point pts] eqn:Hp; [reflexivity|].
    exfalso. apply Hmsg; [right; right; discriminate|exact Hempty].
  - intros (Hst & Hj & Hp). unfold validate, validateState. rewrite Hst.
    cbn [negb]. unfold validateJoints. rewrite (bool_decide_eq_true_2 _ Hj).
    cbn [negb]. unfold validateTrajectory. cbv zeta. rewrite Hp. reflexivity.
Qed.

(** X20: a goal that arrives while the robot is not Running is rejected
    with the text [validateState] chose for the state and the code -100
    that [onGoal] put into [res]; neither the names nor the trajectory are
    looked at, the mutex is not touched and no field changes. *)
Theorem onGoal_rejects_by_state (c : config) (gh : GoalHandle) :
  exited (world_of c) = false ->
  spinner c = Run (onGoal to_string gh) ->
  state_ (srv (world_of c)) <> Running ->
  let text :=
    match state_ (srv (world_of c)) with
    | EmergencyStopped => "Robot is emergency stopped"
    | ProtectiveStopped => "Robot is protective stopped"
    | Error => "Robot is not ready, check robot_mode"
    | _ => "Undefined state"
    end%string in
  run_alone to_string Duration_fromSec 16 Spinner c
  = set_thread Spinner (Run (Ret tt))
      (set_world
         (log (OnGoalHandle (Some gh) (setRejected (mkResult (-100) text) text))
              (world_of c)) c).
Proof.
  intros Hex Hsp Hst.
  destruct c as [[s m tr ex] sp tj st rt n]. simpl in Hex, Hsp, Hst. subst ex sp.
  cbv zeta. cbn [world_of srv].
  destruct (state_ s) eqn:E; try contradiction;
    cbn; unfold validate, validateState; rewrite E; reflexivity.
Qed.

End Rejections.

Lemma rejection_text_witness :
  error_string
    (snd (validate Ex.to_string Ex.srv0
            (mkGH 0 (mkGoal Ex.ur_joints [Ex.at_time 1 0 Ex.zeros []]))
            onGoal_res)) = "" <->
  state_ Ex.srv0 = Running /\
  list_to_set (joint_names (getGoal
     (mkGH 0 (mkGoal Ex.ur_joints [Ex.at_time 1 0 Ex.zeros []]))))
    = joint_set_ Ex.srv0 /\
  points (getGoal (mkGH 0 (mkGoal Ex.ur_joints [Ex.at_time 1 0 Ex.zeros []])))
    = [].
Proof.
  apply (rejection_text_empty_only_without_points Ex.to_string Ex.srv0
           (mkGH 0 (mkGoal Ex.ur_joints [Ex.at_time 1 0 Ex.zeros []]))).
  vm_compute. reflexivity.
Defined.

Lemma onGoal_rejects_by_state_witness :
  run_alone Ex.to_string Ex.Duration_fromSec 16 Spinner
    (Ex.config_of (set_state ProtectiveStopped Ex.srv0) None
       (Run (onGoal Ex.to_string (mkGH 0 Ex.doubled_goal))) (Run (Ret tt)))
  = mkConfig
      (mkWorld (set_state ProtectiveStopped Ex.srv0) None
         [OnGoalHandle (Some (mkGH 0 Ex.doubled_goal))
            (setRejected (mkResult (-100) "Robot is protective stopped")
               "Robot is protective stopped")]
         false)
      (Run (Ret tt)) (Run (Ret tt)) (Run (Ret tt)) (Run (Ret tt)) 1.
Proof.
  exact (onGoal_rejects_by_state Ex.to_string Ex.Duration_fromSec
           (Ex.config_of (set_state ProtectiveStopped Ex.srv0) None
              (Run (onGoal Ex.to_string (mkGH 0 Ex.doubled_goal))) (Run (Ret tt)))
           (mkGH 0 Ex.doubled_goal) eq_refl eq_refl ltac:(discriminate)).
Defined.

(* ===================================================================== *)
(** ** What the parsers test *)
(* ===================================================================== *)

Section ParsersExact.

Context {BP Packet : Type} `{BinParserOps BP} `{MessageTypes}.
Variables T VersionMessage : PacketClass BP Packet.

(** X21: [URStateParser::parse] returns a packet exactly when the type
    field is ROBOT_STATE and [parse_with] accepts what follows it: the
    declared size is read and never compared with the buffer.
    [URRTStateParser::parse] returns a packet exactly when [check_size]
    accepts the declared size and [parse_with] accepts what follows the
    size: it reads no type field. *)
Theorem state_parsers_return_exactly (bp : BP) (pkt : Packet) :
  (URStateParser_parse T bp = Some pkt <->
   type_field bp = ROBOT_STATE /\
   parse_with (PacketClass := T) (new_packet (PacketClass := T))
     (snd (parse_uint8 (snd (parse_int32 bp)))) = (true, pkt)) /\
  (URRTStateParser_parse T bp = Some pkt <->
   check_size bp (peek_int32 bp) = true /\
   parse_with (PacketClass := T) (new_packet (PacketClass := T)) (snd (parse_int32 bp)) = (true, pkt)).
Proof.
  split.
  - unfold URStateParser_parse, type_field.
    destruct (parse_int32 bp) as [packet_size bp1]. simpl.
    destruct (parse_uint8 bp1) as [type bp2]. simpl.
    destruct (Z.eqb_spec type ROBOT_STATE) as [Ht|Ht]; simpl.
    + destruct (parse_with new_packet bp2) as [[] obj]; split.
      * intros [= ->]. split; [assumption|reflexivity].
      * intros [_ [= ->]]. reflexivity.
      * discriminate.
      * intros [_ [=]].
    + split; [discriminate|]. intros [Hc _]. contradiction.
  - unfold URRTStateParser_parse.
    destruct (check_size bp (peek_int32 bp)); simpl.
    + destruct (parse_int32 bp) as [packet_size bp1]. simpl.
      destruct (parse_with new_packet bp1) as [[] obj]; split.
      * intros [= ->]. split; reflexivity.
      * intros [_ [= ->]]. reflexivity.
      * discriminate.
      * intros [_ [=]].
    + split; [discriminate|]. intros [[=] _].
Qed.

(** X22: [URMessageParser::parse] returns a packet exactly when
    [check_size] accepts the declared size, the type is ROBOT_MESSAGE, the
    kind is ROBOT_MESSAGE_VERSION and the version message's [parse_with]
    accepts the payload; a robot message of any other kind yields the null
    pointer, however well formed. *)
Theorem message_parser_returns_version_messages_only (bp : BP) :
  (forall pkt,
     URMessageParser_parse VersionMessage bp = Some pkt <->
     check_size bp (peek_int32 bp) = true /\
     type_field bp = ROBOT_MESSAGE /\
     fst (after_robot_message_header bp) = ROBOT_MESSAGE_VERSION /\
     parse_with (PacketClass := VersionMessage)
       (new_packet (PacketClass := VersionMessage))
       (snd (after_robot_message_header bp)) = (true, pkt)) /\
  (fst (after_robot_message_header bp) <> ROBOT_MESSAGE_VERSION ->
   URMessageParser_parse VersionMessage bp = None).
Proof.
  unfold URMessageParser_parse, type_field, after_robot_message_header.
  destruct (check_size bp (peek_int32 bp)); simpl.
  2:{ split; [|reflexivity]. intros pkt. split; [discriminate|]. intros [[=] _]. }
  destruct (parse_int32 bp) as [packet_size bp1]. simpl.
  destruct (parse_uint8 bp1) as [type bp2]. simpl.
  destruct (Z.eqb_spec type ROBOT_MESSAGE) as [Ht|Ht]; simpl.
  2:{ split; [|reflexivity]. intros pkt. split; [discriminate|].
      intros (_ & Hc & _). contradiction. }
  destruct (parse_uint64 bp2) as [timestamp bp3]. simpl.
  destruct (parse_uint8 bp3) as [source bp4]. simpl.
  destruct (parse_uint8 bp4) as [message_type bp5]. simpl.
  destruct (Z.eqb_spec message_type ROBOT_MESSAGE_VERSION) as [Hm|Hm].
  2:{ split; [|reflexivity]. intros pkt. split; [discriminate|].
      intros (_ & _ & Hc & _). contradiction. }
  split; [|intros Hc; contradiction].
  intros pkt. destruct (parse_with new_packet bp5) as [[] vm]; split.
  - intros [= ->]. repeat split; assumption || reflexivity.
  - intros (_ & _ & _ & [= ->]). reflexivity.
  - discriminate.
  - intros (_ & _ & _ & [=]).
Qed.

End ParsersExact.

(** A robot state message shorter than the size it declares is handed to
    [parse_with]; a text message, complete and of the right type, yields
    nothing. *)
Lemma parsers_exact_examples :
  check_size Ex.cut_state_message (peek_int32 Ex.cut_state_message) = false /\
  URStateParser_parse Ex.rest_packet Ex.cut_state_message = Some [7] /\
  check_size Ex.text_message (peek_int32 Ex.text_message) = true /\
  URMessageParser_parse Ex.rest_packet Ex.text_message = None.
Proof. repeat split; reflexivity. Qed.

(* ===================================================================== *)
(** ** The start of the server *)
(* ===================================================================== *)

(** X23: the first [start] sets [running_] and creates [tj_thread_]; a
    later [start] creates no second thread and leaves [running_] set, but
    reads the two parameters again, so that their values can change while
    the server runs.  With the parameters the first [start] found, the
    server is the one every run below begins with. *)
Theorem start_creates_one_thread (joint_names : list string)
    (max_velocity : float) (q0 qd0 : list float)
    (smooth kill smooth' kill' : option bool) :
  let s0 := ActionServer_ctor joint_names max_velocity q0 qd0 in
  let s1 := fst (start smooth kill s0) in
  let s2 := fst (start smooth' kill' s1) in
  snd (start smooth kill s0) = true /\
  snd (start smooth' kill' s1) = false /\
  s1 = srv (world_of (started joint_names max_velocity q0 qd0
                        (default true smooth) (default true kill))) /\
  s2 = set_params (default (default true smooth) smooth')
                  (default (default true kill) kill') s1 /\
  running_ s2 = true.
Proof. repeat split. Qed.

(* ===================================================================== *)
(** ** Names as a set, times in microseconds *)
(* ===================================================================== *)

(** X25: [validateJoints] compares sets: its verdict and its message are
    the same for two goals that name the same joints, in whatever order and
    however often. *)
Theorem validateJoints_reads_the_set_of_names (s : server) (gh gh' : GoalHandle)
    (res : Result) :
  (list_to_set (joint_names (getGoal gh)) : gset string)
    = list_to_set (joint_names (getGoal gh')) ->
  validateJoints s gh res = validateJoints s gh' res.
Proof. intros Hset. unfold validateJoints. rewrite Hset. reflexivity. Qed.

Lemma validateJoints_witness :
  validateJoints Ex.srv0 (mkGH 0 Ex.doubled_goal) onGoal_res
  = validateJoints Ex.srv0 (mkGH 1 Ex.rotated_goal) onGoal_res.
Proof.
  apply (validateJoints_reads_the_set_of_names Ex.srv0
           (mkGH 0 Ex.doubled_goal) (mkGH 1 Ex.rotated_goal) onGoal_res).
  apply set_eq. intros x. rewrite !elem_of_list_to_set.
  simpl. unfold Ex.doubled_names, Ex.rotated_names.
  rewrite !elem_of_cons, !elem_of_nil. tauto.
Defined.

(** X26: [convert] keeps the order of two durations and moves a duration
    toward zero by less than a microsecond. *)
Theorem convert_keeps_order_and_truncates (d1 d2 : Duration) :
  (toNSec d1 <= toNSec d2 -> convert d1 <= convert d2) /\
  Z.abs (1000 * convert d1) <= Z.abs (toNSec d1) /\
  Z.abs (toNSec d1 - 1000 * convert d1) < 1000.
Proof.
  unfold convert, toNSec.
  set (a := d_sec d1 * 1000000000 + d_nsec d1).
  set (b := d_sec d2 * 1000000000 + d_nsec d2).
  pose proof (Z.quot_rem' a 1000) as Hqr.
  split; [intros Hle; apply Z.quot_le_mono; lia|].
  destruct (Z_lt_le_dec a 0) as [Hneg|Hpos].
  - pose proof (Z.rem_bound_pos_neg a 1000 ltac:(lia) ltac:(lia)) as Hr.
    pose proof (Z.mul_quot_ge a 1000 ltac:(lia) ltac:(lia)) as Hq.
    lia.
  - pose proof (Z.rem_bound_pos_pos a 1000 ltac:(lia) ltac:(lia)) as Hr.
    assert (0 <= Z.quot a 1000) by (apply Z.quot_pos; lia).
    lia.
Qed.

(* ===================================================================== *)
(** ** The slot of the current goal is filled before it is used *)
(* ===================================================================== *)

Lemma fills_first_weaken {A : Type} (set : bool) (p : prog A) :
  fills_first set p -> fills_first true p.
Proof.
  induction p as [a|k IH|f k IH|k IH|k IH|k IH|pred k IH|c k IH|e k IH|k IH|fin];
    simpl; auto.
  - destruct f as [st|b|b|gh|q|qd]; auto. destruct b; [|auto].
    intros [_ Hk]. auto.
  - intros (Hp & Ht & Hf). auto.
  - destruct c; auto. intros [_ Hk]. auto.
  - intros [He Hk]. auto.
Qed.

Lemma tfills_mono (set set' : bool) (ts : tstate) :
  (set = true -> set' = true) -> tfills set ts -> tfills set' ts.
Proof.
  intros Himp. destruct set'.
  - destruct ts as [p|pred k|timed_out pred k|]; simpl; auto.
    + apply fills_first_weaken.
    + intros (Hp & Ht & Hf). eauto using @fills_first_weaken.
    + intros (Hp & Ht & Hf). eauto using @fills_first_weaken.
  - destruct set; [specialize (Himp eq_refl); discriminate|]. auto.
Qed.

Lemma fills_first_do_all (outs : list out) (k : prog unit) :
  Forall out_allowed outs -> fills_first true k -> fills_first true (do_all outs k).
Proof.
  intros HF Hk. induction HF as [|o outs Ho _ IH]; simpl; [exact Hk|].
  destruct o as [c|e]; simpl.
  - destruct c; auto.
  - split; [|exact IH]. intros ->. exact Ho.
Qed.

Lemma fills_first_goal_done (set : bool) (fin : thread_end) :
  fills_first set (goal_done fin).
Proof. destruct fin; simpl; auto. Qed.

Section SlotPrograms.

Variable to_string : float -> string.
Variable Duration_fromSec : float -> Z.

Lemma fills_first_turn_woken (set b : bool) :
  (b = true -> set = true) ->
  fills_first set (turn_woken Duration_fromSec b).
Proof.
  destruct b; simpl; [|auto]. intros Hs. rewrite (Hs eq_refl).
  split; [reflexivity|]. intros s env. unfold turn_execute.
  apply fills_first_do_all;
    [apply trajectoryThread_goal_allowed|apply fills_first_goal_done].
Qed.

Lemma fills_first_turn (set : bool) :
  fills_first set (trajectoryThread_turn Duration_fromSec).
Proof.
  simpl. split; [|split].
  - intros s Hp. apply andb_true_iff in Hp. apply Hp.
  - split; [reflexivity|]. intros s env. unfold turn_execute.
    apply fills_first_do_all;
      [apply trajectoryThread_goal_allowed|apply fills_first_goal_done].
  - exact I.
Qed.

Lemma fills_first_onGoal (set : bool) (gh : GoalHandle) :
  fills_first set (onGoal to_string gh).
Proof.
  unfold onGoal. simpl. intros s.
  destruct (validate to_string s gh _) as [[] res]; simpl.
  - intros s'. destruct (running_ s'); simpl.
    + intros []; simpl; repeat split; discriminate.
    + split; [discriminate|exact I].
  - split; [discriminate|exact I].
Qed.

Lemma fills_first_onCancel (set : bool) (gh : GoalHandle) :
  fills_first set (onCancel gh).
Proof. simpl. split; [discriminate|exact I]. Qed.

Lemma fills_first_onRobotStateChange (set : bool) (state : RobotState) :
  fills_first set (onRobotStateChange state).
Proof.
  unfold onRobotStateChange. simpl.
  destruct (RobotState_eqb state Running); simpl; [exact I|].
  intros s. destruct (interrupt_traj_ s); simpl; [exact I|].
  intros s'. destruct (has_goal_ s'); simpl; [|exact I].
  intros []; simpl; exact I.
Qed.

End SlotPrograms.

(** One step of a thread keeps the slot filled before it is used. *)
Lemma step_thread_fills (t : tid) (ts ts' : tstate) (w w' : world) :
  (has_goal_ (srv w) = true -> slot_set (srv w) = true) ->
  tfills (slot_set (srv w)) ts ->
  step_thread t ts w = Some (ts', w') ->
  (has_goal_ (srv w') = true -> slot_set (srv w') = true) /\
  tfills (slot_set (srv w')) ts' /\
  (slot_set (srv w) = true -> slot_set (srv w') = true) /\
  (In (OnGoalHandle None setAccepted) (trace w') ->
   In (OnGoalHandle None setAccepted) (trace w)).
Proof.
  intros Hg.
  destruct ts as [p|pred k|timed_out pred k|]; simpl; try discriminate.
  - destruct p as [a|k|f k|k|k|k|pred k|c k|e k|k|fin]; simpl;
      try discriminate.
    + intros Hk [= <- <-]. split; [exact Hg|]. split; [apply Hk|]. auto.
    + intros Hk [= <- <-].
      destruct f as [st|b|b|gh|q|qd]; simpl in *;
        try (split; [exact Hg|]; split; [exact Hk|]; auto).
      * destruct b; simpl in *.
        -- destruct Hk as [Hs Hk]. split; [auto|]. split; [exact Hk|]. auto.
        -- split; [discriminate|]. split; [exact Hk|]. auto.
      * unfold slot_set. simpl. split; [auto|]. split; [exact Hk|]. auto.
    + intros Hk. destruct (tj_mutex_ w); intros [= <- <-]; simpl;
        (split; [exact Hg|]; split; [apply Hk|]; auto).
    + intros Hk. destruct (tj_mutex_ w); [discriminate|].
      intros [= <- <-]. simpl. split; [exact Hg|]. split; [exact Hk|]. auto.
    + intros Hk [= <- <-]. simpl. split; [exact Hg|]. split; [exact Hk|]. auto.
    + intros (Hp & Ht & Hf). destruct (pred (srv w)) eqn:Epred; intros [= <- <-].
      * split; [exact Hg|]. split; [|auto]. simpl.
        rewrite (Hg (Hp _ Epred)). exact Ht.
      * simpl. split; [exact Hg|]. split; [|auto]. split; [exact Hp|]. auto.
    + intros Hk [= <- <-]. simpl. split; [exact Hg|]. split; [|split; [auto|]].
      * destruct c; simpl in Hk; try exact Hk. apply Hk.
      * intros [Heq|Hin]; [|exact Hin]. exfalso.
        injection Heq as Hcur ->. simpl in Hk. destruct Hk as [Hs _].
        unfold slot_set in Hs. rewrite Hcur in Hs. discriminate.
    + intros [He Hk] [= <- <-]. simpl. split; [exact Hg|]. split; [exact Hk|].
      split; [auto|]. intros [Heq|Hin]; [|exact Hin]. contradiction.
    + intros _ [= <- <-]. destruct (ends_process fin); simpl;
        (split; [exact Hg|]; split; [exact I|]; auto).
  - intros (Hp & Ht & Hf). destruct (tj_mutex_ w); [discriminate|].
    intros [= <- <-]. simpl. split; [exact Hg|]. split; [|auto].
    destruct timed_out; simpl; [|auto].
    destruct (pred (srv w)) eqn:Epred; [|exact Hf].
    rewrite (Hg (Hp _ Epred)). exact Ht.
Qed.

Section Slot.

Variable to_string : float -> string.
Variable Duration_fromSec : float -> Z.

Lemma slot_filled_new_handler (t : tid) (p : prog unit) (c : config) :
  slot_filled c ->
  (forall set, fills_first set p) ->
  slot_filled (set_thread t (Run p) c).
Proof.
  intros (Hg & Ht & Htr) Hp. unfold slot_filled. rewrite world_of_set_thread.
  split; [exact Hg|]. split; [|exact Htr].
  intros u. rewrite thread_set_thread.
  destruct (decide (u = t)); [apply Hp|apply Ht].
Qed.

Lemma step_slot_filled (c c' : config) (l : label) :
  slot_filled c -> step to_string Duration_fromSec c l = Some c' -> slot_filled c'.
Proof.
  intros (Hg & Ht & Htr). unfold step. destruct (exited (world_of c)); [discriminate|].
  destruct l as [t|t env|t timed_out|goal|gh|state|q qd|].
  - destruct (step_thread t (thread t c) (world_of c)) as [[ts w]|] eqn:Hst;
      [|discriminate].
    simpl. intros [= <-].
    destruct (step_thread_fills t _ _ _ _ Hg (Ht t) Hst) as (Hg' & Hts & Hmono & Htr').
    unfold slot_filled. rewrite world_of_set_thread. simpl.
    split; [exact Hg'|]. split; [|intros Hin; apply Htr, Htr', Hin].
    intros u. rewrite thread_set_thread.
    destruct (decide (u = t)) as [->|Hne]; [exact Hts|].
    rewrite thread_set_world. eapply tfills_mono; [exact Hmono|apply Ht].
  - destruct (thread t c) as [p| | |] eqn:Hth; try discriminate.
    destruct p; try discriminate. intros [= <-].
    unfold slot_filled. rewrite world_of_set_thread.
    split; [exact Hg|]. split; [|exact Htr].
    intros u. rewrite thread_set_thread.
    destruct (decide (u = t)) as [->|Hne]; [|apply Ht].
    specialize (Ht t). rewrite Hth in Ht. simpl in *. apply Ht.
  - destruct (thread t c) as [|pred k| |] eqn:Hth; try discriminate.
    intros [= <-].
    unfold slot_filled. rewrite world_of_set_thread.
    split; [exact Hg|]. split; [|exact Htr].
    intros u. rewrite thread_set_thread.
    destruct (decide (u = t)) as [->|Hne]; [|apply Ht].
    specialize (Ht t). rewrite Hth in Ht. exact Ht.
  - destruct (idle (spinner c)); [|discriminate]. intros [= <-].
    split; [exact Hg|]. split; [|exact Htr].
    intros u.
    destruct u; [apply fills_first_onGoal|exact (Ht TrajThread)
                |exact (Ht StateThread)|exact (Ht RTThread)].
  - destruct (idle (spinner c)); [|discriminate]. intros [= <-].
    exact (slot_filled_new_handler Spinner (onCancel gh) c
             (conj Hg (conj Ht Htr)) (fun set => fills_first_onCancel set gh)).
  - destruct (idle (state_thread c)); [|discriminate]. intros [= <-].
    exact (slot_filled_new_handler StateThread (onRobotStateChange state) c
             (conj Hg (conj Ht Htr))
             (fun set => fills_first_onRobotStateChange set state)).
  - destruct (idle (rt_thread c)); [|discriminate]. intros [= <-].
    exact (slot_filled_new_handler RTThread
             (bind (updateState q qd) (fun _ => Ret tt)) c
             (conj Hg (conj Ht Htr)) (fun set => I)).
  - destruct (idle (tj_thread_ c)); [|discriminate]. intros [= <-].
    destruct (running_ (srv (world_of c))).
    + exact (slot_filled_new_handler TrajThread
               (trajectoryThread_turn Duration_fromSec) c
               (conj Hg (conj Ht Htr))
               (fun set => fills_first_turn Duration_fromSec set)).
    + split; [exact Hg|]. split; [|exact Htr].
      intros u.
      destruct u; [exact (Ht Spinner)|exact I
                  |exact (Ht StateThread)|exact (Ht RTThread)].
Qed.

End Slot.

Tactic Notation "at_position" integer(n) tactic(tac) :=
  do n right; first [left; tac | tac].

Section TurnPositions.

Variable to_string : float -> string.
Variable Duration_fromSec : float -> Z.

(** A change of the world by another thread leaves [tj_thread_] where it
    stands. *)
Lemma tj_position_other (c c' : config) :
  tj_thread_ c' = tj_thread_ c ->
  (slot_set (srv (world_of c)) = true -> slot_set (srv (world_of c')) = true) ->
  (executing Duration_fromSec c ->
   curr_gh_ (srv (world_of c')) = curr_gh_ (srv (world_of c))) ->
  tj_position Duration_fromSec c -> tj_position Duration_fromSec c'.
Proof.
  intros Hth Hmono Hcur Hpos. unfold tj_position in *. rewrite Hth.
  destruct Hpos as [H|[H|[H|[H|[H|[H|[H|[H|[H|[H|H]]]]]]]]]].
  - at_position 0 (exact H).
  - at_position 1 (exact H).
  - at_position 2 (exact H).
  - at_position 3 (exact H).
  - at_position 4 (exact H).
  - at_position 5 (exact H).
  - at_position 6 (exact H).
  - at_position 7 (exact H).
  - destruct H as [H Hs]. at_position 8 (split; [exact H|auto]).
  - destruct H as (s' & H & Hc & Hs).
    at_position 9 (exists s'; split; [exact H|]; split; [|auto]).
    rewrite Hcur; [exact Hc|]. right. right. left. exists s'. exact H.
  - at_position 10 (exact H).
Qed.

Lemma step_tj_position (c c' : config) (l : label) :
  disciplined c ->
  slot_filled c ->
  tj_position Duration_fromSec c ->
  step to_string Duration_fromSec c l = Some c' ->
  tj_position Duration_fromSec c'.
Proof.
  intros Hd Hsf Hpos Hstep.
  pose proof Hsf as (Hg & Ht & Htr).
  revert Hstep. unfold step. destruct (exited (world_of c)); [discriminate|].
  destruct l as [t|t env|t timed_out|goal|gh|state|q qd|].
  - destruct (step_thread t (thread t c) (world_of c)) as [[ts w]|] eqn:Hst;
      [|discriminate].
    simpl. intros [= <-].
    destruct (step_thread_fills t _ _ _ _ Hg (Ht t) Hst) as (_ & _ & Hmono & _).
    destruct (decide (t = TrajThread)) as [->|Hne].
    + simpl in Hst. unfold tj_position in *. simpl.
      destruct Hpos as [H|[H|[H|[H|[H|[H|[H|[H|[H|[H|H]]]]]]]]]].
      * rewrite H in Hst. discriminate.
      * rewrite H in Hst. discriminate.
      * rewrite H in Hst. simpl in Hst.
        destruct (tj_mutex_ (world_of c)); [discriminate|].
        injection Hst as <- <-. at_position 3 (reflexivity).
      * rewrite H in Hst. simpl in Hst.
        destruct (goal_present (srv (world_of c))); injection Hst as <- <-.
        -- at_position 7 (reflexivity).
        -- at_position 4 (reflexivity).
      * rewrite H in Hst. discriminate.
      * destruct H as [b H]. rewrite H in Hst. simpl in Hst.
        destruct (tj_mutex_ (world_of c)); [discriminate|].
        injection Hst as <- <-. destruct b.
        -- destruct (goal_present (srv (world_of c))).
           ++ at_position 7 (reflexivity).
           ++ at_position 6 (reflexivity).
        -- at_position 3 (reflexivity).
      * rewrite H in Hst. injection Hst as <- <-.
        at_position 0 (reflexivity).
      * specialize (Ht TrajThread). simpl in Ht. rewrite H in Ht, Hst.
        simpl in Ht. destruct Ht as [Hs _].
        injection Hst as <- <-.
        at_position 8 (split; [reflexivity|exact Hs]).
      * destruct H as [H Hs]. rewrite H in Hst. injection Hst as <- <-.
        at_position 9 (exists (srv (world_of c)); split; [reflexivity|]; split;
                [reflexivity|exact Hs]).
      * destruct H as (s' & H & _). rewrite H in Hst. discriminate.
      * destruct H as (outs & fin & H). rewrite H in Hst.
        destruct outs as [|[call|e] outs]; simpl in Hst.
        -- destruct fin; simpl in Hst; injection Hst as <- <-.
           ++ at_position 6 (reflexivity).
           ++ at_position 1 (reflexivity).
           ++ at_position 1 (reflexivity).
           ++ at_position 1 (reflexivity).
        -- injection Hst as <- <-.
           at_position 10 (exists outs, fin; reflexivity).
        -- injection Hst as <- <-.
           at_position 10 (exists outs, fin; reflexivity).
    + apply (tj_position_other c); [destruct t; try reflexivity; contradiction| | |].
      * rewrite world_of_set_thread. exact Hmono.
      * intros Hex. rewrite world_of_set_thread. simpl.
        destruct (step_thread_curr_gh t _ _ _ _ (Hd t) Hst) as [He|[-> Ho]];
          [exact He|].
        pose proof (executing_owns Duration_fromSec c Hd Hex) as Ho'.
        apply owns_true in Ho, Ho'. congruence.
      * exact Hpos.
  - destruct (thread t c) as [p| | |] eqn:Hth; try discriminate.
    destruct p; try discriminate. intros [= <-].
    destruct (decide (t = TrajThread)) as [->|Hne].
    + simpl in Hth. unfold tj_position in *. simpl.
      destruct Hpos as [H|[H|[H|[H|[H|[H|[H|[H|[H|[H|H]]]]]]]]]];
        try (rewrite H in Hth; discriminate).
      * destruct H as [b H]. rewrite H in Hth. discriminate.
      * destruct H as [H _]. rewrite H in Hth. discriminate.
      * destruct H as (s' & H & _). rewrite H in Hth. injection Hth as <-.
        at_position 10 (eexists _, _; reflexivity).
      * destruct H as (outs & fin & H). rewrite H in Hth.
        destruct outs as [|[call|e] outs]; [destruct fin| |]; discriminate.
    + apply (tj_position_other c);
        [destruct t; try reflexivity; contradiction| | |exact Hpos];
        rewrite ?world_of_set_thread; auto.
  - destruct (thread t c) as [|pred k| |] eqn:Hth; try discriminate.
    intros [= <-].
    destruct (decide (t = TrajThread)) as [->|Hne].
    + simpl in Hth. unfold tj_position in *. simpl.
      destruct Hpos as [H|[H|[H|[H|[H|[H|[H|[H|[H|[H|H]]]]]]]]]];
        try (rewrite H in Hth; discriminate).
      * rewrite H in Hth. injection Hth as <- <-.
        at_position 5 (eexists; reflexivity).
      * destruct H as [b H]. rewrite H in Hth. discriminate.
      * destruct H as [H _]. rewrite H in Hth. discriminate.
      * destruct H as (s' & H & _). rewrite H in Hth. discriminate.
      * destruct H as (outs & fin & H). rewrite H in Hth. discriminate.
    + apply (tj_position_other c);
        [destruct t; try reflexivity; contradiction| | |exact Hpos];
        rewrite ?world_of_set_thread; auto.
  - destruct (idle (spinner c)); [|discriminate]. intros [= <-].
    apply (tj_position_other c); auto.
  - destruct (idle (spinner c)); [|discriminate]. intros [= <-].
    apply (tj_position_other c); auto.
  - destruct (idle (state_thread c)); [|discriminate]. intros [= <-].
    apply (tj_position_other c); auto.
  - destruct (idle (rt_thread c)); [|discriminate]. intros [= <-].
    apply (tj_position_other c); auto.
  - destruct (idle (tj_thread_ c)); [|discriminate]. intros [= <-].
    unfold tj_position. simpl. destruct (running_ (srv (world_of c))).
    + at_position 2 (reflexivity).
    + at_position 1 (reflexivity).
Qed.

(** Every state the server can reach keeps the three together. *)
Lemma reachable_slot (c : config) :
  reachable to_string Duration_fromSec c ->
  disciplined c /\ slot_filled c /\ tj_position Duration_fromSec c.
Proof.
  intros (names & mv & q0 & qd0 & smooth & kill & ls & Hrun).
  revert Hrun.
  assert (H0 : disciplined (started names mv q0 qd0 smooth kill) /\
               slot_filled (started names mv q0 qd0 smooth kill) /\
               tj_position Duration_fromSec (started names mv q0 qd0 smooth kill)).
  { split; [intros t; destruct t; reflexivity|]. split.
    - split; [discriminate|]. split; [intros t; destruct t; exact I|].
      intros [].
    - left. reflexivity. }
  revert H0. generalize (started names mv q0 qd0 smooth kill).
  induction ls as [|l ls IH]; simpl; intros c0 (Hd & Hs & Hp).
  - intros [= <-]. auto.
  - destruct (step to_string Duration_fromSec c0 l) as [c1|] eqn:Hstep; [|discriminate].
    simpl. apply IH. split; [|split].
    + eapply step_disciplined; eassumption.
    + eapply step_slot_filled; eassumption.
    + eapply step_tj_position; eassumption.
Qed.

(** X24: in every state the server can reach, [has_goal_] is set only when
    [curr_gh_] refers to a goal; when the execution thread has read the
    fields for an execution, their [curr_gh_] refers to a goal, the one
    that is still in [curr_gh_], so that the [getGoal] of line 292 never
    meets an empty handle; and no [setAccepted] was ever called on an
    empty handle. *)
Theorem execution_reads_a_filled_slot (c : config) :
  reachable to_string Duration_fromSec c ->
  (has_goal_ (srv (world_of c)) = true -> curr_gh_ (srv (world_of c)) <> None) /\
  (forall k,
     tj_thread_ c = Run (Ask k) ->
     exists s gh,
       k = turn_execute Duration_fromSec s /\
       curr_gh_ s = Some gh /\ curr_gh_ (srv (world_of c)) = Some gh) /\
  ~ In (OnGoalHandle None setAccepted) (trace (world_of c)).
Proof.
  intros Hr. destruct (reachable_slot c Hr) as (Hd & (Hg & Ht & Htr) & Hpos).
  split; [|split; [|exact Htr]].
  - intros Hh. specialize (Hg Hh). unfold slot_set in Hg.
    destruct (curr_gh_ (srv (world_of c))); [discriminate|discriminate].
  - intros k Hth. unfold tj_position in Hpos. rewrite Hth in Hpos.
    destruct Hpos as [H|[H|[H|[H|[H|[H|[H|[H|[H|[H|H]]]]]]]]]];
      try discriminate.
    + destruct H as [b H]. discriminate.
    + destruct H as [H _]. discriminate.
    + destruct H as (s' & H & Hc & Hs). unfold slot_set in Hs.
      destruct (curr_gh_ (srv (world_of c))) as [gh|] eqn:Hcur; [|discriminate].
      injection H as ->. exists s', gh. auto.
    + destruct H as (outs & fin & H).
      destruct outs as [|[call|e] outs]; [destruct fin| |]; discriminate.
Qed.

End TurnPositions.

Lemma run_reaches_after_19 :
  run Ex.to_string Ex.Duration_fromSec Run.c0 (take 19 Run.to_try_lock)
  = Some (Run.after 19).
Proof.
  unfold Run.after.
  destruct (run Ex.to_string Ex.Duration_fromSec Run.c0 (take 19 Run.to_try_lock))
    eqn:Hrun; [reflexivity|].
  exfalso. vm_compute in Hrun. discriminate Hrun.
Qed.

Lemma execution_reads_witness :
  exists s,
    tj_thread_ (Run.after 19) = Run (Ask (turn_execute Ex.Duration_fromSec s)) /\
    curr_gh_ s = Some Run.A /\
    curr_gh_ (srv (world_of (Run.after 19))) = Some Run.A.
Proof.
  assert (Hr : reachable Ex.to_string Ex.Duration_fromSec (Run.after 19)).
  { exists Ex.ur_joints, 10%float, Ex.zeros, Ex.zeros, true, true,
      (take 19 Run.to_try_lock).
    exact run_reaches_after_19. }
  assert (Hask : tj_thread_ (Run.after 19)
                 = Run (Ask (turn_execute Ex.Duration_fromSec
                               (srv (world_of (Run.after 19))))))
    by (vm_compute; reflexivity).
  destruct (proj1 (proj2 (execution_reads_a_filled_slot
                            Ex.to_string Ex.Duration_fromSec (Run.after 19) Hr))
              _ Hask) as (s & gh & Hk & Hs & Hcur).
  assert (HA : curr_gh_ (srv (world_of (Run.after 19))) = Some Run.A)
    by (vm_compute; reflexivity).
  rewrite HA in Hcur. injection Hcur as <-.
  exists s. split; [|split; [exact Hs|exact HA]].
  rewrite Hask, Hk. reflexivity.
Defined.
